(** * socksproxy: a shallow embedding of the encrypted SOCKS5 tunnel

    The development follows the Go sources of the repository (package main):
    - the bounded pool of scratch buffers ([BytePool]);
    - cipher.go: key derivation and the AES-CFB stream states ([Cipher]);
    - conn.go: the encrypting connection wrapper ([Conn]);
    - the SOCKS5 front end ([handsake], [readRawAddr]) and the server-side
      address decoder ([readTargetHost]).

    The parts of the Go standard library that the program calls
    (io.ReadAtLeast, crypto/sha256, crypto/aes, crypto/cipher's CFB mode,
    crypto/rand, net.Conn, net.IP.String, net.JoinHostPort, strconv.Itoa) are
    modelled first, each in a module named after its Go package; the last
    section checks them against published test vectors.

    Conventions.  A Go [[]byte] is a [list byte]; a call that fills a buffer
    returns the new contents of that buffer.  A Go call that does not return
    normally (a run-time panic, or a loop that never ends) is [None]; every
    function that can reach such a call lives in the [option] monad.  Package
    level variables ([bytePool], [rand.Reader]) are threaded explicitly as a
    [World]. *)

From Stdlib Require Import NArith ZArith Lia Bool.
From Stdlib Require Import Strings.Byte Strings.Ascii Strings.String.
From Stdlib Require Import Numbers.DecimalString.
From stdpp Require Import base option list gmap strings.

Local Open Scope nat_scope.

(* ===================================================================== *)
(** ** Bytes                                                              *)
(* ===================================================================== *)

Abbreviation byte := Byte.byte.

#[export] Instance byte_eq_decision : EqDecision byte := Byte.byte_eq_dec.

(** [byte(n)]: conversion of an integer to a byte keeps the low 8 bits. *)
Definition byte_of_N (n : N) : byte :=
  match Byte.of_N (n mod 256) with
  | Some b => b
  | None => Byte.x00
  end.

Definition byte_of_nat (n : nat) : byte := byte_of_N (N.of_nat n).

(** [int(b)] *)
Definition int (b : byte) : nat := Byte.to_nat b.

(** Bitwise exclusive or of two bytes, bit by bit. *)
Definition byte_xor (a b : byte) : byte :=
  let '(a0, (a1, (a2, (a3, (a4, (a5, (a6, a7))))))) := Byte.to_bits a in
  let '(b0, (b1, (b2, (b3, (b4, (b5, (b6, b7))))))) := Byte.to_bits b in
  Byte.of_bits (xorb a0 b0, (xorb a1 b1, (xorb a2 b2, (xorb a3 b3,
               (xorb a4 b4, (xorb a5 b5, (xorb a6 b6, xorb a7 b7))))))).

(** [make([]byte, n)]: a zeroed buffer. *)
Definition make (n : nat) : list byte := replicate n Byte.x00.

(** The builtin [copy(dst, src)]: overwrites the first
    [min(len(dst), len(src))] bytes of [dst]; the result is the new [dst]. *)
Definition copy (dst src : list byte) : list byte :=
  take (length dst) src ++ drop (length src) dst.

(** [buf[i]] for an index known to be in range ([x00] otherwise). *)
Definition at_ (buf : list byte) (i : nat) : byte := nth i buf Byte.x00.

(** [string(b)] for a byte slice. *)
Definition string_of_bytes (b : list byte) : string := string_of_list_byte b.

(* ===================================================================== *)
(** ** Package crypto/sha256                                              *)
(* ===================================================================== *)

Module sha256.
Local Open Scope N_scope.

Definition Size : nat := 32.

Definition mask32 : N := 0xffffffff.
Definition add32 (a b : N) : N := (a + b) mod 2 ^ 32.
Definition rotr (n x : N) : N :=
  N.lor (N.shiftr x n) (N.land (N.shiftl x (32 - n)) mask32).
Definition not32 (x : N) : N := N.lxor x mask32.

Definition Ch (x y z : N) : N := N.lxor (N.land x y) (N.land (not32 x) z).
Definition Maj (x y z : N) : N :=
  N.lxor (N.land x y) (N.lxor (N.land x z) (N.land y z)).
Definition bsig0 (x : N) : N := N.lxor (rotr 2 x) (N.lxor (rotr 13 x) (rotr 22 x)).
Definition bsig1 (x : N) : N := N.lxor (rotr 6 x) (N.lxor (rotr 11 x) (rotr 25 x)).
Definition ssig0 (x : N) : N := N.lxor (rotr 7 x) (N.lxor (rotr 18 x) (N.shiftr x 3)).
Definition ssig1 (x : N) : N := N.lxor (rotr 17 x) (N.lxor (rotr 19 x) (N.shiftr x 10)).

(** The first 64 primes; the round constants are the first 32 bits of the
    fractional parts of their cube roots, the initial hash value those of
    the square roots of the first eight. *)
Definition primes : list N :=
  [2; 3; 5; 7; 11; 13; 17; 19; 23; 29; 31; 37; 41; 43; 47; 53;
   59; 61; 67; 71; 73; 79; 83; 89; 97; 101; 103; 107; 109; 113; 127; 131;
   137; 139; 149; 151; 157; 163; 167; 173; 179; 181; 191; 193; 197; 199; 211; 223;
   227; 229; 233; 239; 241; 251; 257; 263; 269; 271; 277; 281; 283; 293; 307; 311].

(** Integer cube root below [2 ^ bits], one bit at a time. *)
Fixpoint icbrt (bits : nat) (x r : N) : N :=
  match bits with
  | O => r
  | S b =>
      let c := r + 2 ^ N.of_nat b in
      icbrt b x (if c * c * c <=? x then c else r)
  end.

Definition K : list N :=
  Eval vm_compute in
    List.map (fun p => icbrt 36 (p * 2 ^ 96) 0 mod 2 ^ 32) primes.

Definition H0 : list N :=
  Eval vm_compute in
    List.map (fun p => N.sqrt (p * 2 ^ 64) mod 2 ^ 32) (take 8 primes).

Definition be32 (b0 b1 b2 b3 : byte) : N :=
  Byte.to_N b0 * 2 ^ 24 + Byte.to_N b1 * 2 ^ 16 + Byte.to_N b2 * 2 ^ 8 + Byte.to_N b3.

Definition bytes_of_be (width : nat) (x : N) : list byte :=
  List.map (fun i => byte_of_N (N.shiftr x (8 * N.of_nat i))) (rev (seq 0 width)).

(** Padding: a one bit, zeros, and the bit length as a 64-bit big-endian
    integer, up to a multiple of 64 bytes. *)
Definition pad (msg : list byte) : list byte :=
  let len := length msg in
  let zeros := ((64 - (len + 9) mod 64) mod 64)%nat in
  msg ++ [Byte.x80] ++ replicate zeros Byte.x00
      ++ bytes_of_be 8 (8 * N.of_nat len).

Fixpoint words (n : nat) (bs : list byte) : list N :=
  match n, bs with
  | S n', b0 :: b1 :: b2 :: b3 :: rest => be32 b0 b1 b2 b3 :: words n' rest
  | _, _ => []
  end.

(** Message schedule; [w] holds W[t-1], W[t-2], ... (most recent first). *)
Fixpoint schedule (n : nat) (w : list N) : list N :=
  match n with
  | O => w
  | S n' =>
      let g i := nth i w 0 in
      schedule n' (add32 (add32 (ssig1 (g 1%nat)) (g 6%nat))
                         (add32 (ssig0 (g 14%nat)) (g 15%nat)) :: w)
  end.

Record digest := Digest { da : N; db : N; dc : N; dd : N; de : N; df : N; dg : N; dh : N }.

Definition round (s : digest) (kw : N * N) : digest :=
  let '(k, w) := kw in
  let t1 := add32 (add32 (add32 (dh s) (bsig1 (de s))) (add32 (Ch (de s) (df s) (dg s)) k)) w in
  let t2 := add32 (bsig0 (da s)) (Maj (da s) (db s) (dc s)) in
  Digest (add32 t1 t2) (da s) (db s) (dc s) (add32 (dd s) t1) (de s) (df s) (dg s).

Definition block (s : digest) (chunk : list byte) : digest :=
  let w := rev (schedule 48 (rev (words 16 chunk))) in
  let t := fold_left round (combine K w) s in
  Digest (add32 (da s) (da t)) (add32 (db s) (db t)) (add32 (dc s) (dc t))
         (add32 (dd s) (dd t)) (add32 (de s) (de t)) (add32 (df s) (df t))
         (add32 (dg s) (dg t)) (add32 (dh s) (dh t)).

Fixpoint blocks (n : nat) (s : digest) (bs : list byte) : digest :=
  match n with
  | O => s
  | S n' => blocks n' (block s (take 64 bs)) (drop 64 bs)
  end.

Definition init : digest :=
  let g i := nth i H0 0 in
  Digest (g 0%nat) (g 1%nat) (g 2%nat) (g 3%nat) (g 4%nat) (g 5%nat) (g 6%nat) (g 7%nat).

(** [sha256.Sum256(data)]: the result is a [[32]byte] array. *)
Definition Sum256 (data : list byte) : list byte :=
  let p := pad data in
  let s := blocks (length p / 64) init p in
  bytes_of_be 4 (da s) ++ bytes_of_be 4 (db s) ++ bytes_of_be 4 (dc s)
    ++ bytes_of_be 4 (dd s) ++ bytes_of_be 4 (de s) ++ bytes_of_be 4 (df s)
    ++ bytes_of_be 4 (dg s) ++ bytes_of_be 4 (dh s).
End sha256.

(* ===================================================================== *)
(** ** Errors                                                             *)
(* ===================================================================== *)

(** The [error] values the program can observe, one constructor per place
    that creates one. *)
Inductive error :=
  | EOF                                  (* io.EOF *)
  | ErrUnexpectedEOF                     (* io.ErrUnexpectedEOF *)
  | ErrShortBuffer                       (* io.ErrShortBuffer *)
  | KeySizeError (k : nat)               (* aes.KeySizeError(k) *)
  | NetError (msg : string)              (* an error of the transport *)
  | ErrExpectVersion5 (got : byte)       (* "expect version 5, got: %d" *)
  | ErrNotSupportedCommand               (* "not supported socks command" *)
  | ErrNotSupportedAddrType              (* "not supported address type" *)
  | ErrParseHeader                       (* "fail to parse socks request header" *)
  | ErrRandomIV (cause : error)          (* "Can't build random iv: %v" *)
  | ErrInvalidIVLength (n : nat).        (* "Invalid IV length: %d" *)

(* ===================================================================== *)
(** ** Package strconv                                                    *)
(* ===================================================================== *)

Module strconv.
(** [strconv.Itoa] on a non-negative integer. *)
Definition Itoa (n : nat) : string :=
  DecimalString.NilZero.string_of_uint (Nat.to_uint n).
End strconv.

(** [err.Error()] *)
Fixpoint Error (e : error) : string :=
  match e with
  | EOF => "EOF"
  | ErrUnexpectedEOF => "unexpected EOF"
  | ErrShortBuffer => "short buffer"
  | KeySizeError k => "crypto/aes: invalid key size " +:+ strconv.Itoa k
  | NetError msg => msg
  | ErrExpectVersion5 got => "expect version 5, got: " +:+ strconv.Itoa (int got)
  | ErrNotSupportedCommand => "not supported socks command"
  | ErrNotSupportedAddrType => "not supported address type"
  | ErrParseHeader => "fail to parse socks request header"
  | ErrRandomIV cause => "Can't build random iv: " +:+ Error cause
  | ErrInvalidIVLength n => "Invalid IV length: " +:+ strconv.Itoa n
  end.

(* ===================================================================== *)
(** ** Package crypto/cipher: the Block interface                         *)
(* ===================================================================== *)

(** [cipher.Block].  [Encrypt dst src] is the new contents of [dst] after
    [b.Encrypt(dst, src)], which encrypts the first block of [src] into the
    first block of [dst]; the call panics when either is shorter than a
    block.  Decryption of single blocks is never used by CFB mode. *)
Record Block := mkBlock {
  BlockSize : nat;
  Encrypt : list byte -> list byte -> option (list byte)
}.

(* ===================================================================== *)
(** ** Package crypto/aes                                                 *)
(* ===================================================================== *)

Module aes.
Local Open Scope N_scope.

Definition BlockSize : nat := 16.

(** Arithmetic in GF(2^8) modulo x^8 + x^4 + x^3 + x + 1. *)
Definition xtime (a : N) : N :=
  let s := N.land (N.shiftl a 1) 0xff in
  if N.testbit a 7 then N.lxor s 0x1b else s.

Fixpoint gmul_aux (n : nat) (a b : N) : N :=
  match n with
  | O => 0
  | S n' => N.lxor (if N.odd b then a else 0) (gmul_aux n' (xtime a) (N.shiftr b 1))
  end.
Definition gmul (a b : N) : N := gmul_aux 8 a b.

(** The multiplicative inverse is the 254th power (0 maps to 0). *)
Definition ginv (a : N) : N :=
  let a2 := gmul a a in let a4 := gmul a2 a2 in let a8 := gmul a4 a4 in
  let a16 := gmul a8 a8 in let a32 := gmul a16 a16 in
  let a64 := gmul a32 a32 in let a128 := gmul a64 a64 in
  gmul a2 (gmul a4 (gmul a8 (gmul a16 (gmul a32 (gmul a64 a128))))).

Definition rotl8 (x n : N) : N :=
  N.land (N.lor (N.shiftl x n) (N.shiftr x (8 - n))) 0xff.

Definition sbox_of (a : N) : N :=
  let b := ginv a in
  N.lxor b (N.lxor (rotl8 b 1) (N.lxor (rotl8 b 2)
    (N.lxor (rotl8 b 3) (N.lxor (rotl8 b 4) 0x63)))).

Definition sbox : list N :=
  Eval vm_compute in List.map (fun i => sbox_of (N.of_nat i)) (seq 0 256).

Definition SubByte (b : N) : N := nth (N.to_nat b) sbox 0.

(** Key schedule.  Words are lists of four bytes. *)
Definition xor_word (u v : list N) : list N :=
  List.map (fun i => N.lxor (nth i u 0) (nth i v 0)) (seq 0 4).
Definition RotWord (w : list N) : list N :=
  List.map (fun i => nth ((i + 1) mod 4)%nat w 0) (seq 0 4).
Definition SubWord (w : list N) : list N := List.map SubByte w.

Fixpoint expand (n Nk i : nat) (rc : N) (w : list (list N)) : list (list N) :=
  match n with
  | O => w
  | S n' =>
      let prev := nth (i - 1)%nat w [] in
      let first := (i mod Nk =? 0)%nat in
      let temp :=
        if first then xor_word (SubWord (RotWord prev)) [rc; 0; 0; 0]
        else if ((6 <? Nk)%nat && (i mod Nk =? 4)%nat)%bool then SubWord prev
        else prev in
      expand n' Nk (S i) (if first then xtime rc else rc)
             (w ++ [xor_word (nth (i - Nk)%nat w []) temp])
  end.

Fixpoint key_words (n : nat) (key : list N) : list (list N) :=
  match n, key with
  | S n', b0 :: b1 :: b2 :: b3 :: rest => [b0; b1; b2; b3] :: key_words n' rest
  | _, _ => []
  end.

(** The expanded key: [4 * (Nr + 1)] words with [Nr = Nk + 6]. *)
Definition expandKey (key : list byte) : list (list N) :=
  let Nk := (length key / 4)%nat in
  expand (4 * (Nk + 7) - Nk)%nat Nk Nk 1 (key_words Nk (List.map Byte.to_N key)).

(** The state is kept in input order: entry [r + 4c] is row r, column c. *)
Definition SubBytes (s : list N) : list N := List.map SubByte s.

Definition ShiftRows (s : list N) : list N :=
  List.map (fun i => let r := (i mod 4)%nat in let c := (i / 4)%nat in
                     nth (r + 4 * ((c + r) mod 4))%nat s 0) (seq 0 16).

Definition MixColumns (s : list N) : list N :=
  List.map (fun i =>
    let r := (i mod 4)%nat in let c := (i / 4)%nat in
    let a k := nth (((r + k) mod 4) + 4 * c)%nat s 0 in
    N.lxor (gmul 2 (a 0%nat)) (N.lxor (gmul 3 (a 1%nat)) (N.lxor (a 2%nat) (a 3%nat))))
    (seq 0 16).

Definition AddRoundKey (w : list (list N)) (round : nat) (s : list N) : list N :=
  List.map (fun i => N.lxor (nth i s 0)
                            (nth (i mod 4)%nat (nth (4 * round + i / 4)%nat w []) 0))
           (seq 0 16).

Fixpoint rounds (n : nat) (w : list (list N)) (round : nat) (s : list N) : list N :=
  match n with
  | O => s
  | S n' =>
      rounds n' w (S round) (AddRoundKey w round (MixColumns (ShiftRows (SubBytes s))))
  end.

Definition encryptBlock (w : list (list N)) (src : list byte) : list byte :=
  let Nr := (length w / 4 - 1)%nat in
  let s := AddRoundKey w 0 (List.map Byte.to_N src) in
  let s := rounds (Nr - 1) w 1 s in
  let s := AddRoundKey w Nr (ShiftRows (SubBytes s)) in
  List.map (fun i => byte_of_N (nth i s 0)) (seq 0 BlockSize).

Definition Encrypt (w : list (list N)) (dst src : list byte) : option (list byte) :=
  if (length src <? BlockSize)%nat then None      (* "input not full block" *)
  else if (length dst <? BlockSize)%nat then None (* "output not full block" *)
  else Some (encryptBlock w (take BlockSize src) ++ drop BlockSize dst).

(** [aes.NewCipher(key)]: the key must be 16, 24 or 32 bytes long, any
    other length is a [KeySizeError]. *)
Definition valid_key_size (k : nat) : bool :=
  ((k =? 16) || (k =? 24) || (k =? 32))%nat.

Definition NewCipher (key : list byte) : Block + error :=
  let k := length key in
  if valid_key_size k then inl (mkBlock BlockSize (Encrypt (expandKey key)))
  else inr (KeySizeError k).
End aes.

(* ===================================================================== *)
(** ** Package crypto/cipher: CFB mode                                    *)
(* ===================================================================== *)

Module crypto_cipher.

(** [subtle.XORBytes(dst, x, y)]: the [min(len(x), len(y))] bytes written
    to the front of [dst]. *)
Definition xorBytes (x y : list byte) : list byte := zip_with byte_xor x y.

(** The [cfb] struct, a [cipher.Stream].  [newCFB] makes [next] and [out]
    one block long and [XORKeyStream] keeps them so, with
    [outUsed <= len(out)]. *)
Record cfb := mkCfb {
  b : Block;
  next : list byte;
  out : list byte;
  outUsed : nat;
  decrypt : bool
}.

(** [newCFB(block, iv, decrypt)] panics when the IV is not one block. *)
Definition newCFB (block : Block) (iv : list byte) (decrypt : bool) : option cfb :=
  let blockSize := BlockSize block in
  if negb (length iv =? blockSize) then None
  else Some {| b := block;
               out := make blockSize;
               next := copy (make blockSize) iv;
               outUsed := blockSize;
               decrypt := decrypt |}.

Definition NewCFBEncrypter (block : Block) (iv : list byte) : option cfb :=
  newCFB block iv false.
Definition NewCFBDecrypter (block : Block) (iv : list byte) : option cfb :=
  newCFB block iv true.

(** The loop of [XORKeyStream]: one turn per stretch of key stream, at most
    up to the end of the current block.  The result is the state and the
    new contents of [dst].  Each turn consumes at least one byte of [src],
    so [len(src)] turns suffice; a turn that consumes nothing would repeat
    for ever. *)
Fixpoint XORKeyStream_loop (fuel : nat) (x : cfb) (dst src : list byte)
  : option (cfb * list byte) :=
  match src with
  | [] => Some (x, dst)
  | _ :: _ =>
      match fuel with
      | O => None
      | S fuel' =>
          (* if x.outUsed == len(x.out) { x.b.Encrypt(x.out, x.next); x.outUsed = 0 } *)
          x ← (if outUsed x =? length (out x)
               then o ← Encrypt (b x) (out x) (next x);
                    Some (mkCfb (b x) (next x) o 0 (decrypt x))
               else Some x);
          (* if x.decrypt { copy(x.next[x.outUsed:], src) } *)
          let x := if decrypt x
                   then mkCfb (b x)
                          (take (outUsed x) (next x) ++ copy (drop (outUsed x) (next x)) src)
                          (out x) (outUsed x) (decrypt x)
                   else x in
          (* n := subtle.XORBytes(dst, src, x.out[x.outUsed:]) *)
          let d := xorBytes src (drop (outUsed x) (out x)) in
          let n := length d in
          if length dst <? n then None else
          let dst := d ++ drop n dst in
          (* if !x.decrypt { copy(x.next[x.outUsed:], dst) } *)
          let x := if decrypt x then x
                   else mkCfb (b x)
                          (take (outUsed x) (next x) ++ copy (drop (outUsed x) (next x)) dst)
                          (out x) (outUsed x) (decrypt x) in
          (* dst = dst[n:]; src = src[n:]; x.outUsed += n *)
          '(x', rest) ← XORKeyStream_loop fuel'
                          (mkCfb (b x) (next x) (out x) (outUsed x + n) (decrypt x))
                          (drop n dst) (drop n src);
          Some (x', take n dst ++ rest)
      end
  end.

(** [x.XORKeyStream(dst, src)] panics when [dst] is shorter than [src]. *)
Definition XORKeyStream (x : cfb) (dst src : list byte) : option (cfb * list byte) :=
  if length dst <? length src then None
  else XORKeyStream_loop (length src) x dst src.

End crypto_cipher.

(* ===================================================================== *)
(** ** Package io                                                         *)
(* ===================================================================== *)

(** [io.Reader].  [Read r p] models [n, err = r.Read(p)]: it yields the new
    state of the reader, the new contents of [p], [n] and [err]. *)
Class Reader (T : Type) := Read : T -> list byte -> option (T * list byte * nat * option error).

Module io.

(** The loop of [io.ReadAtLeast]:
    [for n < min && err == nil { nn, err = r.Read(buf[n:]); n += nn }].
    A reader that honours the [io.Reader] contract returns a byte or an
    error on every call with a non-empty buffer, so the loop ends within
    [min] turns; one that keeps returning [0, nil] never comes back. *)
Fixpoint ReadAtLeast_loop {T} `{Reader T} (fuel : nat) (r : T) (buf : list byte)
    (min n : nat) : option (T * list byte * nat * option error) :=
  if n <? min then
    match fuel with
    | O => None
    | S fuel' =>
        '(r', tail, nn, err) ← Read r (drop n buf);
        let buf' := take n buf ++ tail in
        match err with
        | None => ReadAtLeast_loop fuel' r' buf' min (n + nn)
        | Some e => Some (r', buf', n + nn, Some e)
        end
    end
  else Some (r, buf, n, None).

Definition ReadAtLeast {T} `{Reader T} (r : T) (buf : list byte) (min : nat)
  : option (T * list byte * nat * option error) :=
  if length buf <? min then Some (r, buf, 0, Some ErrShortBuffer)
  else
    '(r', buf', n, err) ← ReadAtLeast_loop min r buf min 0;
    let err' :=
      if min <=? n then None
      else match err with
           | Some EOF => if 0 <? n then Some ErrUnexpectedEOF else err
           | _ => err
           end in
    Some (r', buf', n, err').

Definition ReadFull {T} `{Reader T} (r : T) (buf : list byte)
  : option (T * list byte * nat * option error) :=
  ReadAtLeast r buf (length buf).

End io.

(* ===================================================================== *)
(** ** Package crypto/rand                                                *)
(* ===================================================================== *)

Module rand.
(** [rand.Reader], the operating system's random source: an unbounded
    tape of bytes and the position reached.  A read fills the whole
    buffer and never fails (the package documents that the default reader
    does not return an error); the program still tests the error, and so
    does its model, [Cipher_initEncrypt]. *)
Record Source := mkSource { tape : nat -> byte; pos : nat }.

Definition Read (r : Source) (p : list byte)
  : option (Source * list byte * nat * option error) :=
  let n := length p in
  Some (mkSource (tape r) (pos r + n), List.map (tape r) (seq (pos r) n), n, None).
End rand.

#[export] Instance rand_Reader : Reader rand.Source := rand.Read.

(* ===================================================================== *)
(** ** Package net: connections, addresses                                *)
(* ===================================================================== *)

Module net.

Definition IPv4len : nat := 4.
Definition IPv6len : nat := 16.

(** What the peer and the network do to a connection, in order.  A read
    blocks until something arrives: [Data b bs err] is the arrival of the
    bytes [b :: bs], with [err] reported by the read that takes the last of
    them; [Fail e] is a read that fails with nothing read.  When nothing
    is left the peer has closed the connection and reads report [EOF]. *)
Inductive read_event :=
  | Data (b : byte) (bs : list byte) (err : option error)
  | Fail (e : error).

(** How the next write goes: all written, or [n] bytes and an error. *)
Inductive write_event :=
  | WriteOk
  | WriteFail (n : nat) (e : error).

(** One end of a TCP connection ([net.Conn]): the events still to come on
    the reading side, the buffers handed to [Write] so far (one entry per
    call, oldest first) and the fate of the writes to come (all succeed
    once the list is used up). *)
Record Conn := mkConn {
  inbound : list read_event;
  writes : list (list byte);
  outcomes : list write_event
}.

(** What a read with room for [k] bytes takes off the connection: the
    connection afterwards, the bytes received and the error. *)
Definition recv (c : Conn) (k : nat) : Conn * list byte * option error :=
  match k with
  | 0 => (c, [], None)
  | S _ =>
      match inbound c with
      | [] => (c, [], Some EOF)
      | Fail e :: evs => (mkConn evs (writes c) (outcomes c), [], Some e)
      | Data b bs err :: evs =>
          let d := b :: bs in
          if length d <=? k
          then (mkConn evs (writes c) (outcomes c), d, err)
          else
            let evs' := match drop k d with
                        | b' :: bs' => Data b' bs' err :: evs
                        | [] => evs
                        end in
            (mkConn evs' (writes c) (outcomes c), take k d, None)
      end
  end.

(** [c.Read(p)]: the bytes received are copied to the front of [p]. *)
Definition Read (c : Conn) (p : list byte)
  : option (Conn * list byte * nat * option error) :=
  let '(c', d, err) := recv c (length p) in
  Some (c', copy p d, length d, err).

Definition Write (c : Conn) (p : list byte) : Conn * nat * option error :=
  match outcomes c with
  | [] => (mkConn (inbound c) (writes c ++ [p]) [], length p, None)
  | WriteOk :: os => (mkConn (inbound c) (writes c ++ [p]) os, length p, None)
  | WriteFail n e :: os =>
      (mkConn (inbound c) (writes c ++ [p]) os, Nat.min n (length p), Some e)
  end.

(** [net.IP.String] for the two lengths the program uses. *)
Definition dotted (ip : list byte) : string :=
  strconv.Itoa (int (at_ ip 0)) +:+ "." +:+ strconv.Itoa (int (at_ ip 1)) +:+ "."
    +:+ strconv.Itoa (int (at_ ip 2)) +:+ "." +:+ strconv.Itoa (int (at_ ip 3)).

(** [ip.To4()] on a 16-byte address: the last four bytes of an
    IPv4-mapped address [::ffff:a.b.c.d]. *)
Definition To4 (ip : list byte) : option (list byte) :=
  if decide (length ip = IPv4len) then Some ip
  else if decide (length ip = IPv6len
                  /\ take 10 ip = make 10
                  /\ at_ ip 10 = Byte.xff /\ at_ ip 11 = Byte.xff)
       then Some (drop 12 ip)
       else None.

Definition hextets (ip : list byte) : list nat :=
  List.map (fun i => int (at_ ip (2 * i)) * 256 + int (at_ ip (2 * i + 1))) (seq 0 8).

Fixpoint zero_run (hs : list nat) : nat :=
  match hs with
  | 0 :: t => S (zero_run t)
  | _ => 0
  end.

(** The longest run of at least two zero groups, the first among equals,
    as [start, end). *)
Fixpoint longest_zero_run (i : nat) (hs : list nat) (best : nat * nat) : nat * nat :=
  match hs with
  | [] => best
  | _ :: t =>
      let l := zero_run hs in
      longest_zero_run (S i) t
        (if (2 <=? l) && (snd best - fst best <? l) then (i, i + l) else best)
  end.

Definition hex_digit (n : nat) : ascii :=
  ascii_of_nat (if n <? 10 then 48 + n else 87 + n).

(** [appendHex]: lower case, no leading zeros. *)
Definition appendHex (h : nat) : string :=
  let ds := [h / 4096 mod 16; h / 256 mod 16; h / 16 mod 16; h mod 16] in
  let fix strip (l : list nat) : list nat :=
    match l with
    | 0 :: (_ :: _) as t => strip t
    | _ => l
    end in
  string_of_list_ascii (List.map hex_digit (strip ds)).

Fixpoint join_colon (l : list string) : string :=
  match l with
  | [] => ""
  | [x] => x
  | x :: t => x +:+ ":" +:+ join_colon t
  end.

Definition string6 (ip : list byte) : string :=
  let hs := hextets ip in
  let '(zs, ze) := longest_zero_run 0 hs (0, 0) in
  if ze - zs <? 2 then join_colon (List.map appendHex hs)
  else join_colon (List.map appendHex (take zs hs)) +:+ "::"
         +:+ join_colon (List.map appendHex (drop ze hs)).

Definition IP_String (ip : list byte) : string :=
  match ip with
  | [] => "<nil>"
  | _ =>
      match To4 ip with
      | Some p4 => dotted p4
      | None => if decide (length ip = IPv6len) then string6 ip else "?"
      end
  end.

(** [net.JoinHostPort]: a host with a colon is put between brackets. *)
Definition has_colon (s : string) : bool :=
  existsb (Ascii.eqb ":"%char) (list_ascii_of_string s).

Definition JoinHostPort (host port : string) : string :=
  if has_colon host then "[" +:+ host +:+ "]:" +:+ port
  else host +:+ ":" +:+ port.

End net.

#[export] Instance net_Conn_Reader : Reader net.Conn := net.Read.

Module binary.
(** [binary.BigEndian.Uint16(b)] *)
Definition BigEndian_Uint16 (b : list byte) : nat := int (at_ b 0) * 256 + int (at_ b 1).
End binary.

(* ===================================================================== *)
(** ** The buffer pool                                                    *)
(* ===================================================================== *)

(** A buffered channel of byte slices, [chan []byte]: its capacity and the
    values queued, oldest first.  The two operations are those of a
    [select] with a [default] branch: they report [None] where the plain
    channel operation would block. *)
Record chan := mkChan { chan_cap : nat; chan_queue : list (list byte) }.

Definition chan_make (capacity : nat) : chan := mkChan capacity [].

Definition chan_try_recv (ch : chan) : option (list byte * chan) :=
  match chan_queue ch with
  | [] => None
  | v :: q => Some (v, mkChan (chan_cap ch) q)
  end.

Definition chan_try_send (ch : chan) (v : list byte) : option chan :=
  if length (chan_queue ch) <? chan_cap ch
  then Some (mkChan (chan_cap ch) (chan_queue ch ++ [v]))
  else None.

Record BytePool := mkBytePool { bp_bufSize : nat; pool : chan }.

Definition bufSize : nat := 4 * 1024.
Definition poolSize : nat := 2048.

Definition NewBytePool (bufSize poolSize : nat) : BytePool :=
  {| bp_bufSize := bufSize; pool := chan_make poolSize |}.

(** [bp.Get()]: the buffer handed out and the pool afterwards. *)
Definition BytePool_Get (bp : BytePool) : list byte * BytePool :=
  match chan_try_recv (pool bp) with
  | Some (b, ch) => (b, mkBytePool (bp_bufSize bp) ch)
  | None =>
      (* pool empty, make new *)
      (make (bp_bufSize bp), bp)
  end.

Definition BytePool_GetAtLeast (bp : BytePool) (size : nat) : list byte * BytePool :=
  if bp_bufSize bp <? size then (make size, bp)
  else BytePool_Get bp.

Definition BytePool_Put (bp : BytePool) (b : list byte) : BytePool :=
  (* discard length not pre-defined *)
  if negb (length b =? bp_bufSize bp) then bp
  else
    match chan_try_send (pool bp) b with
    | Some ch => mkBytePool (bp_bufSize bp) ch
    | None =>
        (* pool full, drop it *)
        bp
    end.

(** The package-level variables: [bytePool] and [rand.Reader]. *)
Record World := mkWorld { bytePool : BytePool; randReader : rand.Source }.

Definition bytePool_init : BytePool := NewBytePool bufSize poolSize.

(** [buf[:n]] for a buffer of the pool; out of range is a panic. *)
Definition slice_to (buf : list byte) (n : nat) : option (list byte) :=
  if n <=? length buf then Some (take n buf) else None.

(* ===================================================================== *)
(** ** cipher.go                                                          *)
(* ===================================================================== *)

Abbreviation cfb := crypto_cipher.cfb.

Record Cipher := mkCipher {
  enc : option cfb;
  dec : option cfb;
  key : list byte
}.

Definition keyLenMap : gmap string nat :=
  {[ "aes-128-cfb" := 16; "aes-192-cfb" := 24; "aes-256-cfb" := 32 ]}.

Definition toKey (method password : string) : list byte :=
  let keyLen :=
    match keyLenMap !! method with
    | Some l => l
    | None => 32
    end in
  let bs := sha256.Sum256 (list_byte_of_string password) in
  take keyLen bs.

Definition NewCipher (method password : string) : Cipher :=
  let key := toKey method password in
  {| enc := None; dec := None; key := key |}.

(** [c.initEncrypt()] reads the IV from [rand.Reader]: the result is the new
    random source, the cipher, [iv] and [err]. *)
Definition Cipher_initEncrypt (rnd : rand.Source) (c : Cipher)
  : option (rand.Source * Cipher * list byte * option error) :=
  match aes.NewCipher (key c) with
  | inr err => Some (rnd, c, [], Some err)
  | inl block =>
      let iv := make aes.BlockSize in
      '(rnd, iv, _, err) ← io.ReadFull rnd iv;
      match err with
      | Some e => Some (rnd, c, [], Some (ErrRandomIV e))
      | None =>
          e ← crypto_cipher.NewCFBEncrypter block iv;
          Some (rnd, mkCipher (Some e) (dec c) (key c), iv, None)
      end
  end.

Definition Cipher_initDecrypt (c : Cipher) (iv : list byte)
  : option (Cipher * option error) :=
  match aes.NewCipher (key c) with
  | inr err => Some (c, Some err)
  | inl block =>
      if negb (length iv =? aes.BlockSize)
      then Some (c, Some (ErrInvalidIVLength (length iv)))
      else
        d ← crypto_cipher.NewCFBDecrypter block iv;
        Some (mkCipher (enc c) (Some d) (key c), None)
  end.

(** [c.decrypt(dst, src)] and [c.encrypt(dst, src)]: the cipher and the new
    contents of [dst]; a nil stream is a panic. *)
Definition Cipher_decrypt (c : Cipher) (dst src : list byte) : option (Cipher * list byte) :=
  d ← dec c;
  '(d', dst') ← crypto_cipher.XORKeyStream d dst src;
  Some (mkCipher (enc c) (Some d') (key c), dst').

Definition Cipher_encrypt (c : Cipher) (dst src : list byte) : option (Cipher * list byte) :=
  e ← enc c;
  '(e', dst') ← crypto_cipher.XORKeyStream e dst src;
  Some (mkCipher (Some e') (dec c) (key c), dst').

(* ===================================================================== *)
(** ** conn.go                                                            *)
(* ===================================================================== *)

Record Conn := mkEncConn { conn : net.Conn; cipher : Cipher }.

Definition NewConn (conn : net.Conn) (cipher : Cipher) : Conn :=
  {| conn := conn; cipher := cipher |}.

(** [c.Read(b)]: the world, the connection, the new contents of [b], [n]
    and [err]. *)
Definition Conn_Read (w : World) (c : Conn) (b : list byte)
  : option (World * Conn * list byte * nat * option error) :=
  (* if c.cipher.dec == nil { ... } *)
  '(c, err) ←
    match dec (cipher c) with
    | Some _ => Some (c, None)
    | None =>
        let iv := make aes.BlockSize in
        '(t, iv, _, err) ← io.ReadFull (conn c) iv;
        let c := mkEncConn t (cipher c) in
        match err with
        | Some e => Some (c, Some e)
        | None =>
            '(ci, err) ← Cipher_initDecrypt (cipher c) iv;
            Some (mkEncConn t ci, err)
        end
    end;
  match err with
  | Some e => Some (w, c, b, 0, Some e)
  | None =>
      let '(buf, bp) := BytePool_GetAtLeast (bytePool w) (length b) in
      encBytes ← slice_to buf (length b);
      '(t, encBytes, n, err) ← Read (conn c) encBytes;
      let buf := encBytes ++ drop (length b) buf in
      '(ci, b) ←
        (if 0 <? n
         then '(ci, d) ← Cipher_decrypt (cipher c) (take n b) (take n encBytes);
              Some (ci, d ++ drop n b)
         else Some (cipher c, b));
      (* defer bytePool.Put(buf) *)
      let w := mkWorld (BytePool_Put bp buf) (randReader w) in
      Some (w, mkEncConn t ci, b, n, err)
  end.

(** [c.Write(b)]: the world, the connection, [n] and [err]. *)
Definition Conn_Write (w : World) (c : Conn) (b : list byte)
  : option (World * Conn * nat * option error) :=
  (* var iv []byte; if c.cipher.enc == nil { iv, err = c.cipher.initEncrypt() } *)
  '(rnd, ci, iv, err) ←
    match enc (cipher c) with
    | Some _ => Some (randReader w, cipher c, [], None)
    | None => Cipher_initEncrypt (randReader w) (cipher c)
    end;
  let w := mkWorld (bytePool w) rnd in
  let c := mkEncConn (conn c) ci in
  match err with
  | Some e => Some (w, c, 0, Some e)
  | None =>
      let encLen := length iv + length b in
      let '(buf, bp) := BytePool_GetAtLeast (bytePool w) encLen in
      encBytes ← slice_to buf encLen;
      let encBytes := if 0 <? length iv then copy encBytes iv else encBytes in
      '(ci, tail) ← Cipher_encrypt (cipher c) (drop (length iv) encBytes) b;
      let encBytes := take (length iv) encBytes ++ tail in
      let buf := encBytes ++ drop encLen buf in
      let '(t, n, err) := net.Write (conn c) encBytes in
      (* defer bytePool.Put(buf) *)
      let w := mkWorld (BytePool_Put bp buf) (randReader w) in
      Some (w, mkEncConn t ci, n, err)
  end.

(** A [*Conn] is an [io.Reader]; its state includes the package-level
    variables that [Read] uses. *)
#[export] Instance Conn_Reader : Reader (World * Conn) :=
  fun wc b => '(w, c, b, n, err) ← Conn_Read wc.1 wc.2 b; Some ((w, c), b, n, err).

(* ===================================================================== *)
(** ** The SOCKS5 front end and the address decoder                       *)
(* ===================================================================== *)

Definition socksVer5 : byte := Byte.x05.
Definition cmdConnect : byte := Byte.x01.

Definition typeIPv4 : byte := Byte.x01.
Definition typeDomain : byte := Byte.x03.
Definition typeIPv6 : byte := Byte.x04.

(** [handsake(conn)]: the connection afterwards and the error. *)
Definition handsake (conn : net.Conn) : option (net.Conn * option error) :=
  let buf := make 258 in
  '(conn, buf, n, err) ← io.ReadAtLeast conn buf 2;
  match err with
  | Some e => Some (conn, Some e)
  | None =>
      if negb (Byte.eqb (at_ buf 0) socksVer5)
      then Some (conn, Some (ErrExpectVersion5 (at_ buf 0)))
      else
        let nmethods := int (at_ buf 1) in
        if negb (n =? nmethods + 2)
        then Some (conn, Some ErrParseHeader)
        else
          let '(conn, _, err) := net.Write conn [socksVer5; Byte.x00] in
          Some (conn, err)
  end.

(** [readRawAddr(conn)]: the connection afterwards, [addr] and [err]. *)
Definition readRawAddr (conn : net.Conn) : option (net.Conn * list byte * option error) :=
  let buf := make 262 in
  '(conn, buf, n, err) ← io.ReadAtLeast conn buf 5;
  match err with
  | Some e => Some (conn, [], Some e)
  | None =>
      if negb (Byte.eqb (at_ buf 0) socksVer5)
      then Some (conn, [], Some (ErrExpectVersion5 (at_ buf 0)))
      else if negb (Byte.eqb (at_ buf 1) cmdConnect)
      then Some (conn, [], Some ErrNotSupportedCommand)
      else
        let reqLen :=
          if Byte.eqb (at_ buf 3) typeIPv4 then Some (4 + net.IPv4len + 2)
          else if Byte.eqb (at_ buf 3) typeIPv6 then Some (4 + net.IPv6len + 2)
          else if Byte.eqb (at_ buf 3) typeDomain then Some (4 + 1 + 2 + int (at_ buf 4))
          else None in
        match reqLen with
        | None => Some (conn, [], Some ErrNotSupportedAddrType)
        | Some reqLen =>
            if negb (n =? reqLen)
            then Some (conn, [], Some ErrParseHeader)
            else Some (conn, drop 3 (take reqLen buf), None)
        end
  end.

(** [io.ReadFull(conn, buf[i:j])] for [i <= j <= len(buf)]: the new
    contents of the whole of [buf]. *)
Definition ReadFull_slice {T} `{Reader T} (r : T) (buf : list byte) (i j : nat)
  : option (T * list byte * option error) :=
  '(r, part, _, err) ← io.ReadFull r (drop i (take j buf));
  Some (r, take i buf ++ part ++ drop j buf, err).

(** [readTargetHost(conn)]: the state of the world and of the connection
    afterwards, [host] and [err]. *)
Definition readTargetHost (conn : World * Conn)
  : option (World * Conn * string * option error) :=
  let buf := make 269 in
  (* read ATYP from client *)
  '(conn, buf, err) ← ReadFull_slice conn buf 0 1;
  match err with
  | Some e => Some (conn, "", Some e)
  | None =>
      let addrType := at_ buf 0 in
      '(conn, buf, range, err) ←
        (if Byte.eqb addrType typeIPv4
         then Some (conn, buf, Some (1, 1 + net.IPv4len + 2), None)
         else if Byte.eqb addrType typeIPv6
         then Some (conn, buf, Some (1, 1 + net.IPv6len + 2), None)
         else if Byte.eqb addrType typeDomain
         then '(conn, buf, err) ← ReadFull_slice conn buf 1 2;
              match err with
              | Some e => Some (conn, buf, None, Some e)
              | None => Some (conn, buf, Some (2, 2 + int (at_ buf 1) + 2), None)
              end
         else Some (conn, buf, None, Some ErrNotSupportedAddrType));
      match range with
      | None => Some (conn, "", err)
      | Some (reqStart, reqEnd) =>
          '(conn, buf, err) ← ReadFull_slice conn buf reqStart reqEnd;
          match err with
          | Some e => Some (conn, "", Some e)
          | None =>
              let host :=
                if Byte.eqb addrType typeIPv4
                then net.IP_String (drop 1 (take (1 + net.IPv4len) buf))
                else if Byte.eqb addrType typeIPv6
                then net.IP_String (drop 1 (take (1 + net.IPv6len) buf))
                else if Byte.eqb addrType typeDomain
                then string_of_bytes (drop 2 (take (2 + int (at_ buf 1)) buf))
                else "" in
              let port := binary.BigEndian_Uint16 (drop (reqEnd - 2) (take reqEnd buf)) in
              let host := net.JoinHostPort host (strconv.Itoa port) in
              Some (conn, host, None)
          end
      end
  end.

(* ===================================================================== *)
(** ** Notions used to state the properties                               *)
(* ===================================================================== *)

(** A block cipher that encrypts every full block into a full block. *)
Definition Block_ok (blk : Block) : Prop :=
  0 < BlockSize blk /\
  forall dst src, length dst = BlockSize blk -> length src = BlockSize blk ->
    exists o, Encrypt blk dst src = Some o /\ length o = BlockSize blk.

(** The shape [newCFB] gives to a CFB stream and [XORKeyStream] keeps. *)
Definition cfb_ok (x : cfb) : Prop :=
  Block_ok (crypto_cipher.b x) /\
  length (crypto_cipher.next x) = BlockSize (crypto_cipher.b x) /\
  length (crypto_cipher.out x) = BlockSize (crypto_cipher.b x) /\
  crypto_cipher.outUsed x <= BlockSize (crypto_cipher.b x).

(** Every buffer waiting in the pool has the pool's buffer size. *)
Definition pool_ok (bp : BytePool) : Prop :=
  Forall (fun b => length b = bp_bufSize bp) (chan_queue (pool bp)).

(** The operations of the pool, to speak of all its histories. *)
Inductive pool_op :=
  | OpGet
  | OpGetAtLeast (size : nat)
  | OpPut (b : list byte).

Definition pool_step (bp : BytePool) (op : pool_op) : BytePool :=
  match op with
  | OpGet => (BytePool_Get bp).2
  | OpGetAtLeast size => (BytePool_GetAtLeast bp size).2
  | OpPut b => BytePool_Put bp b
  end.

Definition pool_run (bp : BytePool) (ops : list pool_op) : BytePool :=
  fold_left pool_step ops bp.

(** The bytes a connection will deliver before its first error. *)
Fixpoint inbound_bytes (evs : list net.read_event) : list byte :=
  match evs with
  | net.Data b bs None :: evs' => b :: bs ++ inbound_bytes evs'
  | _ => []
  end.

(** CFB mode one byte at a time: the key stream block is renewed when it
    is used up, the byte is combined with the next byte of key stream, and
    the cipher text byte is fed back. *)
Definition cfb_refill (x : cfb) : option cfb :=
  if crypto_cipher.outUsed x =? length (crypto_cipher.out x)
  then o ← Encrypt (crypto_cipher.b x) (crypto_cipher.out x) (crypto_cipher.next x);
       Some (crypto_cipher.mkCfb (crypto_cipher.b x) (crypto_cipher.next x) o 0
               (crypto_cipher.decrypt x))
  else Some x.

Definition cfb_step (x : cfb) (s : byte) : option (cfb * byte) :=
  x ← cfb_refill x;
  let u := crypto_cipher.outUsed x in
  let y := byte_xor s (at_ (crypto_cipher.out x) u) in
  Some (crypto_cipher.mkCfb (crypto_cipher.b x)
          (<[u := if crypto_cipher.decrypt x then s else y]> (crypto_cipher.next x))
          (crypto_cipher.out x) (S u) (crypto_cipher.decrypt x), y).

Fixpoint cfb_steps (x : cfb) (src : list byte) : option (cfb * list byte) :=
  match src with
  | [] => Some (x, [])
  | s :: rest =>
      '(x, y) ← cfb_step x s;
      '(x, ys) ← cfb_steps x rest;
      Some (x, y :: ys)
  end.

(** An encrypting and a decrypting stream at the same point of the same
    key stream. *)
Definition cfb_synced (e d : cfb) : Prop :=
  crypto_cipher.b e = crypto_cipher.b d /\
  crypto_cipher.next e = crypto_cipher.next d /\
  crypto_cipher.out e = crypto_cipher.out d /\
  crypto_cipher.outUsed e = crypto_cipher.outUsed d /\
  crypto_cipher.decrypt e = false /\ crypto_cipher.decrypt d = true.

(** The output of a CFB stream on [src]. *)
Definition stream_out (x : cfb) (src : list byte) : list byte :=
  match crypto_cipher.XORKeyStream x (make (length src)) src with
  | Some (_, o) => o
  | None => []
  end.

(** The plain text an encrypted connection has ahead of it: the decryption
    of the bytes to come, after the IV if that is still to be read. *)
Definition plaintext_ahead (c : Conn) : list byte :=
  let s := inbound_bytes (net.inbound (conn c)) in
  match dec (cipher c) with
  | Some d => stream_out d s
  | None =>
      match aes.NewCipher (key (cipher c)) with
      | inl blk =>
          match crypto_cipher.NewCFBDecrypter blk (take aes.BlockSize s) with
          | Some d => stream_out d (drop aes.BlockSize s)
          | None => []
          end
      | inr _ => []
      end
  end.

(** The state of an encrypted connection as the program can reach it: a key
    of a size AES accepts and well-shaped streams, over a sound pool. *)
Definition Cipher_ok (c : Cipher) : Prop :=
  aes.valid_key_size (length (key c)) = true /\
  (forall e, enc c = Some e -> cfb_ok e) /\
  (forall d, dec c = Some d -> cfb_ok d).

(** The second half of [Conn_Write], from [encLen := len(iv) + len(b)] on,
    as a function of the IV that the first half has or has not drawn. *)
Definition Conn_Write_send (w : World) (c : Conn) (iv b : list byte)
  : option (World * Conn * nat * option error) :=
  let encLen := length iv + length b in
  let '(buf, bp) := BytePool_GetAtLeast (bytePool w) encLen in
  encBytes ← slice_to buf encLen;
  let encBytes := if 0 <? length iv then copy encBytes iv else encBytes in
  '(ci, tail) ← Cipher_encrypt (cipher c) (drop (length iv) encBytes) b;
  let encBytes := take (length iv) encBytes ++ tail in
  let buf := encBytes ++ drop encLen buf in
  let '(t, n, err) := net.Write (conn c) encBytes in
  let w := mkWorld (BytePool_Put bp buf) (randReader w) in
  Some (w, mkEncConn t ci, n, err).

(** The state of the world and of a connection under which [Read] and
    [Write] are used. *)
Definition Conn_ok (wc : World * Conn) : Prop :=
  pool_ok (bytePool wc.1) /\ Cipher_ok (cipher wc.2).

(** Sample inputs. *)
Definition sample_rand : rand.Source :=
  rand.mkSource (fun i => byte_of_nat (7 * i + 3)) 5.

Definition sample_payload : list byte :=
  list_byte_of_string "GET / HTTP/1.1: a request longer than one block".

(** A client that sends its bytes in one piece. *)
Definition client_sends (d : list byte) : net.Conn :=
  match d with
  | [] => net.mkConn [] [] []
  | b :: bs => net.mkConn [net.Data b bs None] [] []
  end.

Definition bytes_of (l : list nat) : list byte := List.map byte_of_nat l.

(** Bytes written in hexadecimal, two lower-case digits each. *)
Definition bytes_of_hex (s : string) : list byte :=
  let v (a : ascii) : N :=
    let n := N_of_ascii a in (if n <? 58 then n - 48 else n - 87)%N in
  (fix go (l : list ascii) : list byte :=
     match l with
     | a :: b :: rest => byte_of_N (v a * 16 + v b) :: go rest
     | _ => []
     end) (list_ascii_of_string s).

Definition sample_world : World := mkWorld bytePool_init sample_rand.

(** The address record of example.com:443, as the local agent puts it on
    the wire in its first write, and a server connection on which those
    bytes arrive in three pieces. *)
Definition sample_record : list byte :=
  bytes_of [3; 11] ++ list_byte_of_string "example.com" ++ bytes_of [1; 187].

Definition sample_wire : list byte :=
  match Conn_Write sample_world
          (NewConn (client_sends []) (NewCipher "aes-256-cfb" "pw")) sample_record with
  | Some (_, c, _, _) => concat (net.writes (conn c))
  | None => []
  end.

Definition arrivals (pieces : list (list byte)) : list net.read_event :=
  omap (fun d => match d with
                 | [] => None
                 | b :: bs => Some (net.Data b bs None)
                 end) pieces.

Definition sample_server : Conn :=
  NewConn (net.mkConn (arrivals [take 10 sample_wire; take 10 (drop 10 sample_wire);
                                 drop 20 sample_wire]) [] [])
          (NewCipher "aes-256-cfb" "pw").

(* ===================================================================== *)
(** ** Further notions                                                    *)
(* ===================================================================== *)

(** [k] calls of [Get] in a row: the buffers handed out, in order, and the
    pool afterwards. *)
Fixpoint pool_gets (bp : BytePool) (k : nat) : list (list byte) * BytePool :=
  match k with
  | O => ([], bp)
  | S k' =>
      let '(b, bp1) := BytePool_Get bp in
      let '(bs, bp2) := pool_gets bp1 k' in
      (b :: bs, bp2)
  end.

(** [Put] of each buffer of a list, in order. *)
Definition pool_puts (bp : BytePool) (bs : list (list byte)) : BytePool :=
  fold_left BytePool_Put bs bp.

(** The calls a user makes on an encrypted connection, to speak of all
    their sequences. *)
Inductive conn_op :=
  | CallRead (b : list byte)
  | CallWrite (b : list byte).

Definition conn_step (wc : World * Conn) (op : conn_op) : option (World * Conn) :=
  match op with
  | CallRead b => '(w, c, _, _, _) ← Conn_Read wc.1 wc.2 b; Some (w, c)
  | CallWrite b => '(w, c, _, _) ← Conn_Write wc.1 wc.2 b; Some (w, c)
  end.

Fixpoint conn_run (wc : World * Conn) (ops : list conn_op) : option (World * Conn) :=
  match ops with
  | [] => Some wc
  | op :: ops' => wc' ← conn_step wc op; conn_run wc' ops'
  end.

(** An address record as [readRawAddr] hands it on and [readTargetHost]
    takes it: the type, the address (for a domain, after its length) and
    the two bytes of the port. *)
Definition raw_addr (addr : list byte) : Prop :=
  (exists ip port,
     addr = typeIPv4 :: ip ++ port /\ length ip = net.IPv4len /\ length port = 2) \/
  (exists ip port,
     addr = typeIPv6 :: ip ++ port /\ length ip = net.IPv6len /\ length port = 2) \/
  (exists l name port,
     addr = typeDomain :: l :: name ++ port /\ length name = int l /\ length port = 2).

(** The sending side of a tunnel to which the plain text [P] has been
    written: no stream yet and nothing sent, or the IV and the cipher text
    of [P] sent, and the stream where the encryption of [P] has left it. *)
Definition tunnel_sent (c : Conn) (wire P : list byte) : Prop :=
  match enc (cipher c) with
  | None => wire = [] /\ P = []
  | Some e =>
      exists blk iv e0 ct,
        aes.NewCipher (key (cipher c)) = inl blk /\ length iv = aes.BlockSize /\
        crypto_cipher.NewCFBEncrypter blk iv = Some e0 /\
        cfb_steps e0 P = Some (e, ct) /\ wire = iv ++ ct
  end.

(*EXTRA-DEFS*)
(* ===================================================================== *)
(** ** Bytes and slices                                                   *)
(* ===================================================================== *)

Lemma xorb_cancel (a k : bool) : xorb (xorb a k) k = a.
Proof. destruct a, k; reflexivity. Qed.

Lemma byte_xor_involutive (a k : byte) : byte_xor (byte_xor a k) k = a.
Proof.
  unfold byte_xor.
  rewrite <- (Byte.of_bits_to_bits a) at 2.
  destruct (Byte.to_bits a) as (a0 & a1 & a2 & a3 & a4 & a5 & a6 & a7).
  destruct (Byte.to_bits k) as (k0 & k1 & k2 & k3 & k4 & k5 & k6 & k7) eqn:Hk.
  rewrite Byte.to_bits_of_bits.
  by rewrite !xorb_cancel.
Qed.

Lemma length_make n : length (make n) = n.
Proof. apply length_replicate. Qed.

Lemma length_copy (dst src : list byte) : length (copy dst src) = length dst.
Proof. unfold copy. rewrite length_app, length_take, length_drop. lia. Qed.

Lemma copy_exact (dst src : list byte) : length src = length dst -> copy dst src = src.
Proof.
  intros H. unfold copy. rewrite H, firstn_all2 by lia.
  rewrite <- H, drop_ge by lia. apply app_nil_r.
Qed.

Lemma copy_short (dst src : list byte) :
  length src <= length dst -> copy dst src = src ++ drop (length src) dst.
Proof. intros H. unfold copy. by rewrite take_ge by lia. Qed.

(* ===================================================================== *)
(** ** The buffer pool                                                    *)
(* ===================================================================== *)

Lemma NewBytePool_ok size cap : pool_ok (NewBytePool size cap).
Proof. constructor. Qed.

Lemma BytePool_Get_spec bp :
  pool_ok bp ->
  length (BytePool_Get bp).1 = bp_bufSize bp /\
  pool_ok (BytePool_Get bp).2 /\
  bp_bufSize (BytePool_Get bp).2 = bp_bufSize bp.
Proof.
  unfold pool_ok, BytePool_Get, chan_try_recv. intros Hok.
  destruct (chan_queue (pool bp)) as [|v q] eqn:Hq; simpl.
  - rewrite length_make, Hq. auto.
  - inversion Hok; subst. auto.
Qed.

Lemma BytePool_GetAtLeast_spec bp size :
  pool_ok bp ->
  size <= length (BytePool_GetAtLeast bp size).1 /\
  pool_ok (BytePool_GetAtLeast bp size).2 /\
  bp_bufSize (BytePool_GetAtLeast bp size).2 = bp_bufSize bp.
Proof.
  intros Hok. unfold BytePool_GetAtLeast.
  destruct (bp_bufSize bp <? size) eqn:Hlt; simpl.
  - rewrite length_make. auto.
  - apply Nat.ltb_ge in Hlt.
    destruct (BytePool_Get_spec bp Hok) as (Hlen & Hok' & Hsz).
    rewrite Hlen. auto.
Qed.

Lemma BytePool_Put_spec bp b :
  pool_ok bp ->
  pool_ok (BytePool_Put bp b) /\ bp_bufSize (BytePool_Put bp b) = bp_bufSize bp.
Proof.
  unfold pool_ok, BytePool_Put, chan_try_send. intros Hok.
  destruct (length b =? bp_bufSize bp) eqn:Hlen; simpl; [|auto].
  apply Nat.eqb_eq in Hlen.
  destruct (length (chan_queue (pool bp)) <? chan_cap (pool bp)); simpl; [|auto].
  split; [|reflexivity]. apply Forall_app. split; [assumption|]. by constructor.
Qed.

Lemma pool_step_ok bp op :
  pool_ok bp -> pool_ok (pool_step bp op) /\ bp_bufSize (pool_step bp op) = bp_bufSize bp.
Proof.
  intros Hok. destruct op as [|size|b]; simpl.
  - apply BytePool_Get_spec, Hok.
  - apply BytePool_GetAtLeast_spec, Hok.
  - apply BytePool_Put_spec, Hok.
Qed.

Lemma pool_run_ok ops : forall bp,
  pool_ok bp -> pool_ok (pool_run bp ops) /\ bp_bufSize (pool_run bp ops) = bp_bufSize bp.
Proof.
  induction ops as [|op ops IH]; intros bp Hok; simpl; [auto|].
  destruct (pool_step_ok bp op Hok) as [Hok' Hsz].
  destruct (IH _ Hok') as [Hok'' Hsz'']. split; [assumption|congruence].
Qed.

(** C9.  [Put] of a buffer whose length is not the pool's buffer size
    leaves the pool as it was.  [Get] on an empty pool, where a plain
    channel receive would block, returns at once a new buffer of exactly
    the buffer size and leaves the pool empty.  Hence, whatever sequence of
    [Get], [GetAtLeast] and [Put] the process-wide pool has gone through,
    every buffer stored in it is exactly [bufSize] = 4096 bytes long. *)
Theorem BytePool_discipline :
  (forall bp b, length b <> bp_bufSize bp -> BytePool_Put bp b = bp) /\
  (forall bp, chan_queue (pool bp) = [] ->
     chan_try_recv (pool bp) = None /\
     BytePool_Get bp = (make (bp_bufSize bp), bp) /\
     length (BytePool_Get bp).1 = bp_bufSize bp) /\
  (forall ops b,
     b ∈ chan_queue (pool (pool_run bytePool_init ops)) ->
     length b = bufSize /\ bufSize = 4096).
Proof.
  split; [|split].
  - intros bp b Hne. unfold BytePool_Put.
    destruct (length b =? bp_bufSize bp) eqn:E; [|reflexivity].
    apply Nat.eqb_eq in E. contradiction.
  - intros bp Hempty. unfold BytePool_Get, chan_try_recv. rewrite Hempty. simpl.
    rewrite length_make. auto.
  - intros ops b Hin.
    destruct (pool_run_ok ops bytePool_init (NewBytePool_ok _ _)) as [Hok Hsz].
    unfold pool_ok in Hok. rewrite Forall_forall in Hok.
    split; [|reflexivity]. rewrite (Hok b Hin), Hsz. reflexivity.
Qed.

(** The pool after a wrong-sized [Put], an empty [Get], and a history that
    stores one buffer. *)
Lemma BytePool_discipline_witness :
  BytePool_Put bytePool_init (make 10) = bytePool_init /\
  BytePool_Get bytePool_init = (make bufSize, bytePool_init) /\
  length (make bufSize) = bufSize.
Proof.
  destruct BytePool_discipline as (Hput & Hget & Hinv).
  split; [|split].
  - apply Hput. rewrite length_make. vm_compute. lia.
  - apply (Hget bytePool_init). reflexivity.
  - apply (Hinv [OpGetAtLeast 5; OpPut (make bufSize)]).
    vm_compute. left.
Defined.

(* ===================================================================== *)
(** ** Key derivation                                                     *)
(* ===================================================================== *)

Lemma length_bytes_of_be width x : length (sha256.bytes_of_be width x) = width.
Proof. unfold sha256.bytes_of_be. by rewrite length_map, length_rev, length_seq. Qed.

Lemma Sum256_length data : length (sha256.Sum256 data) = sha256.Size.
Proof.
  unfold sha256.Sum256. cbv zeta.
  rewrite !length_app, !length_bytes_of_be. reflexivity.
Qed.

Lemma keyLenMap_other method :
  method <> "aes-128-cfb" -> method <> "aes-192-cfb" -> method <> "aes-256-cfb" ->
  keyLenMap !! method = None.
Proof.
  intros H1 H2 H3. unfold keyLenMap.
  rewrite !lookup_insert_ne by congruence. apply lookup_singleton_ne. congruence.
Qed.

Lemma toKey_length_known method password l :
  keyLenMap !! method = Some l -> l <= sha256.Size ->
  length (toKey method password) = l.
Proof.
  intros Hl Hle. unfold toKey. rewrite Hl, length_take, Sum256_length. lia.
Qed.

Lemma toKey_length_other method password :
  keyLenMap !! method = None -> length (toKey method password) = 32.
Proof.
  intros Hl. unfold toKey. rewrite Hl, length_take, Sum256_length. reflexivity.
Qed.

(** C5.  [toKey] (the spec's DeriveKey) is a function of the algorithm name
    and the password; its result is 16, 24 and 32 bytes long for
    aes-128-cfb, aes-192-cfb and aes-256-cfb, and 32 bytes long for every
    other algorithm name. *)
Theorem toKey_deterministic_length (method password : string) :
  (forall method' password',
     method' = method -> password' = password ->
     toKey method' password' = toKey method password) /\
  length (toKey "aes-128-cfb" password) = 16 /\
  length (toKey "aes-192-cfb" password) = 24 /\
  length (toKey "aes-256-cfb" password) = 32 /\
  (method <> "aes-128-cfb" -> method <> "aes-192-cfb" -> method <> "aes-256-cfb" ->
   length (toKey method password) = 32).
Proof.
  split; [by intros ? ? -> ->|].
  split_and!.
  - apply toKey_length_known; [reflexivity|unfold sha256.Size; lia].
  - apply toKey_length_known; [reflexivity|unfold sha256.Size; lia].
  - apply toKey_length_known; [reflexivity|unfold sha256.Size; lia].
  - intros H1 H2 H3. apply toKey_length_other, keyLenMap_other; assumption.
Qed.

Lemma toKey_deterministic_length_witness :
  length (toKey "rc4-md5" "pw") = 32 /\
  toKey "aes-128-cfb" "pw" = take 16 (sha256.Sum256 (list_byte_of_string "pw")).
Proof.
  destruct (toKey_deterministic_length "rc4-md5" "pw") as (Hdet & _ & _ & _ & Hother).
  split.
  - apply Hother; discriminate.
  - reflexivity.
Defined.

Lemma toKey_valid_key_size method password :
  aes.valid_key_size (length (toKey method password)) = true.
Proof.
  destruct (decide (method = "aes-128-cfb")) as [->|N1];
    [rewrite (toKey_length_known _ _ 16); [done|reflexivity|unfold sha256.Size; lia]|].
  destruct (decide (method = "aes-192-cfb")) as [->|N2];
    [rewrite (toKey_length_known _ _ 24); [done|reflexivity|unfold sha256.Size; lia]|].
  destruct (decide (method = "aes-256-cfb")) as [->|N3];
    [rewrite (toKey_length_known _ _ 32); [done|reflexivity|unfold sha256.Size; lia]|].
  by rewrite toKey_length_other by (by apply keyLenMap_other).
Qed.

(* ===================================================================== *)
(** ** AES as a block cipher                                              *)
(* ===================================================================== *)

Lemma length_encryptBlock w src : length (aes.encryptBlock w src) = aes.BlockSize.
Proof. unfold aes.encryptBlock. cbv zeta. by rewrite length_map, length_seq. Qed.

Lemma aes_NewCipher_valid k :
  aes.valid_key_size (length k) = true ->
  exists blk, aes.NewCipher k = inl blk /\ BlockSize blk = aes.BlockSize /\ Block_ok blk.
Proof.
  intros Hk. unfold aes.NewCipher. rewrite Hk. eexists. split; [reflexivity|].
  split; [reflexivity|]. split; [unfold aes.BlockSize; simpl; lia|].
  simpl. intros dst src Hd Hs. unfold aes.Encrypt.
  rewrite Hs, Hd, Nat.ltb_irrefl. eexists. split; [reflexivity|].
  rewrite length_app, length_encryptBlock, length_drop. lia.
Qed.

Lemma aes_NewCipher_invalid k :
  aes.valid_key_size (length k) = false ->
  aes.NewCipher k = inr (KeySizeError (length k)).
Proof. intros Hk. unfold aes.NewCipher. by rewrite Hk. Qed.

(* ===================================================================== *)
(** ** CFB mode: the loop of XORKeyStream, byte by byte                   *)
(* ===================================================================== *)

Section cfb_stream.
Import crypto_cipher.

Lemma xorBytes_length (a k : list byte) :
  length (xorBytes a k) = Nat.min (length a) (length k).
Proof. apply length_zip_with. Qed.

Lemma xorBytes_involutive (a k : list byte) :
  length a <= length k -> xorBytes (xorBytes a k) k = a.
Proof.
  unfold xorBytes. revert k. induction a as [|x a IH]; intros [|y k] H; simpl in *; try done.
  - lia.
  - rewrite byte_xor_involutive, IH by lia. done.
Qed.

Lemma drop_at (l : list byte) (u : nat) :
  u < length l -> drop u l = at_ l u :: drop (S u) l.
Proof.
  revert u. induction l as [|x l IH]; intros [|u] H; simpl in *; try lia; try done.
  apply IH. lia.
Qed.

(** A stretch of input that fits in what is left of the key stream block
    is handled without renewal. *)
Lemma cfb_steps_chunk (a : list byte) : forall x,
  length (next x) = length (out x) ->
  outUsed x + length a <= length (out x) ->
  let d := xorBytes a (drop (outUsed x) (out x)) in
  cfb_steps x a =
    Some (mkCfb (b x)
            (take (outUsed x) (next x) ++ (if decrypt x then a else d)
               ++ drop (outUsed x + length a) (next x))
            (out x) (outUsed x + length a) (decrypt x), d).
Proof.
  induction a as [|s a IH]; intros x Hlen Hfit; simpl in *.
  - rewrite Nat.add_0_r. replace (if decrypt x then [] else []) with (@nil byte) by (by destruct (decrypt x)).
    simpl. rewrite take_drop. by destruct x.
  - unfold cfb_step, cfb_refill.
    destruct (Nat.eqb_spec (outUsed x) (length (out x))) as [E|_]; [lia|].
    simpl. rewrite IH.
    2: { simpl; rewrite ?length_insert; lia. }
    2: { simpl; lia. }
    simpl.
    rewrite (drop_at (out x) (outUsed x)) by lia. simpl.
    f_equal. f_equal. f_equal; [|lia].
    rewrite drop_insert_lt by lia.
    rewrite (take_S_r _ _ (if decrypt x then s else byte_xor s (at_ (out x) (outUsed x)))).
    2: { apply list_lookup_insert_eq. lia. }
    rewrite take_insert_ge by lia.
    rewrite <- app_assoc. simpl.
    replace (S (outUsed x + length a)) with (outUsed x + S (length a)) by lia.
    destruct (decrypt x); reflexivity.
Qed.

Lemma xorBytes_take_length (a k : list byte) :
  xorBytes (take (length (xorBytes a k)) a) k = xorBytes a k.
Proof.
  unfold xorBytes. revert k. induction a as [|x a IH]; intros [|y k]; simpl; try done.
  by rewrite IH.
Qed.

Lemma copy_min (D S : list byte) :
  let n := Nat.min (length S) (length D) in
  copy D S = take n S ++ drop n D.
Proof.
  unfold copy. cbv zeta.
  destruct (Nat.le_gt_cases (length S) (length D)) as [H|H].
  - rewrite Nat.min_l by lia. by rewrite !take_ge by lia.
  - rewrite Nat.min_r by lia. by rewrite !drop_ge by lia.
Qed.

Lemma cfb_steps_app (a c : list byte) : forall x,
  cfb_steps x (a ++ c) =
    '(x1, o1) ← cfb_steps x a; '(x2, o2) ← cfb_steps x1 c; Some (x2, o1 ++ o2).
Proof.
  induction a as [|s a IH]; intros x; simpl.
  - destruct (cfb_steps x c) as [[x2 o2]|]; reflexivity.
  - destruct (cfb_step x s) as [[x1 y]|]; simpl; [|reflexivity].
    rewrite IH. destruct (cfb_steps x1 a) as [[x2 o1]|]; simpl; [|reflexivity].
    destruct (cfb_steps x2 c) as [[x3 o2]|]; reflexivity.
Qed.

Lemma cfb_refill_ok x :
  cfb_ok x ->
  exists x1, cfb_refill x = Some x1 /\ cfb_ok x1 /\ cfb_refill x1 = Some x1 /\
    outUsed x1 < length (out x1) /\
    b x1 = b x /\ next x1 = next x /\ decrypt x1 = decrypt x /\
    (outUsed x < length (out x) -> x1 = x).
Proof.
  intros (Hb & Hn & Ho & Hu). unfold cfb_refill.
  destruct (Nat.eqb_spec (outUsed x) (length (out x))) as [E|E].
  - destruct Hb as [Hpos Henc]. destruct (Henc (out x) (next x) Ho Hn) as (o & -> & Hlen).
    simpl. eexists. split; [reflexivity|]. unfold cfb_ok; simpl.
    rewrite Hlen.
    split; [|split; [|split; [lia|split; [reflexivity|split; [reflexivity|split; [reflexivity|intros; lia]]]]]].
    + split; [exact (conj Hpos Henc)|]. simpl. repeat split; lia.
    + destruct (BlockSize (b x)); [lia|reflexivity].
  - exists x. destruct (Nat.eqb_spec (outUsed x) (length (out x))); [done|].
    split; [reflexivity|]. split; [exact (conj Hb (conj Hn (conj Ho Hu)))|].
    split; [reflexivity|]. split; [lia|]. auto.
Qed.

Lemma cfb_steps_refill x x1 (src : list byte) :
  src <> [] -> cfb_refill x = Some x1 -> cfb_refill x1 = Some x1 ->
  cfb_steps x src = cfb_steps x1 src.
Proof.
  destruct src as [|s rest]; [done|]. intros _ H H1. simpl.
  unfold cfb_step. rewrite H, H1. reflexivity.
Qed.

Lemma XORKeyStream_loop_unfold fuel x (dst src : list byte) :
  src <> [] ->
  XORKeyStream_loop (S fuel) x dst src =
    x ← cfb_refill x;
    let x := if decrypt x
             then mkCfb (b x)
                    (take (outUsed x) (next x) ++ copy (drop (outUsed x) (next x)) src)
                    (out x) (outUsed x) (decrypt x)
             else x in
    let d := xorBytes src (drop (outUsed x) (out x)) in
    let n := length d in
    if length dst <? n then None else
    let dst := d ++ drop n dst in
    let x := if decrypt x then x
             else mkCfb (b x)
                    (take (outUsed x) (next x) ++ copy (drop (outUsed x) (next x)) dst)
                    (out x) (outUsed x) (decrypt x) in
    '(x', rest) ← XORKeyStream_loop fuel
                    (mkCfb (b x) (next x) (out x) (outUsed x + n) (decrypt x))
                    (drop n dst) (drop n src);
    Some (x', take n dst ++ rest).
Proof. destruct src; [done|reflexivity]. Qed.

(** The loop of [XORKeyStream] computes what the byte-wise description
    says, for a destination as long as the source. *)
Lemma XORKeyStream_loop_steps fuel : forall x (dst src : list byte),
  cfb_ok x -> length dst = length src -> length src <= fuel ->
  XORKeyStream_loop fuel x dst src = cfb_steps x src.
Proof.
  induction fuel as [|fuel IH]; intros x dst src Hok Hlen Hfuel.
  - destruct src; simpl in *; [|lia]. by destruct dst.
  - destruct (decide (src = [])) as [->|Hne]; [by destruct dst|].
    assert (Hpos : 0 < length src) by (destruct src; simpl; [done|lia]).
    destruct (cfb_refill_ok x Hok) as (x1 & Hr & Hok1 & Hr1 & Hu1 & Hb1 & Hn1 & Hd1 & _).
    destruct Hok1 as (Hblk & Hnext & Hout & Hused).
    set (u := outUsed x1) in *.
    set (d := xorBytes src (drop u (out x1))).
    assert (Hd : length d = Nat.min (length src) (length (out x1) - u)).
    { unfold d. rewrite xorBytes_length, length_drop. reflexivity. }
    set (n := length d) in *.
    assert (Hn : 1 <= n /\ n <= length src /\ u + n <= length (out x1)) by lia.
    set (xc := mkCfb (b x1)
                (take u (next x1) ++ (if decrypt x1 then take n src else d)
                   ++ drop (u + n) (next x1))
                (out x1) (u + n) (decrypt x1)).
    assert (Hchunk : cfb_steps x1 (take n src) = Some (xc, d)).
    { rewrite cfb_steps_chunk; rewrite ?length_take; fold u; [|lia|lia].
      cbv zeta. rewrite Nat.min_l by lia. fold u.
      replace (xorBytes (take n src) (drop u (out x1))) with d; [reflexivity|].
      unfold n, d. by rewrite xorBytes_take_length. }
    assert (Hrhs : cfb_steps x src =
                   '(x2, o2) ← cfb_steps xc (drop n src); Some (x2, d ++ o2)).
    { rewrite (cfb_steps_refill x x1 src Hne Hr Hr1).
      rewrite <- (take_drop n src) at 1. by rewrite cfb_steps_app, Hchunk. }
    rewrite Hrhs. clear Hrhs Hchunk.
    rewrite XORKeyStream_loop_unfold by done. rewrite Hr. cbn [mbind option_bind].
    assert (Hnext' : forall S : list byte, length S = length src ->
       take u (next x1) ++ copy (drop u (next x1)) S =
       take u (next x1) ++ take n S ++ drop (u + n) (next x1)).
    { intros S HS. f_equal. rewrite copy_min. cbv zeta.
      rewrite length_drop, HS, Hnext, <- Hout, <- Hd. fold n.
      by rewrite drop_drop. }
    cbv zeta. fold u.
    set (x2 := if decrypt x1 then _ else x1).
    assert (Hx2 : outUsed x2 = u /\ out x2 = out x1 /\ b x2 = b x1 /\
                  decrypt x2 = decrypt x1 /\
                  next x2 = if decrypt x1
                            then take u (next x1) ++ take n src ++ drop (u + n) (next x1)
                            else next x1).
    { unfold x2. destruct (decrypt x1) eqn:E; simpl; rewrite ?E, ?Hnext'; auto. }
    destruct Hx2 as (Hx2u & Hx2o & Hx2b & Hx2d & Hx2n).
    rewrite Hx2u, Hx2o. fold d. fold n.
    destruct (Nat.ltb_spec (length dst) n) as [Hc|_]; [lia|].
    rewrite (drop_app_length' d _ n), (take_app_length' d _ n) by reflexivity.
    set (x3 := if decrypt x2 then x2 else _).
    assert (Hx3 : mkCfb (b x3) (next x3) (out x3) (outUsed x3 + n) (decrypt x3) = xc).
    { unfold x3, xc. rewrite Hx2d. destruct (decrypt x1) eqn:E; simpl.
      - by rewrite Hnext'.
      - unfold x2. fold u. rewrite Hnext'.
        + by rewrite (take_app_length' d _ n).
        + rewrite length_app, length_drop. fold n. lia. }
    rewrite Hx3, IH.
    + destruct (cfb_steps xc (drop n src)) as [[x' ys]|]; reflexivity.
    + unfold cfb_ok, xc; simpl. split; [apply Hblk|]. split; [|split; [lia|lia]].
      rewrite !length_app, length_take, length_drop.
      assert (length (if decrypt x1 then take n src else d) = n).
      { destruct (decrypt x1); [rewrite length_take|]; lia. }
      lia.
    + rewrite !length_drop. lia.
    + rewrite length_drop. lia.
Qed.

Lemma XORKeyStream_steps x (dst src : list byte) :
  cfb_ok x -> length dst = length src ->
  XORKeyStream x dst src = cfb_steps x src.
Proof.
  intros Hok Hlen. unfold XORKeyStream.
  rewrite Hlen, Nat.ltb_irrefl. by apply XORKeyStream_loop_steps.
Qed.

Lemma cfb_step_ok x s :
  cfb_ok x ->
  exists x' y, cfb_step x s = Some (x', y) /\ cfb_ok x' /\
               b x' = b x /\ decrypt x' = decrypt x.
Proof.
  intros Hok. unfold cfb_step.
  destruct (cfb_refill_ok x Hok) as (x1 & -> & Hok1 & _ & Hu1 & Hb1 & _ & Hd1 & _).
  simpl. do 2 eexists. split; [reflexivity|].
  destruct Hok1 as (Hblk & Hn & Ho & Hu).
  split; [|auto]. unfold cfb_ok; simpl. rewrite length_insert.
  split; [done|]. split; [done|]. split; [done|lia].
Qed.

Lemma cfb_steps_ok (src : list byte) : forall x,
  cfb_ok x ->
  exists x' o, cfb_steps x src = Some (x', o) /\ cfb_ok x' /\
               length o = length src /\ b x' = b x /\ decrypt x' = decrypt x.
Proof.
  induction src as [|s src IH]; intros x Hok; simpl.
  - by exists x, [].
  - destruct (cfb_step_ok x s Hok) as (x1 & y & -> & Hok1 & Hb1 & Hd1). simpl.
    destruct (IH x1 Hok1) as (x2 & o & -> & Hok2 & Hlen & Hb2 & Hd2). simpl.
    exists x2, (y :: o). split; [done|]. split; [done|].
    split; [simpl; lia|]. split; congruence.
Qed.

(** Decrypting what has just been encrypted gives the plain text back,
    and keeps the two streams in step. *)
Lemma cfb_step_roundtrip e d p e' c :
  cfb_synced e d ->
  cfb_step e p = Some (e', c) ->
  exists d', cfb_step d c = Some (d', p) /\ cfb_synced e' d'.
Proof.
  intros (Hb & Hn & Ho & Hu & He & Hd). unfold cfb_step, cfb_refill.
  rewrite <- Hb, <- Hn, <- Ho, <- Hu, Hd.
  destruct (outUsed e =? length (out e)).
  - destruct (Encrypt (b e) (out e) (next e)) as [o|]; simpl; [|done].
    rewrite He. intros [= <- <-]. eexists. split.
    + by rewrite byte_xor_involutive.
    + by repeat split.
  - simpl. rewrite <- Hb, <- Hn, <- Ho, <- Hu, Hd, He.
    intros [= <- <-]. eexists. split.
    + by rewrite byte_xor_involutive.
    + by repeat split.
Qed.

Lemma cfb_steps_roundtrip (P : list byte) : forall e d e' C,
  cfb_synced e d ->
  cfb_steps e P = Some (e', C) ->
  exists d', cfb_steps d C = Some (d', P) /\ cfb_synced e' d'.
Proof.
  induction P as [|p P IH]; intros e d e' C Hs; simpl.
  - intros [= <- <-]. by exists d.
  - destruct (cfb_step e p) as [[e1 c]|] eqn:He1; simpl; [|done].
    destruct (cfb_steps e1 P) as [[e2 C']|] eqn:He2; simpl; [|done].
    intros [= <- <-].
    destruct (cfb_step_roundtrip e d p e1 c Hs He1) as (d1 & Hd1 & Hs1).
    destruct (IH e1 d1 e2 C' Hs1 He2) as (d2 & Hd2 & Hs2).
    exists d2. simpl. by rewrite Hd1; simpl; rewrite Hd2.
Qed.

Lemma newCFB_ok blk (iv : list byte) (dd : bool) :
  Block_ok blk -> length iv = BlockSize blk ->
  exists x, newCFB blk iv dd = Some x /\ cfb_ok x /\
    b x = blk /\ next x = iv /\ out x = make (BlockSize blk) /\
    outUsed x = BlockSize blk /\ decrypt x = dd.
Proof.
  intros Hblk Hiv. unfold newCFB. rewrite Hiv, Nat.eqb_refl. simpl.
  eexists. split; [reflexivity|].
  rewrite copy_exact by (by rewrite length_make).
  unfold cfb_ok; simpl. rewrite length_make. repeat split; auto; apply Hblk.
Qed.

Lemma newCFB_bad_iv blk (iv : list byte) (dd : bool) :
  length iv <> BlockSize blk -> newCFB blk iv dd = None.
Proof.
  intros Hiv. unfold newCFB.
  by destruct (Nat.eqb_spec (length iv) (BlockSize blk)).
Qed.

(** The output of a stream, piecewise. *)
Lemma stream_out_steps x (src : list byte) x' o :
  cfb_ok x -> cfb_steps x src = Some (x', o) -> stream_out x src = o.
Proof.
  intros Hok H. unfold stream_out.
  rewrite XORKeyStream_steps, H; [done|done|by rewrite length_make].
Qed.

Lemma stream_out_length x (src : list byte) :
  cfb_ok x -> length (stream_out x src) = length src.
Proof.
  intros Hok. destruct (cfb_steps_ok src x Hok) as (x' & o & H & _ & Hlen & _).
  by rewrite (stream_out_steps x src x' o Hok H).
Qed.

Lemma stream_out_app x (a c : list byte) x1 o1 :
  cfb_ok x -> cfb_steps x a = Some (x1, o1) ->
  stream_out x (a ++ c) = o1 ++ stream_out x1 c.
Proof.
  intros Hok Ha.
  destruct (cfb_steps_ok a x Hok) as (x1' & o1' & Ha' & Hok1 & _).
  rewrite Ha in Ha'. injection Ha' as <- <-.
  destruct (cfb_steps_ok c x1 Hok1) as (x2 & o2 & Hc & _).
  rewrite (stream_out_steps x1 c x2 o2 Hok1 Hc).
  apply (stream_out_steps x (a ++ c) x2); [done|].
  by rewrite cfb_steps_app, Ha; simpl; rewrite Hc.
Qed.
End cfb_stream.

(* ===================================================================== *)
(** ** The cipher of a connection                                         *)
(* ===================================================================== *)

Lemma ReadAtLeast_loop_done {T} `{Reader T} fuel (r : T) (buf : list byte) (min n : nat) :
  min <= n -> io.ReadAtLeast_loop fuel r buf min n = Some (r, buf, n, None).
Proof.
  intros Hn. destruct fuel; simpl; by destruct (Nat.ltb_spec n min); [lia|].
Qed.

Lemma ReadFull_rand (rnd : rand.Source) (k : nat) :
  io.ReadFull rnd (make (S k)) =
    Some (rand.mkSource (rand.tape rnd) (rand.pos rnd + S k),
          List.map (rand.tape rnd) (seq (rand.pos rnd) (S k)), S k, None).
Proof.
  unfold io.ReadFull, io.ReadAtLeast. rewrite length_make, Nat.ltb_irrefl.
  cbn [io.ReadAtLeast_loop]. change (0 <? S k) with true. cbn iota.
  unfold Read, rand_Reader, rand.Read. cbn [mbind option_bind].
  rewrite drop_0, length_make. cbn [take app Nat.add].
  rewrite ReadAtLeast_loop_done by lia. cbn [mbind option_bind].
  by rewrite Nat.leb_refl.
Qed.

Lemma Cipher_initEncrypt_spec (rnd : rand.Source) (c : Cipher) :
  aes.valid_key_size (length (key c)) = true ->
  let iv := List.map (rand.tape rnd) (seq (rand.pos rnd) aes.BlockSize) in
  exists blk e,
    aes.NewCipher (key c) = inl blk /\
    crypto_cipher.NewCFBEncrypter blk iv = Some e /\ cfb_ok e /\
    crypto_cipher.b e = blk /\ crypto_cipher.next e = iv /\
    crypto_cipher.outUsed e = aes.BlockSize /\
    crypto_cipher.out e = make aes.BlockSize /\
    crypto_cipher.decrypt e = false /\
    Cipher_initEncrypt rnd c =
      Some (rand.mkSource (rand.tape rnd) (rand.pos rnd + aes.BlockSize),
            mkCipher (Some e) (dec c) (key c), iv, None).
Proof.
  intros Hk iv.
  destruct (aes_NewCipher_valid (key c) Hk) as (blk & Hblk & Hbs & Hok).
  assert (Hiv : length iv = BlockSize blk).
  { unfold iv. by rewrite length_map, length_seq, Hbs. }
  destruct (newCFB_ok blk iv false Hok Hiv) as (e & He & Heok & Hb & Hn & Ho & Hu & Hd).
  exists blk, e. unfold crypto_cipher.NewCFBEncrypter.
  rewrite Hbs in Ho, Hu.
  split_and!; auto.
  unfold Cipher_initEncrypt. rewrite Hblk.
  change (make aes.BlockSize) with (make (S 15)). rewrite ReadFull_rand.
  cbn [mbind option_bind]. change 16 with aes.BlockSize. fold iv.
  unfold crypto_cipher.NewCFBEncrypter. rewrite He. reflexivity.
Qed.

Lemma Cipher_initDecrypt_spec (c : Cipher) (iv : list byte) :
  aes.valid_key_size (length (key c)) = true ->
  length iv = aes.BlockSize ->
  exists blk d,
    aes.NewCipher (key c) = inl blk /\
    crypto_cipher.NewCFBDecrypter blk iv = Some d /\ cfb_ok d /\
    crypto_cipher.b d = blk /\ crypto_cipher.next d = iv /\
    crypto_cipher.outUsed d = aes.BlockSize /\
    crypto_cipher.out d = make aes.BlockSize /\
    crypto_cipher.decrypt d = true /\
    Cipher_initDecrypt c iv = Some (mkCipher (enc c) (Some d) (key c), None).
Proof.
  intros Hk Hiv.
  destruct (aes_NewCipher_valid (key c) Hk) as (blk & Hblk & Hbs & Hok).
  rewrite <- Hbs in Hiv.
  destruct (newCFB_ok blk iv true Hok Hiv) as (d & Hd & Hdok & Hb & Hn & Ho & Hu & Hdd).
  exists blk, d. unfold crypto_cipher.NewCFBDecrypter.
  rewrite Hbs in Ho, Hu.
  split_and!; auto.
  unfold Cipher_initDecrypt. rewrite Hblk. rewrite Hiv, Hbs, Nat.eqb_refl. simpl.
  unfold crypto_cipher.NewCFBDecrypter. by rewrite Hd.
Qed.

(** C6.  For a cipher whose key is a derived key, [initDecrypt] (the
    spec's BeginDecrypt) fails with the invalid-IV-length error, and leaves
    the cipher as it was, whenever the IV is not 16 bytes long (0, 1, 15, 17
    and 32 bytes among the others); on a 16-byte IV it succeeds and sets the
    decrypt stream to the CFB decrypter of the AES block of the key,
    started at that IV. *)
Theorem Cipher_initDecrypt_iv_length (method password : string) (c : Cipher) (iv : list byte) :
  key c = toKey method password ->
  aes.BlockSize = 16 /\
  (length iv <> aes.BlockSize ->
     Cipher_initDecrypt c iv = Some (c, Some (ErrInvalidIVLength (length iv)))) /\
  (length iv = aes.BlockSize ->
     exists blk d,
       aes.NewCipher (key c) = inl blk /\
       crypto_cipher.NewCFBDecrypter blk iv = Some d /\
       crypto_cipher.b d = blk /\ crypto_cipher.next d = iv /\
       crypto_cipher.outUsed d = aes.BlockSize /\
       crypto_cipher.decrypt d = true /\
       Cipher_initDecrypt c iv = Some (mkCipher (enc c) (Some d) (key c), None)).
Proof.
  intros Hkey.
  assert (Hk : aes.valid_key_size (length (key c)) = true).
  { rewrite Hkey. apply toKey_valid_key_size. }
  split; [reflexivity|]. split.
  - intros Hiv. unfold Cipher_initDecrypt.
    destruct (aes_NewCipher_valid (key c) Hk) as (blk & -> & _).
    by destruct (Nat.eqb_spec (length iv) aes.BlockSize).
  - intros Hiv.
    destruct (Cipher_initDecrypt_spec c iv Hk Hiv)
      as (blk & d & H1 & H2 & _ & H3 & H4 & H5 & _ & H6 & H7).
    exists blk, d. split_and!; assumption.
Qed.

Lemma Cipher_initDecrypt_iv_length_witness :
  Forall (fun n =>
    Cipher_initDecrypt (NewCipher "aes-256-cfb" "pw") (make n)
      = Some (NewCipher "aes-256-cfb" "pw", Some (ErrInvalidIVLength n)))
    [0; 1; 15; 17; 32] /\
  exists c', Cipher_initDecrypt (NewCipher "aes-256-cfb" "pw") (make 16) = Some (c', None).
Proof.
  split.
  - repeat constructor;
      match goal with
      | |- Cipher_initDecrypt ?c (make ?n) = _ =>
          destruct (Cipher_initDecrypt_iv_length "aes-256-cfb" "pw" c (make n) eq_refl)
            as (_ & Hbad & _);
          rewrite length_make in Hbad; apply Hbad; vm_compute; lia
      end.
  - destruct (Cipher_initDecrypt_iv_length "aes-256-cfb" "pw"
                (NewCipher "aes-256-cfb" "pw") (make 16) eq_refl) as (_ & _ & Hgood).
    destruct (Hgood eq_refl) as (blk & d & _ & _ & _ & _ & _ & _ & H).
    eexists. exact H.
Defined.

(** C7.  Take the key derived from any algorithm name and password and any
    16-byte IV.  When [initEncrypt] draws that IV from the random source and
    [initDecrypt] is given the same IV, [decrypt] applied to the result of
    [encrypt] on a plain text P gives P back, byte for byte, for every P;
    the cipher text is as long as P, and the two streams stay in step. *)
Theorem Cipher_decrypt_encrypt (method password : string) (rnd : rand.Source)
    (iv P dst1 dst2 : list byte) :
  length iv = aes.BlockSize ->
  List.map (rand.tape rnd) (seq (rand.pos rnd) aes.BlockSize) = iv ->
  length dst1 = length P -> length dst2 = length P ->
  let c0 := NewCipher method password in
  exists rnd' ce cd ce' C cd' e' d',
    Cipher_initEncrypt rnd c0 = Some (rnd', ce, iv, None) /\
    Cipher_initDecrypt c0 iv = Some (cd, None) /\
    Cipher_encrypt ce dst1 P = Some (ce', C) /\
    length C = length P /\
    Cipher_decrypt cd dst2 C = Some (cd', P) /\
    enc ce' = Some e' /\ dec cd' = Some d' /\ cfb_synced e' d'.
Proof.
  intros Hiv Htape Hd1 Hd2 c0.
  assert (Hk : aes.valid_key_size (length (key c0)) = true)
    by apply toKey_valid_key_size.
  destruct (Cipher_initEncrypt_spec rnd c0 Hk)
    as (blk & e & Hblk & _ & Heok & Heb & Hen & Heu & Heo & Hed & Hinit).
  rewrite Htape in Hinit, Hen.
  destruct (Cipher_initDecrypt_spec c0 iv Hk Hiv)
    as (blk' & d & Hblk' & _ & Hdok & Hdb & Hdn & Hdu & Hdo & Hdd & Hinit').
  rewrite Hblk in Hblk'. injection Hblk' as <-.
  assert (Hsync : cfb_synced e d).
  { unfold cfb_synced. split_and!; congruence. }
  destruct (cfb_steps_ok P e Heok) as (e' & C & HC & _ & HlenC & _).
  destruct (cfb_steps_roundtrip P e d e' C Hsync HC) as (d' & HP & Hsync').
  do 2 eexists. exists (mkCipher (enc c0) (Some d) (key c0)).
  exists (mkCipher (Some e') (dec c0) (key c0)), C.
  exists (mkCipher (enc c0) (Some d') (key c0)), e', d'.
  split; [exact Hinit|]. split; [exact Hinit'|].
  split. { unfold Cipher_encrypt. simpl. rewrite XORKeyStream_steps, HC by done. done. }
  split; [exact HlenC|].
  split. { unfold Cipher_decrypt. simpl.
           rewrite XORKeyStream_steps, HP by (done || lia). done. }
  auto.
Qed.

(** A payload of three blocks, under the key of "pw" and an IV drawn from
    the sample random source. *)
Lemma Cipher_decrypt_encrypt_witness :
  exists rnd' ce cd ce' C cd',
    Cipher_initEncrypt sample_rand (NewCipher "aes-128-cfb" "pw")
      = Some (rnd', ce, List.map (rand.tape sample_rand) (seq 5 16), None) /\
    Cipher_initDecrypt (NewCipher "aes-128-cfb" "pw")
      (List.map (rand.tape sample_rand) (seq 5 16)) = Some (cd, None) /\
    Cipher_encrypt ce (make (length sample_payload)) sample_payload = Some (ce', C) /\
    Cipher_decrypt cd (make (length sample_payload)) C = Some (cd', sample_payload).
Proof.
  destruct (Cipher_decrypt_encrypt "aes-128-cfb" "pw" sample_rand
              (List.map (rand.tape sample_rand) (seq 5 16)) sample_payload
              (make (length sample_payload)) (make (length sample_payload)))
    as (rnd' & ce & cd & ce' & C & cd' & e' & d' & H1 & H2 & H3 & _ & H4 & _).
  - reflexivity.
  - reflexivity.
  - apply length_make.
  - apply length_make.
  - exists rnd', ce, cd, ce', C, cd'. auto.
Defined.

(* ===================================================================== *)
(** ** Reading from the transport                                         *)
(* ===================================================================== *)

Lemma byte_eqb_spec (x y : byte) : reflect (x = y) (Byte.eqb x y).
Proof.
  destruct (Byte.eqb x y) eqn:E; constructor.
  - by apply Byte.byte_dec_bl.
  - by apply Byte.eqb_false.
Qed.

Lemma net_recv_spec (c : net.Conn) (k : nat) :
  net.writes (net.recv c k).1.1 = net.writes c /\
  net.outcomes (net.recv c k).1.1 = net.outcomes c /\
  length (net.recv c k).1.2 <= k.
Proof.
  unfold net.recv. destruct k as [|k]; [simpl; auto|].
  destruct (net.inbound c) as [|[b bs err|e] evs]; simpl; auto with lia.
  destruct (Nat.leb_spec (length bs) k); simpl; split_and!; auto; try lia.
  rewrite length_take. simpl. lia.
Qed.

Lemma net_Write_spec (c : net.Conn) (p : list byte) :
  net.writes (net.Write c p).1.1 = net.writes c ++ [p] /\
  net.inbound (net.Write c p).1.1 = net.inbound c /\
  (net.Write c p).1.2 <= length p /\
  ((net.Write c p).2 = None -> (net.Write c p).1.2 = length p).
Proof.
  unfold net.Write. destruct (net.outcomes c) as [|[|m e] os]; simpl; split_and!; auto; try lia.
  done.
Qed.

Lemma net_Read_spec (c c' : net.Conn) (p p' : list byte) n err :
  Read c p = Some (c', p', n, err) ->
  net.writes c' = net.writes c /\ net.outcomes c' = net.outcomes c /\
  length p' = length p /\ n <= length p.
Proof.
  unfold Read, net_Conn_Reader, net.Read.
  destruct (net_recv_spec c (length p)) as (Hw & Ho & Hl).
  destruct (net.recv c (length p)) as [[c1 d] e]. simpl in *.
  intros [= <- <- <- <-]. by rewrite length_copy.
Qed.

Lemma ReadAtLeast_loop_net fuel : forall (c : net.Conn) (buf : list byte) min n c' buf' n' err,
  n <= length buf ->
  io.ReadAtLeast_loop fuel c buf min n = Some (c', buf', n', err) ->
  net.writes c' = net.writes c /\ net.outcomes c' = net.outcomes c /\
  length buf' = length buf /\ n <= n' /\ n' <= length buf /\ (err = None -> min <= n').
Proof.
  induction fuel as [|fuel IH]; intros c buf min n c' buf' n' err Hn; simpl.
  - destruct (Nat.ltb_spec n min); [done|]. intros [= <- <- <- <-]. auto with lia.
  - destruct (Nat.ltb_spec n min); [|intros [= <- <- <- <-]; auto with lia].
    destruct (Read c (drop n buf)) as [[[[c1 tail] nn] e]|] eqn:Hr; simpl; [|done].
    destruct (net_Read_spec _ _ _ _ _ _ Hr) as (Hw & Ho & Hl & Hnn).
    rewrite length_drop in Hl, Hnn.
    assert (Hlen : length (take n buf ++ tail) = length buf).
    { rewrite length_app, length_take, Hl. lia. }
    destruct e as [e|].
    + intros [= <- <- <- <-]. split_and!; auto; try lia. done.
    + intros H'. apply IH in H'; [|lia].
      destruct H' as (Hw' & Ho' & Hl' & Hn1 & Hn2 & He). rewrite Hlen in *.
      split_and!; auto; try lia; congruence.
Qed.

(** What [io.ReadAtLeast] on a connection leaves untouched and returns. *)
Lemma ReadAtLeast_net (c : net.Conn) (buf : list byte) min c' buf' n err :
  io.ReadAtLeast c buf min = Some (c', buf', n, err) ->
  net.writes c' = net.writes c /\ net.outcomes c' = net.outcomes c /\
  length buf' = length buf /\ n <= length buf /\ (err = None -> min <= n).
Proof.
  unfold io.ReadAtLeast. destruct (Nat.ltb_spec (length buf) min).
  - intros [= <- <- <- <-]. split_and!; auto; try lia. done.
  - destruct (io.ReadAtLeast_loop min c buf min 0) as [[[[c1 b1] n1] e1]|] eqn:Hl;
      simpl; [|done].
    apply ReadAtLeast_loop_net in Hl; [|lia].
    destruct Hl as (Hw & Ho & Hlen & _ & Hn & He).
    intros [= <- <- <- <-]. split_and!; auto.
    destruct (Nat.leb_spec min n1); [done|].
    intros Herr. destruct e1 as [e1|]; [|by apply He].
    destruct e1; try done. by destruct (0 <? n1).
Qed.

(** A read on a connection with room for a byte delivers a byte or an
    error, so [io.ReadAtLeast] on a connection always returns. *)
Lemma net_recv_progress (c : net.Conn) (k : nat) :
  1 <= k -> 1 <= length (net.recv c k).1.2 \/ (net.recv c k).2 <> None.
Proof.
  intros Hk. unfold net.recv. destruct k as [|k]; [lia|].
  destruct (net.inbound c) as [|[b bs err|e] evs]; simpl; auto.
  destruct (length bs <=? k); simpl; left; lia.
Qed.

Lemma ReadAtLeast_loop_net_returns fuel : forall (c : net.Conn) (buf : list byte) min n,
  min <= length buf -> min - n <= fuel ->
  exists res, io.ReadAtLeast_loop fuel c buf min n = Some res.
Proof.
  induction fuel as [|fuel IH]; intros c buf min n Hmin Hfuel.
  - rewrite ReadAtLeast_loop_done by lia. eauto.
  - cbn [io.ReadAtLeast_loop]. destruct (Nat.ltb_spec n min); [|eauto].
    unfold Read, net_Conn_Reader, net.Read.
    destruct (net_recv_progress c (length (drop n buf))) as [Hp|Hp].
    { rewrite length_drop. lia. }
    + destruct (net.recv c (length (drop n buf))) as [[c1 d] e]. simpl in Hp.
      cbn [mbind option_bind]. destruct e; [eauto|].
      apply IH; [|lia].
      rewrite length_app, length_take, length_copy, length_drop. lia.
    + destruct (net.recv c (length (drop n buf))) as [[c1 d] e]. simpl in Hp.
      cbn [mbind option_bind]. destruct e; [eauto|done].
Qed.

Lemma ReadAtLeast_net_returns (c : net.Conn) (buf : list byte) (min : nat) :
  exists c' buf' n err, io.ReadAtLeast c buf min = Some (c', buf', n, err).
Proof.
  unfold io.ReadAtLeast. destruct (Nat.ltb_spec (length buf) min); [eauto|].
  destruct (ReadAtLeast_loop_net_returns min c buf min 0) as ([[[c1 b1] n1] e1] & ->);
    [lia|lia|].
  cbn [mbind option_bind]. eauto.
Qed.

(* ===================================================================== *)
(** ** The SOCKS5 front end                                               *)
(* ===================================================================== *)

(** C8.  Let the greeting be the [n] bytes that the handshake has read into
    [buf].  If byte 0 is not 5, the handshake fails with the version error
    (which names the byte) and writes nothing.  Otherwise, if [n] is not
    2 plus the method count in byte 1, it fails with the header error and
    writes nothing.  Otherwise it hands exactly the two bytes 05 00 to the
    transport, in one write, and returns what that write returns.  The
    greeting 05 02 00 01 succeeds, and the reply is 05 00. *)
Theorem handsake_greeting (conn conn' : net.Conn) (buf : list byte) (n : nat) :
  io.ReadAtLeast conn (make 258) 2 = Some (conn', buf, n, None) ->
  (at_ buf 0 <> socksVer5 ->
     handsake conn = Some (conn', Some (ErrExpectVersion5 (at_ buf 0))) /\
     net.writes conn' = net.writes conn) /\
  (at_ buf 0 = socksVer5 -> n <> 2 + int (at_ buf 1) ->
     handsake conn = Some (conn', Some ErrParseHeader) /\
     net.writes conn' = net.writes conn) /\
  (at_ buf 0 = socksVer5 -> n = 2 + int (at_ buf 1) ->
     exists conn'' k err,
       net.Write conn' [Byte.x05; Byte.x00] = (conn'', k, err) /\
       handsake conn = Some (conn'', err) /\
       net.writes conn'' = net.writes conn ++ [[Byte.x05; Byte.x00]]) /\
  handsake (client_sends (bytes_of [5; 2; 0; 1]))
    = Some (net.mkConn [] [[Byte.x05; Byte.x00]] [], None).
Proof.
  intros Hread.
  destruct (ReadAtLeast_net _ _ _ _ _ _ _ Hread) as (Hw & _).
  unfold handsake. rewrite Hread. cbn [mbind option_bind].
  split_and!.
  - intros Hv. by destruct (byte_eqb_spec (at_ buf 0) socksVer5).
  - intros Hv Hn. destruct (byte_eqb_spec (at_ buf 0) socksVer5); [|done].
    simpl. rewrite Nat.add_comm. by destruct (Nat.eqb_spec n (2 + int (at_ buf 1))).
  - intros Hv Hn. destruct (byte_eqb_spec (at_ buf 0) socksVer5); [|done].
    simpl. rewrite Nat.add_comm. destruct (Nat.eqb_spec n (2 + int (at_ buf 1))); [|done].
    simpl. unfold socksVer5.
    destruct (net.Write conn' [Byte.x05; Byte.x00]) as [[conn'' k] err] eqn:Hwr.
    exists conn'', k, err. split_and!; auto.
    rewrite <- Hw. destruct (net_Write_spec conn' [Byte.x05; Byte.x00]) as (H & _).
    by rewrite Hwr in H.
  - vm_compute. reflexivity.
Qed.

Lemma handsake_greeting_witness :
  handsake (client_sends (bytes_of [4; 1; 0]))
    = Some (net.mkConn [] [] [], Some (ErrExpectVersion5 Byte.x04)) /\
  handsake (client_sends (bytes_of [5; 2; 0]))
    = Some (net.mkConn [] [] [], Some ErrParseHeader) /\
  handsake (client_sends (bytes_of [5; 1; 0]))
    = Some (net.mkConn [] [[Byte.x05; Byte.x00]] [], None).
Proof.
  split_and!.
  - refine (proj1 (proj1 (handsake_greeting (client_sends (bytes_of [4; 1; 0]))
                            (net.mkConn [] [] []) (bytes_of [4; 1; 0] ++ make 255) 3 _) _)).
    + vm_compute. reflexivity.
    + vm_compute. discriminate.
  - refine (proj1 (proj1 (proj2 (handsake_greeting (client_sends (bytes_of [5; 2; 0]))
                            (net.mkConn [] [] []) (bytes_of [5; 2; 0] ++ make 255) 3 _)) _ _)).
    + vm_compute. reflexivity.
    + vm_compute. reflexivity.
    + vm_compute. lia.
  - destruct (proj1 (proj2 (proj2 (handsake_greeting (client_sends (bytes_of [5; 1; 0]))
                            (net.mkConn [] [] []) (bytes_of [5; 1; 0] ++ make 255) 3
                            eq_refl))) eq_refl eq_refl)
      as (conn'' & k & err & Hwr & Hh & _).
    vm_compute in Hwr. injection Hwr as <- <- <-. exact Hh.
Defined.

(** The checks of [readRawAddr], one after the other, on what was read. *)
Lemma readRawAddr_unfold (conn conn' : net.Conn) (buf : list byte) (n : nat) :
  io.ReadAtLeast conn (make 262) 5 = Some (conn', buf, n, None) ->
  readRawAddr conn =
    if negb (Byte.eqb (at_ buf 0) socksVer5)
    then Some (conn', [], Some (ErrExpectVersion5 (at_ buf 0)))
    else if negb (Byte.eqb (at_ buf 1) cmdConnect)
    then Some (conn', [], Some ErrNotSupportedCommand)
    else
      match (if Byte.eqb (at_ buf 3) typeIPv4 then Some 10
             else if Byte.eqb (at_ buf 3) typeIPv6 then Some 22
             else if Byte.eqb (at_ buf 3) typeDomain then Some (7 + int (at_ buf 4))
             else None) with
      | None => Some (conn', [], Some ErrNotSupportedAddrType)
      | Some reqLen =>
          if negb (n =? reqLen) then Some (conn', [], Some ErrParseHeader)
          else Some (conn', drop 3 (take reqLen buf), None)
      end.
Proof. intros Hread. unfold readRawAddr. rewrite Hread. reflexivity. Qed.

(** C10.  The request step checks the version byte once more, and first:
    when byte 0 of what [readRawAddr] has read is not 5, it fails with the
    version error naming that byte, whatever the command byte, the address
    type and the number of bytes read are; nothing is written. *)
Theorem readRawAddr_version_first (conn conn' : net.Conn) (buf : list byte) (n : nat) :
  io.ReadAtLeast conn (make 262) 5 = Some (conn', buf, n, None) ->
  at_ buf 0 <> socksVer5 ->
  readRawAddr conn = Some (conn', [], Some (ErrExpectVersion5 (at_ buf 0))) /\
  net.writes conn' = net.writes conn.
Proof.
  intros Hread Hv.
  destruct (ReadAtLeast_net _ _ _ _ _ _ _ Hread) as (Hw & _).
  rewrite (readRawAddr_unfold _ _ _ _ Hread).
  by destruct (byte_eqb_spec (at_ buf 0) socksVer5).
Qed.

(** A request with version 4, the BIND command, address type 2 and a length
    that fits no layout: the version error is the one reported. *)
Lemma readRawAddr_version_first_witness :
  readRawAddr (client_sends (bytes_of [4; 2; 0; 2; 9; 9]))
    = Some (net.mkConn [] [] [], [], Some (ErrExpectVersion5 Byte.x04)).
Proof.
  refine (proj1 (readRawAddr_version_first (client_sends (bytes_of [4; 2; 0; 2; 9; 9]))
                   (net.mkConn [] [] []) (bytes_of [4; 2; 0; 2; 9; 9] ++ make 256) 6 _ _)).
  - vm_compute. reflexivity.
  - vm_compute. discriminate.
Defined.

(** C3, as amended.  Let the request be the [n] bytes that [readRawAddr]
    has read into [buf], with version byte 5.  If the command byte is not
    CONNECT, it fails with the unsupported-command error.  Otherwise, if the
    address type is none of 1, 3 and 4, it fails with the
    unsupported-address-type error.  Otherwise [n] must be 4+4+2 for IPv4,
    4+16+2 for IPv6 and 4+1+2+N for a domain, N being byte 4: if not, it
    fails with the header error, and if so, it returns the request from
    offset 3 to its end.  The request 05 01 00 01 7f 00 00 01 1f 90 gives
    01 7f 00 00 01 1f 90. *)
Theorem readRawAddr_request (conn conn' : net.Conn) (buf : list byte) (n : nat) :
  io.ReadAtLeast conn (make 262) 5 = Some (conn', buf, n, None) ->
  at_ buf 0 = socksVer5 ->
  (at_ buf 1 <> cmdConnect ->
     readRawAddr conn = Some (conn', [], Some ErrNotSupportedCommand)) /\
  (at_ buf 1 = cmdConnect ->
     (at_ buf 3 <> typeIPv4 -> at_ buf 3 <> typeDomain -> at_ buf 3 <> typeIPv6 ->
        readRawAddr conn = Some (conn', [], Some ErrNotSupportedAddrType)) /\
     (forall reqLen,
        (at_ buf 3 = typeIPv4 /\ reqLen = 4 + 4 + 2) \/
        (at_ buf 3 = typeIPv6 /\ reqLen = 4 + 16 + 2) \/
        (at_ buf 3 = typeDomain /\ reqLen = 4 + 1 + 2 + int (at_ buf 4)) ->
        (n <> reqLen -> readRawAddr conn = Some (conn', [], Some ErrParseHeader)) /\
        (n = reqLen -> readRawAddr conn = Some (conn', drop 3 (take n buf), None)))) /\
  readRawAddr (client_sends (bytes_of [5; 1; 0; 1; 127; 0; 0; 1; 31; 144]))
    = Some (net.mkConn [] [] [], bytes_of [1; 127; 0; 0; 1; 31; 144], None).
Proof.
  intros Hread Hv.
  rewrite (readRawAddr_unfold _ _ _ _ Hread).
  destruct (byte_eqb_spec (at_ buf 0) socksVer5) as [_|]; [|done]. cbn [negb].
  split_and!.
  - intros Hc. by destruct (byte_eqb_spec (at_ buf 1) cmdConnect).
  - intros Hc. destruct (byte_eqb_spec (at_ buf 1) cmdConnect) as [_|]; [|done]. cbn [negb].
    split.
    + intros H4 H3 H6.
      destruct (byte_eqb_spec (at_ buf 3) typeIPv4); [done|].
      destruct (byte_eqb_spec (at_ buf 3) typeIPv6); [done|].
      by destruct (byte_eqb_spec (at_ buf 3) typeDomain).
    + intros reqLen [[Ht ->]|[[Ht ->]|[Ht ->]]]; rewrite Ht;
        repeat match goal with
               | |- context [Byte.eqb ?a ?b] =>
                   let v := eval vm_compute in (Byte.eqb a b) in
                   change (Byte.eqb a b) with v
               end;
        cbv iota; change (4 + 4 + 2) with 10; change (4 + 16 + 2) with 22;
        change (4 + 1 + 2 + int (at_ buf 4)) with (7 + int (at_ buf 4));
        (split; intros Hn;
         match goal with
         | |- context [n =? ?m] => destruct (Nat.eqb_spec n m)
         end; [done|done|by subst|done]).
  - vm_compute. reflexivity.
Qed.

Lemma readRawAddr_request_witness :
  readRawAddr (client_sends (bytes_of [5; 1; 0; 3; 2; 103; 111; 0; 80]))
    = Some (net.mkConn [] [] [], bytes_of [3; 2; 103; 111; 0; 80], None) /\
  readRawAddr (client_sends (bytes_of [5; 2; 0; 1; 127; 0; 0; 1; 31; 144]))
    = Some (net.mkConn [] [] [], [], Some ErrNotSupportedCommand) /\
  readRawAddr (client_sends (bytes_of [5; 1; 0; 2; 127; 0; 0; 1; 31; 144]))
    = Some (net.mkConn [] [] [], [], Some ErrNotSupportedAddrType).
Proof.
  split_and!.
  - destruct (proj1 (proj2 (readRawAddr_request
                (client_sends (bytes_of [5; 1; 0; 3; 2; 103; 111; 0; 80]))
                (net.mkConn [] [] []) (bytes_of [5; 1; 0; 3; 2; 103; 111; 0; 80] ++ make 253) 9
                eq_refl eq_refl)) eq_refl) as [_ H].
    destruct (H 9) as [_ Hok]; [right; right; split; reflexivity|].
    exact (Hok eq_refl).
  - refine (proj1 (readRawAddr_request
                (client_sends (bytes_of [5; 2; 0; 1; 127; 0; 0; 1; 31; 144]))
                (net.mkConn [] [] []) (bytes_of [5; 2; 0; 1; 127; 0; 0; 1; 31; 144] ++ make 252) 10
                eq_refl eq_refl) _).
    vm_compute. discriminate.
  - refine (proj1 (proj1 (proj2 (readRawAddr_request
                (client_sends (bytes_of [5; 1; 0; 2; 127; 0; 0; 1; 31; 144]))
                (net.mkConn [] [] []) (bytes_of [5; 1; 0; 2; 127; 0; 0; 1; 31; 144] ++ make 252) 10
                eq_refl eq_refl)) eq_refl) _ _ _); vm_compute; discriminate.
Defined.

(** C3 as stated does not hold: a request whose command byte is BIND (02)
    but whose version byte is 4 fails with the version error, not with the
    unsupported-command error. *)
Lemma readRawAddr_command_counterexample :
  exists conn' buf n,
    io.ReadAtLeast (client_sends (bytes_of [4; 2; 0; 1; 127; 0; 0; 1; 31; 144])) (make 262) 5
      = Some (conn', buf, n, None) /\
    at_ buf 1 <> cmdConnect /\
    readRawAddr (client_sends (bytes_of [4; 2; 0; 1; 127; 0; 0; 1; 31; 144]))
      = Some (conn', [], Some (ErrExpectVersion5 Byte.x04)) /\
    readRawAddr (client_sends (bytes_of [4; 2; 0; 1; 127; 0; 0; 1; 31; 144]))
      <> Some (conn', [], Some ErrNotSupportedCommand).
Proof.
  exists (net.mkConn [] [] []), (bytes_of [4; 2; 0; 1; 127; 0; 0; 1; 31; 144] ++ make 252), 10.
  split_and!.
  - vm_compute. reflexivity.
  - vm_compute. discriminate.
  - vm_compute. reflexivity.
  - vm_compute. discriminate.
Qed.

(* ===================================================================== *)
(** ** The encrypting connection: Write                                   *)
(* ===================================================================== *)

Lemma Conn_Write_unfold (w : World) (c : Conn) (b : list byte) :
  Conn_Write w c b =
    '(rnd, ci, iv, err) ←
      match enc (cipher c) with
      | Some _ => Some (randReader w, cipher c, [], None)
      | None => Cipher_initEncrypt (randReader w) (cipher c)
      end;
    match err with
    | Some e => Some (mkWorld (bytePool w) rnd, mkEncConn (conn c) ci, 0, Some e)
    | None => Conn_Write_send (mkWorld (bytePool w) rnd) (mkEncConn (conn c) ci) iv b
    end.
Proof. reflexivity. Qed.

Lemma slice_to_pool (bp : BytePool) (size : nat) :
  pool_ok bp ->
  slice_to (BytePool_GetAtLeast bp size).1 size
    = Some (take size (BytePool_GetAtLeast bp size).1) /\
  length (take size (BytePool_GetAtLeast bp size).1) = size.
Proof.
  intros Hok. destruct (BytePool_GetAtLeast_spec bp size Hok) as (Hlen & _).
  unfold slice_to. destruct (Nat.leb_spec size (length (BytePool_GetAtLeast bp size).1)); [|lia].
  split; [done|]. rewrite length_take. lia.
Qed.

(** The second half of [Write]: the IV, if any, and the encryption of [b]
    go to the transport in one write. *)
Lemma Conn_Write_send_spec (w : World) (c : Conn) (iv b : list byte) e e' ct :
  pool_ok (bytePool w) ->
  enc (cipher c) = Some e -> cfb_ok e ->
  cfb_steps e b = Some (e', ct) ->
  exists w',
    Conn_Write_send w c iv b =
      Some (w', mkEncConn (net.Write (conn c) (iv ++ ct)).1.1
                  (mkCipher (Some e') (dec (cipher c)) (key (cipher c))),
            (net.Write (conn c) (iv ++ ct)).1.2, (net.Write (conn c) (iv ++ ct)).2) /\
    pool_ok (bytePool w') /\ randReader w' = randReader w.
Proof.
  intros Hpool Henc Hok Hsteps. unfold Conn_Write_send.
  set (encLen := length iv + length b).
  destruct (slice_to_pool (bytePool w) encLen Hpool) as [Hslice Hlen].
  destruct (BytePool_GetAtLeast_spec (bytePool w) encLen Hpool) as (_ & Hpool' & _).
  destruct (BytePool_GetAtLeast (bytePool w) encLen) as [buf bp]. simpl in *.
  rewrite Hslice. cbn [mbind option_bind].
  set (enc0 := take encLen buf) in *.
  assert (Hcopy : (if 0 <? length iv then copy enc0 iv else enc0)
                  = iv ++ drop (length iv) enc0).
  { destruct (Nat.ltb_spec 0 (length iv)).
    - apply copy_short. lia.
    - destruct iv; simpl in *; [done|lia]. }
  rewrite Hcopy. rewrite drop_app_length, take_app_length.
  unfold Cipher_encrypt. rewrite Henc. cbn [mbind option_bind].
  rewrite XORKeyStream_steps, Hsteps; [|done|rewrite length_drop; lia].
  cbn [mbind option_bind].
  destruct (net.Write (conn c) (iv ++ ct)) as [[t n] err]. simpl.
  eexists. split; [reflexivity|]. simpl. split; [|reflexivity].
  apply BytePool_Put_spec, Hpool'.
Qed.

Lemma Conn_Write_first (w : World) (c : Conn) (b : list byte) :
  pool_ok (bytePool w) -> aes.valid_key_size (length (key (cipher c))) = true ->
  enc (cipher c) = None ->
  let iv := List.map (rand.tape (randReader w))
              (seq (rand.pos (randReader w)) aes.BlockSize) in
  exists blk e e' ct w' t' n err,
    length iv = 16 /\
    aes.NewCipher (key (cipher c)) = inl blk /\
    crypto_cipher.NewCFBEncrypter blk iv = Some e /\
    crypto_cipher.XORKeyStream e (make (length b)) b = Some (e', ct) /\
    length ct = length b /\
    net.Write (conn c) (iv ++ ct) = (t', n, err) /\
    Conn_Write w c b =
      Some (w', mkEncConn t' (mkCipher (Some e') (dec (cipher c)) (key (cipher c))),
            n, err) /\
    net.writes t' = net.writes (conn c) ++ [iv ++ ct] /\
    rand.pos (randReader w') = rand.pos (randReader w) + 16 /\
    (err = None -> n = length iv + length b) /\
    pool_ok (bytePool w') /\ cfb_ok e'.
Proof.
  intros Hpool Hkey Henc iv.
  destruct (Cipher_initEncrypt_spec (randReader w) (cipher c) Hkey)
    as (blk & e & Hblk & Hnew & Heok & _ & _ & _ & _ & _ & Hinit).
  fold iv in Hnew, Hinit.
  destruct (cfb_steps_ok b e Heok) as (e' & ct & Hsteps & Heok' & Hlen & _).
  rewrite Conn_Write_unfold, Henc, Hinit. cbn [mbind option_bind].
  edestruct (Conn_Write_send_spec
               (mkWorld (bytePool w)
                  (rand.mkSource (rand.tape (randReader w))
                     (rand.pos (randReader w) + aes.BlockSize)))
               (mkEncConn (conn c) (mkCipher (Some e) (dec (cipher c)) (key (cipher c))))
               iv b e e' ct) as (w' & Hsend & Hpool' & Hrnd); try done.
  cbn [conn cipher enc dec key bytePool randReader] in Hsend.
  destruct (net_Write_spec (conn c) (iv ++ ct)) as (Hw & _ & _ & Hn).
  destruct (net.Write (conn c) (iv ++ ct)) as [[t' n] err] eqn:Hwr. cbn [fst snd] in *.
  exists blk, e, e', ct, w', t', n, err. split_and!; auto.
  - rewrite XORKeyStream_steps; [done|done|apply length_make].
  - rewrite Hrnd. reflexivity.
  - intros ->. rewrite Hn by done. rewrite length_app. lia.
Qed.

Lemma Conn_Write_later (w : World) (c : Conn) (b : list byte) (e : cfb) :
  pool_ok (bytePool w) -> enc (cipher c) = Some e -> cfb_ok e ->
  exists e' ct w' t' n err,
    crypto_cipher.XORKeyStream e (make (length b)) b = Some (e', ct) /\
    length ct = length b /\
    net.Write (conn c) ct = (t', n, err) /\
    Conn_Write w c b =
      Some (w', mkEncConn t' (mkCipher (Some e') (dec (cipher c)) (key (cipher c))),
            n, err) /\
    net.writes t' = net.writes (conn c) ++ [ct] /\
    randReader w' = randReader w /\
    (err = None -> n = length b) /\
    pool_ok (bytePool w') /\ cfb_ok e'.
Proof.
  intros Hpool Henc Hencok.
  destruct (cfb_steps_ok b e Hencok) as (e' & ct & Hsteps & Heok' & Hlen & _).
  rewrite Conn_Write_unfold, Henc. cbn [mbind option_bind].
  edestruct (Conn_Write_send_spec (mkWorld (bytePool w) (randReader w))
               (mkEncConn (conn c) (cipher c)) [] b e e' ct)
    as (w' & Hsend & Hpool' & Hrnd); try done.
  cbn [conn cipher enc dec key bytePool randReader] in Hsend.
  destruct (net_Write_spec (conn c) ct) as (Hw & _ & _ & Hn).
  destruct (net.Write (conn c) ct) as [[t' n] err] eqn:Hwr. cbn [fst snd] in *.
  exists e', ct, w', t', n, err. split_and!; auto.
  - rewrite XORKeyStream_steps; [done|done|apply length_make].
  - rewrite Hsend. change ([] ++ ct) with ct. by rewrite Hwr.
  - intros ->. rewrite Hn by done. lia.
Qed.

(** C1.  On a connection whose encrypt stream is not yet set, [Write(b)]
    draws the next 16 bytes of the random source as the IV, starts the CFB
    encrypter of the key at it, and hands the IV followed by the encryption
    of [b] to the transport in a single write.  On a connection whose
    encrypt stream is set, it hands the encryption of [b] alone to the
    transport, in a single write, and draws nothing from the random source.
    In both cases the encrypt stream is set afterwards (so every call
    after the first is of the second kind), the cipher text is as long as
    [b], and [Write] returns the count and the error of the transport
    write: [len(iv) + len(b)] = [16 + len(b)] for a first write that the
    transport accepts whole, and [len(b)] for a later one. *)
Theorem Conn_Write_iv_once (w : World) (c : Conn) (b : list byte) :
  pool_ok (bytePool w) -> Cipher_ok (cipher c) ->
  (enc (cipher c) = None ->
     let iv := List.map (rand.tape (randReader w))
                 (seq (rand.pos (randReader w)) aes.BlockSize) in
     exists blk e e' ct w' t' n err,
       length iv = 16 /\
       aes.NewCipher (key (cipher c)) = inl blk /\
       crypto_cipher.NewCFBEncrypter blk iv = Some e /\
       crypto_cipher.XORKeyStream e (make (length b)) b = Some (e', ct) /\
       length ct = length b /\
       net.Write (conn c) (iv ++ ct) = (t', n, err) /\
       Conn_Write w c b =
         Some (w', mkEncConn t' (mkCipher (Some e') (dec (cipher c)) (key (cipher c))),
               n, err) /\
       net.writes t' = net.writes (conn c) ++ [iv ++ ct] /\
       rand.pos (randReader w') = rand.pos (randReader w) + 16 /\
       (err = None -> n = length iv + length b) /\
       pool_ok (bytePool w') /\ cfb_ok e') /\
  (forall e, enc (cipher c) = Some e ->
     exists e' ct w' t' n err,
       crypto_cipher.XORKeyStream e (make (length b)) b = Some (e', ct) /\
       length ct = length b /\
       net.Write (conn c) ct = (t', n, err) /\
       Conn_Write w c b =
         Some (w', mkEncConn t' (mkCipher (Some e') (dec (cipher c)) (key (cipher c))),
               n, err) /\
       net.writes t' = net.writes (conn c) ++ [ct] /\
       randReader w' = randReader w /\
       (err = None -> n = length b) /\
       pool_ok (bytePool w') /\ cfb_ok e').
Proof.
  intros Hpool (Hkey & Hencok & Hdecok). split.
  - intros Henc. by apply Conn_Write_first.
  - intros e Henc. apply Conn_Write_later; auto.
Qed.

Lemma NewCipher_ok (method password : string) : Cipher_ok (NewCipher method password).
Proof.
  unfold Cipher_ok, NewCipher; simpl. split; [apply toKey_valid_key_size|]. by split.
Qed.

(** A first write and a second one on a fresh connection. *)
Lemma Conn_Write_iv_once_witness :
  exists w1 c1 n1 err1 w2 c2 n2 err2,
    Conn_Write sample_world (NewConn (client_sends []) (NewCipher "aes-256-cfb" "pw"))
      sample_payload = Some (w1, c1, n1, err1) /\
    (err1 = None -> n1 = 16 + length sample_payload) /\
    Conn_Write w1 c1 sample_payload = Some (w2, c2, n2, err2) /\
    (err2 = None -> n2 = length sample_payload).
Proof.
  destruct (Conn_Write_iv_once sample_world
              (NewConn (client_sends []) (NewCipher "aes-256-cfb" "pw")) sample_payload
              (NewBytePool_ok _ _) (NewCipher_ok _ _)) as [Hfirst _].
  destruct (Hfirst eq_refl)
    as (blk & e & e1 & ct1 & w1 & t1 & n1 & err1 & Hiv & _ & _ & _ & _ & _ & Hcall1
        & _ & _ & Hn1 & Hpool1 & Hok1).
  set (c1 := mkEncConn t1 _) in Hcall1.
  destruct (Conn_Write_iv_once w1 c1 sample_payload Hpool1) as [_ Hlater].
  { unfold c1. cbn [cipher]. unfold Cipher_ok. cbn [key enc dec].
    split; [apply toKey_valid_key_size|]. split; [|done]. by intros ? [= <-]. }
  destruct (Hlater e1 eq_refl)
    as (e2 & ct2 & w2 & t2 & n2 & err2 & _ & _ & _ & Hcall2 & _ & _ & Hn2 & _).
  exists w1, c1, n1, err1, w2.
  eexists. exists n2, err2. split_and!.
  - exact Hcall1.
  - intros Herr. rewrite (Hn1 Herr), Hiv. reflexivity.
  - exact Hcall2.
  - exact Hn2.
Defined.

(* ===================================================================== *)
(** ** Readers seen as streams                                            *)
(* ===================================================================== *)

Section stream_view.
Context {T : Type} `{Reader T}.
Variable view : T -> list byte.
Variable inv : T -> Prop.

(** Every read with a non-empty buffer that the stream can fill takes some
    bytes off the front of the stream, without error. *)
Hypothesis Read_view : forall r p,
  inv r -> p <> [] -> length p <= length (view r) ->
  exists r' n,
    Read r p = Some (r', take n (view r) ++ drop n p, n, None) /\
    1 <= n /\ n <= length p /\ view r' = drop n (view r) /\ inv r'.

Lemma ReadAtLeast_loop_view fuel : forall r (buf : list byte) n,
  inv r -> n <= length buf ->
  length buf - n <= length (view r) -> length buf - n <= fuel ->
  exists r',
    io.ReadAtLeast_loop fuel r buf (length buf) n =
      Some (r', take n buf ++ take (length buf - n) (view r), length buf, None) /\
    view r' = drop (length buf - n) (view r) /\ inv r'.
Proof.
  induction fuel as [|fuel IH]; intros r buf n Hinv Hn Hview Hfuel.
  - assert (n = length buf) as -> by lia.
    rewrite ReadAtLeast_loop_done by lia. exists r.
    rewrite Nat.sub_diag, take_0, app_nil_r, take_ge by lia. auto.
  - destruct (decide (n = length buf)) as [->|Hne].
    + rewrite ReadAtLeast_loop_done by lia. exists r.
      rewrite Nat.sub_diag, take_0, app_nil_r, take_ge by lia. auto.
    + cbn [io.ReadAtLeast_loop]. destruct (Nat.ltb_spec n (length buf)); [|lia].
      destruct (Read_view r (drop n buf)) as (r1 & k & Hr & Hk1 & Hk2 & Hv1 & Hinv1).
      * done.
      * intros Hnil. apply (f_equal length) in Hnil. rewrite length_drop in Hnil.
        simpl in Hnil. lia.
      * rewrite length_drop. lia.
      * rewrite length_drop in Hk2. rewrite Hr. cbn [mbind option_bind].
        set (buf' := take n buf ++ take k (view r) ++ drop k (drop n buf)).
        assert (Hlen : length buf' = length buf).
        { unfold buf'. rewrite !length_app, !length_take, !length_drop. lia. }
        destruct (IH r1 buf' (n + k)) as (r2 & Hloop & Hv2 & Hinv2); try lia.
        { done. }
        { rewrite Hv1, length_drop. lia. }
        exists r2. rewrite Hlen in Hloop. rewrite Hloop. split_and!; [|  |done].
        -- f_equal. f_equal. f_equal. f_equal. unfold buf'.
           rewrite Hv1. rewrite app_assoc.
           rewrite take_app_length' by (rewrite length_app, !length_take; lia).
           rewrite <- app_assoc. f_equal.
           replace (length buf - n) with (k + (length buf - (n + k))) by lia.
           by rewrite <- take_take_drop.
        -- rewrite Hv2, Hv1, drop_drop. f_equal. lia.
Qed.

(** [io.ReadFull] takes exactly [len(buf)] bytes off the stream. *)
Lemma ReadFull_view (r : T) (buf : list byte) :
  inv r -> length buf <= length (view r) ->
  exists r',
    io.ReadFull r buf = Some (r', take (length buf) (view r), length buf, None) /\
    view r' = drop (length buf) (view r) /\ inv r'.
Proof.
  intros Hinv Hlen. unfold io.ReadFull, io.ReadAtLeast. rewrite Nat.ltb_irrefl.
  destruct (ReadAtLeast_loop_view (length buf) r buf 0) as (r' & Hloop & Hv & Hinv');
    try lia; [done|].
  rewrite Nat.sub_0_r in *. rewrite Hloop. cbn [mbind option_bind take app].
  rewrite Nat.leb_refl. eauto.
Qed.

(** The same for a part [buf[i:j]] of a buffer. *)
Lemma ReadFull_slice_view (r : T) (buf : list byte) (i j : nat) :
  inv r -> i <= j -> j <= length buf -> j - i <= length (view r) ->
  exists r',
    ReadFull_slice r buf i j =
      Some (r', take i buf ++ take (j - i) (view r) ++ drop j buf, None) /\
    view r' = drop (j - i) (view r) /\ inv r'.
Proof.
  intros Hinv Hij Hj Hlen. unfold ReadFull_slice.
  assert (Hl : length (drop i (take j buf)) = j - i).
  { rewrite length_drop, length_take. lia. }
  destruct (ReadFull_view r (drop i (take j buf))) as (r' & Hr & Hv & Hinv');
    [done|lia|].
  rewrite Hl in *. rewrite Hr. cbn [mbind option_bind]. eauto.
Qed.
End stream_view.

(** A connection delivers the bytes of its leading data events. *)
Lemma net_recv_view (c : net.Conn) (k : nat) :
  1 <= k -> k <= length (inbound_bytes (net.inbound c)) ->
  exists c' d,
    net.recv c k = (c', d, None) /\
    d = take (length d) (inbound_bytes (net.inbound c)) /\
    1 <= length d /\ length d <= k /\
    inbound_bytes (net.inbound c') = drop (length d) (inbound_bytes (net.inbound c)) /\
    net.writes c' = net.writes c /\ net.outcomes c' = net.outcomes c.
Proof.
  intros Hk Hlen. unfold net.recv. destruct k as [|k]; [lia|].
  destruct (net.inbound c) as [|[b bs [e|]|e] evs]; simpl in Hlen; try lia.
  cbn [inbound_bytes].
  change (b :: bs ++ inbound_bytes evs) with ((b :: bs) ++ inbound_bytes evs).
  set (d := b :: bs) in *.
  assert (Hd : 1 <= length d) by (unfold d; simpl; lia).
  destruct (length d <=? S k) eqn:E.
  - apply Nat.leb_le in E. eexists _, d. split; [reflexivity|].
    rewrite take_app_length, drop_app_length. simpl. unfold d in E; simpl in E.
    split_and!; auto; lia.
  - apply Nat.leb_gt in E.
    destruct (drop (S k) d) as [|b' bs'] eqn:Hdrop.
    { apply (f_equal length) in Hdrop. rewrite length_drop in Hdrop.
      change (length (@nil byte)) with 0 in Hdrop. lia. }
    eexists _, (take (S k) d). split; [reflexivity|].
    assert (Hl : length (take (S k) d) = S k) by (rewrite length_take; lia).
    rewrite Hl. cbn [net.inbound net.writes net.outcomes inbound_bytes].
    change (b' :: bs' ++ inbound_bytes evs) with ((b' :: bs') ++ inbound_bytes evs).
    rewrite <- Hdrop, take_app_le, drop_app_le by lia. split_and!; auto; lia.
Qed.

Lemma net_Read_view (c : net.Conn) (p : list byte) :
  p <> [] -> length p <= length (inbound_bytes (net.inbound c)) ->
  exists c' n,
    Read c p = Some (c', take n (inbound_bytes (net.inbound c)) ++ drop n p, n, None) /\
    1 <= n /\ n <= length p /\
    inbound_bytes (net.inbound c') = drop n (inbound_bytes (net.inbound c)).
Proof.
  intros Hp Hlen.
  assert (Hk : 1 <= length p) by (destruct p; simpl; [done|lia]).
  destruct (net_recv_view c (length p) Hk Hlen) as (c' & d & Hr & Hd & Hd1 & Hd2 & Hv & _).
  exists c', (length d). unfold Read, net_Conn_Reader, net.Read. rewrite Hr.
  rewrite copy_short by lia. rewrite <- Hd. auto.
Qed.

Lemma ReadFull_net_view (c : net.Conn) (buf : list byte) :
  length buf <= length (inbound_bytes (net.inbound c)) ->
  exists c',
    io.ReadFull c buf
      = Some (c', take (length buf) (inbound_bytes (net.inbound c)), length buf, None) /\
    inbound_bytes (net.inbound c') = drop (length buf) (inbound_bytes (net.inbound c)).
Proof.
  intros Hlen.
  destruct (ReadFull_view (fun c => inbound_bytes (net.inbound c)) (fun _ => True))
    with (r := c) (buf := buf) as (c' & Hr & Hv & _); [|done|done|eauto].
  intros r p _ Hp Hl.
  destruct (net_Read_view r p Hp Hl) as (r' & n & Hread & Hn1 & Hn2 & Hview).
  exists r', n. auto.
Qed.

(* ===================================================================== *)
(** ** The encrypting connection: Read                                    *)
(* ===================================================================== *)

Lemma Cipher_initDecrypt_cases (c ci : Cipher) (iv : list byte) (err : option error) :
  Cipher_initDecrypt c iv = Some (ci, err) ->
  (exists e, err = Some e /\ ci = c) \/
  (err = None /\ exists blk d,
     aes.NewCipher (key c) = inl blk /\
     crypto_cipher.NewCFBDecrypter blk iv = Some d /\
     ci = mkCipher (enc c) (Some d) (key c)).
Proof.
  unfold Cipher_initDecrypt.
  destruct (aes.NewCipher (key c)) as [blk|e]; [|intros [= <- <-]; eauto].
  destruct (negb (length iv =? aes.BlockSize)); [intros [= <- <-]; eauto|].
  destruct (crypto_cipher.NewCFBDecrypter blk iv) as [d|] eqn:Hd; [|done].
  simpl. intros [= <- <-]. right. split; [done|]. by exists blk, d.
Qed.

(** [Read] on a connection whose decrypt stream is set: one read of the
    transport, and the decryption of what it delivered. *)
Lemma Conn_Read_ready (w : World) (c : Conn) (b : list byte) (d : cfb) :
  pool_ok (bytePool w) -> dec (cipher c) = Some d -> cfb_ok d ->
  exists t' data err d' pt w',
    net.recv (conn c) (length b) = (t', data, err) /\
    cfb_steps d data = Some (d', pt) /\
    Conn_Read w c b =
      Some (w', mkEncConn t' (mkCipher (enc (cipher c)) (Some d') (key (cipher c))),
            pt ++ drop (length data) b, length data, err) /\
    length pt = length data /\ length data <= length b /\
    pool_ok (bytePool w') /\ randReader w' = randReader w /\ cfb_ok d'.
Proof.
  intros Hpool Hdec Hok.
  destruct (net_recv_spec (conn c) (length b)) as (_ & _ & Hdata).
  destruct (net.recv (conn c) (length b)) as [[t' data] err] eqn:Hrecv. simpl in Hdata.
  destruct (cfb_steps_ok data d Hok) as (d' & pt & Hsteps & Hok' & Hlen & _).
  unfold Conn_Read. rewrite Hdec. cbn [mbind option_bind].
  destruct (slice_to_pool (bytePool w) (length b) Hpool) as [Hslice Hsl].
  destruct (BytePool_GetAtLeast_spec (bytePool w) (length b) Hpool) as (_ & Hpool' & _).
  destruct (BytePool_GetAtLeast (bytePool w) (length b)) as [buf bp]. simpl in Hslice, Hsl, Hpool'.
  rewrite Hslice. cbn [mbind option_bind].
  unfold Read, net_Conn_Reader, net.Read. rewrite Hsl, Hrecv. cbn [mbind option_bind].
  rewrite copy_short by lia. rewrite take_app_length.
  assert (Hdecrypt :
    (if 0 <? length data
     then '(ci, d0) ← Cipher_decrypt (cipher c) (take (length data) b) data;
          Some (ci, d0 ++ drop (length data) b)
     else Some (cipher c, b))
    = Some (mkCipher (enc (cipher c)) (Some d') (key (cipher c)),
            pt ++ drop (length data) b)).
  { destruct (Nat.ltb_spec 0 (length data)) as [Hpos|Hzero].
    - unfold Cipher_decrypt. rewrite Hdec. cbn [mbind option_bind].
      rewrite XORKeyStream_steps, Hsteps; [done|done|rewrite length_take; lia].
    - destruct data; [|simpl in Hzero; lia]. simpl in Hsteps.
      injection Hsteps as <- <-. simpl. rewrite <- Hdec. by destruct (cipher c). }
  rewrite Hdecrypt. cbn [mbind option_bind].
  exists t', data, err, d', pt. eexists. split_and!; try done.
  simpl. apply BytePool_Put_spec, Hpool'.
Qed.

(** C2.  On a connection whose decrypt stream is not yet set, [Read(b)]
    first calls [io.ReadFull] on the transport with a 16-byte buffer.  If
    that fails, [Read] returns the error with count 0, and [b], the pool
    and the cipher are as before.  If not, exactly 16 bytes have been taken
    (the first 16 the transport had) and are given to [initDecrypt] as the
    IV; if that fails, [Read] returns its error with count 0 and [b]
    unchanged; if not, the decrypt stream is the CFB decrypter started at
    the IV, and [Read] goes on as it does on a connection whose decrypt
    stream is set.  There, it reads the transport once, with room for
    [len(b)] bytes, decrypts the [n] bytes delivered, if any, into
    [b[:n]], leaves [b[n:]] as it was, and returns [n] and the error of that
    one read, whatever they are. *)
Theorem Conn_Read_iv_then_decrypt (w : World) (c : Conn) (b : list byte) :
  (dec (cipher c) = None ->
   forall t iv k err,
     io.ReadFull (conn c) (make aes.BlockSize) = Some (t, iv, k, err) ->
     (forall e, err = Some e ->
        Conn_Read w c b = Some (w, mkEncConn t (cipher c), b, 0, Some e)) /\
     (err = None ->
        k = 16 /\ length iv = 16 /\
        (16 <= length (inbound_bytes (net.inbound (conn c))) ->
           iv = take 16 (inbound_bytes (net.inbound (conn c))) /\
           inbound_bytes (net.inbound t)
             = drop 16 (inbound_bytes (net.inbound (conn c)))) /\
        forall ci err',
          Cipher_initDecrypt (cipher c) iv = Some (ci, err') ->
          (forall e, err' = Some e ->
             Conn_Read w c b = Some (w, mkEncConn t ci, b, 0, Some e)) /\
          (err' = None ->
             (exists blk d,
                aes.NewCipher (key (cipher c)) = inl blk /\
                crypto_cipher.NewCFBDecrypter blk iv = Some d /\
                dec ci = Some d) /\
             Conn_Read w c b = Conn_Read w (mkEncConn t ci) b))) /\
  (forall d, dec (cipher c) = Some d -> cfb_ok d -> pool_ok (bytePool w) ->
   exists t' data err d' pt w',
     net.recv (conn c) (length b) = (t', data, err) /\
     crypto_cipher.XORKeyStream d (make (length data)) data = Some (d', pt) /\
     length pt = length data /\ length data <= length b /\
     Conn_Read w c b =
       Some (w', mkEncConn t' (mkCipher (enc (cipher c)) (Some d') (key (cipher c))),
             pt ++ drop (length data) b, length data, err) /\
     pool_ok (bytePool w') /\ cfb_ok d').
Proof.
  split.
  - intros Hdec t iv k err Hread. split.
    + intros e ->. unfold Conn_Read. rewrite Hdec, Hread. reflexivity.
    + intros ->.
      destruct (ReadAtLeast_net _ _ _ _ _ _ _ Hread) as (_ & _ & Hlen & Hk & Hmin).
      rewrite length_make in *. specialize (Hmin eq_refl).
      split; [unfold aes.BlockSize in *; lia|]. split; [exact Hlen|]. split.
      * intros Hview.
        destruct (ReadFull_net_view (conn c) (make aes.BlockSize)) as (t0 & Hr & Hv).
        { by rewrite length_make. }
        rewrite length_make in Hr, Hv. rewrite Hread in Hr.
        injection Hr as -> -> _. by split.
      * intros ci err' Hinit. split.
        -- intros e ->. unfold Conn_Read. rewrite Hdec, Hread.
           cbn [mbind option_bind cipher conn]. rewrite Hinit. reflexivity.
        -- intros ->.
           destruct (Cipher_initDecrypt_cases _ _ _ _ Hinit)
             as [(e & He & _)|(_ & blk & d & Hblk & Hd & ->)]; [done|].
           split; [by exists blk, d|].
           unfold Conn_Read at 1. rewrite Hdec, Hread.
           cbn [mbind option_bind cipher conn]. rewrite Hinit.
           cbn [mbind option_bind]. unfold Conn_Read. reflexivity.
  - intros d Hdec Hok Hpool.
    destruct (Conn_Read_ready w c b d Hpool Hdec Hok)
      as (t' & data & err & d' & pt & w' & Hrecv & Hsteps & Hread & Hl1 & Hl2 & Hp & _ & Hok').
    exists t', data, err, d', pt, w'. split_and!; try done.
    rewrite XORKeyStream_steps; [done|done|apply length_make].
Qed.

(** A failed IV read, and a read on a connection whose stream is set. *)
Lemma Conn_Read_iv_then_decrypt_witness :
  Conn_Read sample_world
    (NewConn (client_sends (bytes_of [1; 2; 3; 4; 5])) (NewCipher "aes-256-cfb" "pw"))
    (make 8)
  = Some (sample_world, NewConn (net.mkConn [] [] []) (NewCipher "aes-256-cfb" "pw"),
          make 8, 0, Some ErrUnexpectedEOF) /\
  exists d t' data err d' pt w',
    net.recv (client_sends sample_payload) 8 = (t', data, err) /\
    Conn_Read sample_world
      (NewConn (client_sends sample_payload)
         (mkCipher None (Some d) (toKey "aes-256-cfb" "pw"))) (make 8)
    = Some (w', mkEncConn t' (mkCipher None (Some d') (toKey "aes-256-cfb" "pw")),
            pt ++ drop (length data) (make 8), length data, err).
Proof.
  split.
  - refine (proj1 (proj1 (Conn_Read_iv_then_decrypt sample_world
             (NewConn (client_sends (bytes_of [1; 2; 3; 4; 5])) (NewCipher "aes-256-cfb" "pw"))
             (make 8)) eq_refl (net.mkConn [] [] []) (bytes_of [1; 2; 3; 4; 5] ++ make 11) 5
             (Some ErrUnexpectedEOF) _) ErrUnexpectedEOF eq_refl).
    vm_compute. reflexivity.
  - destruct (Cipher_initDecrypt_spec (NewCipher "aes-256-cfb" "pw") (make 16)
                (toKey_valid_key_size _ _) eq_refl) as (blk & d & _ & _ & Hok & _).
    destruct (proj2 (Conn_Read_iv_then_decrypt sample_world
                (NewConn (client_sends sample_payload)
                   (mkCipher None (Some d) (toKey "aes-256-cfb" "pw"))) (make 8))
                d eq_refl Hok (NewBytePool_ok _ _))
      as (t' & data & err & d' & pt & w' & Hrecv & _ & _ & _ & Hread & _).
    exists d, t', data, err, d', pt, w'. split; [exact Hrecv|exact Hread].
Defined.

(* ===================================================================== *)
(** ** The encrypting connection as a stream of plain text                *)
(* ===================================================================== *)

Lemma Conn_Read_view_ready (w : World) (c : Conn) (p : list byte) (d : cfb) :
  Conn_ok (w, c) -> dec (cipher c) = Some d ->
  p <> [] -> length p <= length (plaintext_ahead c) ->
  exists wc' n,
    Read (w, c) p = Some (wc', take n (plaintext_ahead c) ++ drop n p, n, None) /\
    1 <= n /\ n <= length p /\
    plaintext_ahead wc'.2 = drop n (plaintext_ahead c) /\ Conn_ok wc'.
Proof.
  intros [Hpool (Hkey & Hencok & Hdecok)] Hdec Hp Hlen. simpl in Hpool.
  pose proof (Hdecok d Hdec) as Hok.
  unfold plaintext_ahead in *. rewrite Hdec in *.
  set (s := inbound_bytes (net.inbound (conn c))) in *.
  rewrite stream_out_length in Hlen by done.
  assert (Hk : 1 <= length p) by (destruct p; simpl; [done|lia]).
  destruct (net_recv_view (conn c) (length p) Hk Hlen)
    as (t1 & data1 & Hrecv1 & Hdata & Hd1 & Hd2 & Hview & _).
  destruct (Conn_Read_ready w c p d Hpool Hdec Hok)
    as (t' & data & err & d' & pt & w' & Hrecv & Hsteps & Hread & Hl1 & Hl2 & Hp' & _ & Hok').
  rewrite Hrecv1 in Hrecv. injection Hrecv as <- <- <-.
  fold s in Hdata, Hview.
  assert (Hs : s = data1 ++ drop (length data1) s).
  { rewrite Hdata at 1. by rewrite take_drop. }
  assert (Hout : stream_out d s = pt ++ stream_out d' (drop (length data1) s)).
  { rewrite Hs at 1. by apply stream_out_app. }
  exists (w', mkEncConn t1 (mkCipher (enc (cipher c)) (Some d') (key (cipher c)))),
         (length data1).
  split_and!; try done.
  - unfold Read, Conn_Reader. cbn [fst snd]. rewrite Hread. cbn [mbind option_bind].
    rewrite Hout, take_app_length' by done. reflexivity.
  - cbn [snd cipher conn dec]. rewrite Hview, Hout.
    by rewrite drop_app_length' by done.
  - split; [done|]. cbn [snd cipher]. unfold Cipher_ok. cbn [key enc dec].
    split_and!; [done|done|]. by intros ? [= <-].
Qed.

Lemma Conn_Read_view (wc : World * Conn) (p : list byte) :
  Conn_ok wc -> p <> [] -> length p <= length (plaintext_ahead wc.2) ->
  exists wc' n,
    Read wc p = Some (wc', take n (plaintext_ahead wc.2) ++ drop n p, n, None) /\
    1 <= n /\ n <= length p /\
    plaintext_ahead wc'.2 = drop n (plaintext_ahead wc.2) /\ Conn_ok wc'.
Proof.
  destruct wc as [w c]. cbn [fst snd]. intros Hok Hp Hlen.
  destruct (dec (cipher c)) as [d|] eqn:Hdec; [by eapply Conn_Read_view_ready|].
  pose proof Hok as [Hpool (Hkey & Hencok & _)]. cbn [fst snd] in Hpool, Hkey, Hencok.
  assert (Hk : 1 <= length p) by (destruct p; simpl; [done|lia]).
  unfold plaintext_ahead in Hlen. rewrite Hdec in Hlen.
  set (s := inbound_bytes (net.inbound (conn c))) in *.
  destruct (aes_NewCipher_valid (key (cipher c)) Hkey) as (blk & Hblk & Hbs & Hblkok).
  rewrite Hblk in Hlen.
  destruct (crypto_cipher.NewCFBDecrypter blk (take aes.BlockSize s)) as [d|] eqn:Hd;
    [|simpl in Hlen; lia].
  assert (Hiv : length (take aes.BlockSize s) = aes.BlockSize).
  { destruct (decide (length (take aes.BlockSize s) = BlockSize blk)) as [E|E];
      [by rewrite E|].
    unfold crypto_cipher.NewCFBDecrypter in Hd.
    by rewrite newCFB_bad_iv in Hd. }
  assert (Hs16 : aes.BlockSize <= length s).
  { rewrite length_take in Hiv. lia. }
  destruct (newCFB_ok blk (take aes.BlockSize s) true Hblkok) as (d0 & Hd0 & Hdok & _).
  { by rewrite Hiv. }
  unfold crypto_cipher.NewCFBDecrypter in Hd. rewrite Hd in Hd0. injection Hd0 as <-.
  destruct (ReadFull_net_view (conn c) (make aes.BlockSize)) as (t & Hr & Hv).
  { by rewrite length_make. }
  rewrite length_make in Hr, Hv. fold s in Hr, Hv.
  set (c1 := mkEncConn t (mkCipher (enc (cipher c)) (Some d) (key (cipher c)))).
  assert (Hinit : Cipher_initDecrypt (cipher c) (take aes.BlockSize s)
                  = Some (cipher c1, None)).
  { unfold Cipher_initDecrypt. rewrite Hblk, Hiv, Nat.eqb_refl. cbn [negb].
    unfold crypto_cipher.NewCFBDecrypter. by rewrite Hd. }
  assert (Hsame : Conn_Read w c p = Conn_Read w c1 p).
  { unfold Conn_Read at 1. rewrite Hdec, Hr. cbn [mbind option_bind cipher conn].
    rewrite Hinit. cbn [mbind option_bind]. unfold Conn_Read. reflexivity. }
  assert (Hview1 : plaintext_ahead c1 = plaintext_ahead c).
  { unfold plaintext_ahead. rewrite Hdec, Hblk. fold s.
    unfold crypto_cipher.NewCFBDecrypter. rewrite Hd.
    unfold c1. cbn [cipher conn dec]. by rewrite Hv. }
  destruct (Conn_Read_view_ready w c1 p d) as (wc' & n & Hread & Hn1 & Hn2 & Hv' & Hok').
  - split; [done|]. unfold c1. cbn [snd cipher]. unfold Cipher_ok. cbn [key enc dec].
    split_and!; [done|done|]. by intros ? [= <-].
  - reflexivity.
  - done.
  - rewrite Hview1. unfold plaintext_ahead. rewrite Hdec, Hblk. fold s.
    unfold crypto_cipher.NewCFBDecrypter. by rewrite Hd.
  - exists wc', n. rewrite <- Hview1. split_and!; try done.
    unfold Read, Conn_Reader in *. cbn [fst snd] in *. by rewrite Hsame.
Qed.

Lemma Conn_ReadFull_slice (wc : World * Conn) (buf : list byte) (i j : nat) :
  Conn_ok wc -> i <= j -> j <= length buf -> j - i <= length (plaintext_ahead wc.2) ->
  exists wc',
    ReadFull_slice wc buf i j =
      Some (wc', take i buf ++ take (j - i) (plaintext_ahead wc.2) ++ drop j buf, None) /\
    plaintext_ahead wc'.2 = drop (j - i) (plaintext_ahead wc.2) /\ Conn_ok wc'.
Proof.
  apply (ReadFull_slice_view (fun wc => plaintext_ahead wc.2) Conn_ok Conn_Read_view).
Qed.

(* ===================================================================== *)
(** ** Host names                                                         *)
(* ===================================================================== *)

Lemma has_colon_app (s1 s2 : string) :
  net.has_colon (s1 +:+ s2) = net.has_colon s1 || net.has_colon s2.
Proof.
  unfold net.has_colon. induction s1 as [|a s1 IH]; simpl; [done|].
  by rewrite IH, orb_assoc.
Qed.

Lemma has_colon_digits (d : Decimal.uint) :
  net.has_colon (NilEmpty.string_of_uint d) = false.
Proof. induction d; simpl; try done; unfold net.has_colon in *; simpl; done. Qed.

Lemma has_colon_Itoa (n : nat) : net.has_colon (strconv.Itoa n) = false.
Proof.
  unfold strconv.Itoa, NilZero.string_of_uint.
  destruct (Nat.to_uint n) eqn:E; try apply has_colon_digits. done.
Qed.

Lemma has_colon_dotted (ip : list byte) : net.has_colon (net.dotted ip) = false.
Proof. unfold net.dotted. by rewrite !has_colon_app, !has_colon_Itoa. Qed.

Lemma JoinHostPort_dotted (ip : list byte) (port : string) :
  net.JoinHostPort (net.dotted ip) port = net.dotted ip +:+ ":" +:+ port.
Proof. unfold net.JoinHostPort. by rewrite has_colon_dotted. Qed.

(* ===================================================================== *)
(** ** The address decoder of the server                                  *)
(* ===================================================================== *)

(** The first step of [readTargetHost]: the address type. *)
Lemma readTargetHost_type (wc : World * Conn) (t : byte) (s : list byte) :
  Conn_ok wc -> plaintext_ahead wc.2 = t :: s ->
  exists wc1,
    ReadFull_slice wc (make 269) 0 1 = Some (wc1, t :: make 268, None) /\
    plaintext_ahead wc1.2 = s /\ Conn_ok wc1.
Proof.
  intros Hok Hview.
  destruct (Conn_ReadFull_slice wc (make 269) 0 1 Hok) as (wc1 & Hr & Hv & Hok1);
    [lia|rewrite length_make; lia|rewrite Hview; simpl; lia|].
  rewrite Hview in Hr, Hv. exists wc1. split; [|done]. rewrite Hr. reflexivity.
Qed.

(** [readTargetHost] on an address of a known type: [k] more bytes. *)
Lemma readTargetHost_fixed (wc : World * Conn) (t : byte) (addr s : list byte)
    (ph pl : byte) (k : nat) :
  Conn_ok wc ->
  (t = typeIPv4 /\ k = net.IPv4len) \/ (t = typeIPv6 /\ k = net.IPv6len) ->
  length addr = k ->
  plaintext_ahead wc.2 = t :: addr ++ ph :: pl :: s ->
  exists wc',
    readTargetHost wc =
      Some (wc'.1, wc'.2,
            net.JoinHostPort (net.IP_String addr) (strconv.Itoa (int ph * 256 + int pl)),
            None) /\
    plaintext_ahead wc'.2 = s /\ Conn_ok wc'.
Proof.
  intros Hok Ht Hlen Hview.
  destruct (readTargetHost_type wc t _ Hok Hview) as (wc1 & Hr1 & Hv1 & Hok1).
  assert (Hk : k = 4 \/ k = 16) by (destruct Ht as [[_ ->]|[_ ->]]; auto).
  destruct (Conn_ReadFull_slice wc1 (t :: make 268) 1 (1 + k + 2) Hok1) as (wc2 & Hr2 & Hv2 & Hok2).
  { lia. }
  { cbn [length]. rewrite length_make. lia. }
  { rewrite Hv1, length_app. cbn [length]. lia. }
  replace (1 + k + 2 - 1) with (k + 2) in Hr2, Hv2 by lia.
  rewrite Hv1 in Hr2, Hv2.
  assert (Htake : take (k + 2) (addr ++ ph :: pl :: s) = addr ++ [ph; pl]).
  { rewrite take_app_add' by done. reflexivity. }
  assert (Hdrop : drop (k + 2) (addr ++ ph :: pl :: s) = s).
  { rewrite drop_app_add' by done. reflexivity. }
  rewrite Htake in Hr2. rewrite Hdrop in Hv2.
  set (buf2 := take 1 (t :: make 268) ++ (addr ++ [ph; pl]) ++ drop (1 + k + 2) (t :: make 268)) in Hr2.
  assert (Hbuf2 : buf2 = (t :: addr) ++ [ph; pl] ++ drop (1 + k + 2) (t :: make 268)).
  { unfold buf2. simpl. by rewrite <- app_assoc. }
  assert (Haddr : drop 1 (take (1 + k) buf2) = addr).
  { rewrite Hbuf2. rewrite take_app_length' by (simpl; lia). reflexivity. }
  assert (Hport : drop (1 + k + 2 - 2) (take (1 + k + 2) buf2) = [ph; pl]).
  { rewrite Hbuf2. rewrite app_assoc.
    rewrite take_app_length' by (rewrite length_app; simpl; lia).
    replace (1 + k + 2 - 2) with (length (t :: addr)) by (simpl; lia).
    by rewrite drop_app_length. }
  exists wc2. split; [|done].
  unfold readTargetHost. rewrite Hr1. cbn [mbind option_bind].
  change (at_ (t :: make 268) 0) with t.
  destruct Ht as [[-> ->]|[-> ->]].
  - change (Byte.eqb typeIPv4 typeIPv4) with true. cbv iota. cbn [mbind option_bind].
    rewrite Hr2. cbn [mbind option_bind]. rewrite Haddr, Hport.
    destruct wc2; reflexivity.
  - change (Byte.eqb typeIPv6 typeIPv4) with false.
    change (Byte.eqb typeIPv6 typeIPv6) with true. cbv iota. cbn [mbind option_bind].
    rewrite Hr2. cbn [mbind option_bind]. rewrite Haddr, Hport.
    destruct wc2; reflexivity.
Qed.

(** [readTargetHost] on a domain name: the length, then the name and the
    port. *)
Lemma readTargetHost_domain (wc : World * Conn) (L : byte) (name s : list byte)
    (ph pl : byte) :
  Conn_ok wc ->
  length name = int L ->
  plaintext_ahead wc.2 = typeDomain :: L :: name ++ ph :: pl :: s ->
  exists wc',
    readTargetHost wc =
      Some (wc'.1, wc'.2,
            net.JoinHostPort (string_of_bytes name) (strconv.Itoa (int ph * 256 + int pl)),
            None) /\
    plaintext_ahead wc'.2 = s /\ Conn_ok wc'.
Proof.
  intros Hok Hlen Hview.
  assert (HL : int L <= 255) by apply Byte.to_nat_bounded.
  destruct (readTargetHost_type wc typeDomain _ Hok Hview) as (wc1 & Hr1 & Hv1 & Hok1).
  destruct (Conn_ReadFull_slice wc1 (typeDomain :: make 268) 1 2 Hok1)
    as (wc2 & Hr2 & Hv2 & Hok2).
  { lia. }
  { cbn [length]. rewrite length_make. lia. }
  { rewrite Hv1. cbn [length]. lia. }
  rewrite Hv1 in Hr2, Hv2.
  change (take 1 (typeDomain :: make 268) ++ take (2 - 1) (L :: name ++ ph :: pl :: s)
            ++ drop 2 (typeDomain :: make 268))
    with (typeDomain :: L :: make 267) in Hr2.
  change (drop (2 - 1) (L :: name ++ ph :: pl :: s)) with (name ++ ph :: pl :: s) in Hv2.
  set (k := int L) in *.
  destruct (Conn_ReadFull_slice wc2 (typeDomain :: L :: make 267) 2 (2 + k + 2) Hok2)
    as (wc3 & Hr3 & Hv3 & Hok3).
  { lia. }
  { cbn [length]. rewrite length_make. lia. }
  { rewrite Hv2, length_app. cbn [length]. lia. }
  replace (2 + k + 2 - 2) with (k + 2) in Hr3, Hv3 by lia.
  rewrite Hv2 in Hr3, Hv3.
  assert (Htake : take (k + 2) (name ++ ph :: pl :: s) = name ++ [ph; pl]).
  { rewrite take_app_add' by done. reflexivity. }
  assert (Hdrop : drop (k + 2) (name ++ ph :: pl :: s) = s).
  { rewrite drop_app_add' by done. reflexivity. }
  rewrite Htake in Hr3. rewrite Hdrop in Hv3.
  set (buf3 := take 2 (typeDomain :: L :: make 267) ++ (name ++ [ph; pl])
                 ++ drop (2 + k + 2) (typeDomain :: L :: make 267)) in Hr3.
  assert (Hbuf3 : buf3 = (typeDomain :: L :: name) ++ [ph; pl]
                           ++ drop (2 + k + 2) (typeDomain :: L :: make 267)).
  { unfold buf3. simpl. by rewrite <- app_assoc. }
  assert (HL1 : at_ buf3 1 = L) by reflexivity.
  assert (Hname : drop 2 (take (2 + k) buf3) = name).
  { rewrite Hbuf3. rewrite take_app_length' by (simpl; lia). reflexivity. }
  assert (Hport : drop (2 + k + 2 - 2) (take (2 + k + 2) buf3) = [ph; pl]).
  { rewrite Hbuf3. rewrite app_assoc.
    rewrite take_app_length' by (rewrite length_app; simpl; lia).
    replace (2 + k + 2 - 2) with (length (typeDomain :: L :: name)) by (simpl; lia).
    by rewrite drop_app_length. }
  exists wc3. split; [|done].
  unfold readTargetHost. rewrite Hr1. cbn [mbind option_bind].
  change (at_ (typeDomain :: make 268) 0) with typeDomain.
  change (Byte.eqb typeDomain typeIPv4) with false.
  change (Byte.eqb typeDomain typeIPv6) with false.
  change (Byte.eqb typeDomain typeDomain) with true. cbv iota.
  rewrite Hr2. cbn [mbind option_bind].
  change (at_ (typeDomain :: L :: make 267) 1) with L. fold k.
  rewrite Hr3. cbn [mbind option_bind]. rewrite HL1. fold k.
  rewrite Hname, Hport. destruct wc3; reflexivity.
Qed.

Lemma readTargetHost_unsupported (wc : World * Conn) (t : byte) (s : list byte) :
  Conn_ok wc ->
  t <> typeIPv4 -> t <> typeDomain -> t <> typeIPv6 ->
  plaintext_ahead wc.2 = t :: s ->
  exists wc',
    readTargetHost wc = Some (wc'.1, wc'.2, "", Some ErrNotSupportedAddrType) /\
    plaintext_ahead wc'.2 = s /\ Conn_ok wc'.
Proof.
  intros Hok H4 H3 H6 Hview.
  destruct (readTargetHost_type wc t _ Hok Hview) as (wc1 & Hr1 & Hv1 & Hok1).
  exists wc1. split; [|done].
  unfold readTargetHost. rewrite Hr1. cbn [mbind option_bind].
  change (at_ (t :: make 268) 0) with t.
  destruct (byte_eqb_spec t typeIPv4); [done|].
  destruct (byte_eqb_spec t typeIPv6); [done|].
  destruct (byte_eqb_spec t typeDomain); [done|].
  cbn [mbind option_bind]. destruct wc1; reflexivity.
Qed.

(** C4.  Let the connection have a given plain text ahead of it (what its
    reads will decrypt, however the cipher text arrives), and let the state
    be one the program can reach.  [readTargetHost] takes from it one type
    byte, and then: for type 1, 4 address bytes and 2 port bytes, and
    returns the dotted decimal address, a colon and the port in decimal;
    for type 4, 16 address bytes and 2 port bytes, and returns the text of
    the address joined with the port; for type 3, one length byte L, then L
    bytes of name and 2 port bytes, and returns the name joined with the
    port; for any other type byte, nothing more, and fails with the
    unsupported-address-type error.  The port is the big-endian value of
    its two bytes, and the plain text left ahead is what followed the
    bytes taken. *)
Theorem readTargetHost_decode (w : World) (c : Conn) (rest : list byte) :
  Conn_ok (w, c) ->
  (forall a0 a1 a2 a3 ph pl,
     plaintext_ahead c = typeIPv4 :: a0 :: a1 :: a2 :: a3 :: ph :: pl :: rest ->
     exists w' c',
       readTargetHost (w, c) =
         Some (w', c',
               net.dotted [a0; a1; a2; a3] +:+ ":"
                 +:+ strconv.Itoa (int ph * 256 + int pl), None) /\
       plaintext_ahead c' = rest) /\
  (forall ip ph pl,
     length ip = 16 ->
     plaintext_ahead c = typeIPv6 :: ip ++ ph :: pl :: rest ->
     exists w' c',
       readTargetHost (w, c) =
         Some (w', c',
               net.JoinHostPort (net.IP_String ip) (strconv.Itoa (int ph * 256 + int pl)),
               None) /\
       plaintext_ahead c' = rest) /\
  (forall L name ph pl,
     length name = int L ->
     plaintext_ahead c = typeDomain :: L :: name ++ ph :: pl :: rest ->
     exists w' c',
       readTargetHost (w, c) =
         Some (w', c',
               net.JoinHostPort (string_of_bytes name)
                 (strconv.Itoa (int ph * 256 + int pl)), None) /\
       plaintext_ahead c' = rest) /\
  (forall t,
     t <> typeIPv4 -> t <> typeDomain -> t <> typeIPv6 ->
     plaintext_ahead c = t :: rest ->
     exists w' c',
       readTargetHost (w, c) = Some (w', c', "", Some ErrNotSupportedAddrType) /\
       plaintext_ahead c' = rest).
Proof.
  intros Hok. split_and!.
  - intros a0 a1 a2 a3 ph pl Hview.
    destruct (readTargetHost_fixed (w, c) typeIPv4 [a0; a1; a2; a3] rest ph pl 4 Hok)
      as ([w' c'] & Hr & Hv & _); [by left|done|exact Hview|].
    exists w', c'. split; [|exact Hv]. rewrite Hr.
    change (net.IP_String [a0; a1; a2; a3]) with (net.dotted [a0; a1; a2; a3]).
    by rewrite JoinHostPort_dotted.
  - intros ip ph pl Hlen Hview.
    destruct (readTargetHost_fixed (w, c) typeIPv6 ip rest ph pl 16 Hok)
      as ([w' c'] & Hr & Hv & _); [by right|done|exact Hview|].
    exists w', c'. by split.
  - intros L name ph pl Hlen Hview.
    destruct (readTargetHost_domain (w, c) L name rest ph pl Hok Hlen Hview)
      as ([w' c'] & Hr & Hv & _).
    exists w', c'. by split.
  - intros t H4 H3 H6 Hview.
    destruct (readTargetHost_unsupported (w, c) t rest Hok H4 H3 H6 Hview)
      as ([w' c'] & Hr & Hv & _).
    exists w', c'. by split.
Qed.

(** The server decodes the record that the local agent has encrypted. *)
Lemma readTargetHost_decode_witness :
  exists w' c',
    readTargetHost (sample_world, sample_server) = Some (w', c', "example.com:443", None) /\
    plaintext_ahead c' = [].
Proof.
  destruct (readTargetHost_decode sample_world sample_server []) as (_ & _ & Hdomain & _).
  { split; [apply NewBytePool_ok|apply NewCipher_ok]. }
  destruct (Hdomain Byte.x0b (list_byte_of_string "example.com") Byte.x01 Byte.xbb)
    as (w' & c' & Hr & Hv).
  - reflexivity.
  - vm_compute. reflexivity.
  - exists w', c'. split; [|exact Hv]. rewrite Hr. reflexivity.
Defined.

(* ===================================================================== *)
(** ** The states the program can reach                                   *)
(* ===================================================================== *)

(** The conditions under which the properties of [Read] and [Write] are
    stated hold when a connection is set up over the initial pool, and
    [Read] and [Write] keep them, whatever they return. *)
Lemma Conn_ok_init (rnd : rand.Source) (t : net.Conn) (method password : string) :
  Conn_ok (mkWorld bytePool_init rnd, NewConn t (NewCipher method password)).
Proof. split; [apply NewBytePool_ok|apply NewCipher_ok]. Qed.

Lemma Conn_Write_ok (w : World) (c : Conn) (b : list byte) w' c' n err :
  Conn_ok (w, c) -> Conn_Write w c b = Some (w', c', n, err) -> Conn_ok (w', c').
Proof.
  intros [Hpool (Hkey & Hencok & Hdecok)] Hcall. cbn [fst snd] in *.
  destruct (enc (cipher c)) as [e|] eqn:Henc.
  - destruct (Conn_Write_later w c b e Hpool Henc (Hencok e eq_refl))
      as (e' & ct & w1 & t1 & n1 & err1 & _ & _ & _ & Heq & _ & _ & _ & Hpool' & Hok').
    rewrite Heq in Hcall. injection Hcall as <- <- <- <-.
    split; [done|]. cbn [snd cipher]. unfold Cipher_ok. cbn [key enc dec].
    split_and!; [done| |done]. by intros ? [= <-].
  - destruct (Conn_Write_first w c b Hpool Hkey Henc)
      as (blk & e & e' & ct & w1 & t1 & n1 & err1 & _ & _ & _ & _ & _ & _ & Heq & _ & _ & _
          & Hpool' & Hok').
    rewrite Heq in Hcall. injection Hcall as <- <- <- <-.
    split; [done|]. cbn [snd cipher]. unfold Cipher_ok. cbn [key enc dec].
    split_and!; [done| |done]. by intros ? [= <-].
Qed.

Lemma Conn_Read_ok (w : World) (c : Conn) (b : list byte) w' c' b' n err :
  Conn_ok (w, c) -> Conn_Read w c b = Some (w', c', b', n, err) -> Conn_ok (w', c').
Proof.
  intros [Hpool Hcok] Hcall. cbn [fst snd] in *.
  pose proof Hcok as (Hkey & Hencok & Hdecok).
  assert (Hready : forall c1 d, key (cipher c1) = key (cipher c) ->
            enc (cipher c1) = enc (cipher c) -> dec (cipher c1) = Some d -> cfb_ok d ->
            Conn_Read w c1 b = Some (w', c', b', n, err) -> Conn_ok (w', c')).
  { intros c1 d Hk He Hd Hok Hcall1.
    destruct (Conn_Read_ready w c1 b d Hpool Hd Hok)
      as (t1 & data & err1 & d' & pt & w1 & _ & _ & Heq & _ & _ & Hpool' & _ & Hok').
    rewrite Heq in Hcall1. injection Hcall1 as <- <- <- <- <-.
    split; [done|]. cbn [snd cipher]. unfold Cipher_ok. cbn [key enc dec].
    rewrite Hk, He. split_and!; [done|done|]. by intros ? [= <-]. }
  destruct (dec (cipher c)) as [d|] eqn:Hdec.
  { apply (Hready c d); auto. }
  unfold Conn_Read in Hcall. rewrite Hdec in Hcall.
  destruct (io.ReadFull (conn c) (make aes.BlockSize)) as [[[[t iv] k] e]|]; [|done].
  cbn [mbind option_bind cipher conn] in Hcall.
  destruct e as [e|].
  { cbn [mbind option_bind] in Hcall. injection Hcall as <- <- <- <- <-. by split. }
  destruct (Cipher_initDecrypt (cipher c) iv) as [[ci e']|] eqn:Hinit; [|done].
  cbn [mbind option_bind] in Hcall.
  destruct (Cipher_initDecrypt_cases _ _ _ _ Hinit)
    as [(e & -> & ->)|(-> & blk & d & Hblk & Hd & ->)].
  { injection Hcall as <- <- <- <- <-. by split. }
  destruct (aes_NewCipher_valid (key (cipher c)) Hkey) as (blk' & Hblk' & Hbs & Hblkok).
  rewrite Hblk in Hblk'. injection Hblk' as <-.
  assert (Hdok : cfb_ok d).
  { destruct (decide (length iv = BlockSize blk)) as [E|E].
    - destruct (newCFB_ok blk iv true Hblkok E) as (d0 & Hd0 & Hok0 & _).
      unfold crypto_cipher.NewCFBDecrypter in Hd. congruence.
    - unfold crypto_cipher.NewCFBDecrypter in Hd. by rewrite newCFB_bad_iv in Hd. }
  apply (Hready (mkEncConn t (mkCipher (enc (cipher c)) (Some d) (key (cipher c)))) d);
    try done.
Qed.

(* ===================================================================== *)
(** ** Known answers                                                      *)
(* ===================================================================== *)

(** The models of the library functions give the published test vectors:
    SHA-256 of "abc" (FIPS 180-4), the AES-128 and AES-256 examples of
    FIPS 197, and the text forms of some IPv6 addresses. *)
Example Sum256_abc :
  sha256.Sum256 (list_byte_of_string "abc")
  = bytes_of_hex "ba7816bf8f01cfea414140de5dae2223b00361a396177a9cb410ff61f20015ad".
Proof. vm_compute. reflexivity. Qed.

Example aes128_fips197 :
  (match aes.NewCipher (bytes_of_hex "000102030405060708090a0b0c0d0e0f") with
   | inl blk => Encrypt blk (make 16) (bytes_of_hex "00112233445566778899aabbccddeeff")
   | inr _ => None
   end) = Some (bytes_of_hex "69c4e0d86a7b0430d8cdb78070b4c55a").
Proof. vm_compute. reflexivity. Qed.

Example aes256_fips197 :
  (match aes.NewCipher
           (bytes_of_hex "000102030405060708090a0b0c0d0e0f101112131415161718191a1b1c1d1e1f") with
   | inl blk => Encrypt blk (make 16) (bytes_of_hex "00112233445566778899aabbccddeeff")
   | inr _ => None
   end) = Some (bytes_of_hex "8ea2b7ca516745bfeafc49904b496089").
Proof. vm_compute. reflexivity. Qed.

Example IP_String_samples :
  net.IP_String (bytes_of [127; 0; 0; 1]) = "127.0.0.1" /\
  net.IP_String (bytes_of_hex "20010db8000000000000000000000001") = "2001:db8::1" /\
  net.IP_String (bytes_of_hex "00000000000000000000ffff0a000001") = "10.0.0.1" /\
  net.JoinHostPort "::1" (strconv.Itoa 443) = "[::1]:443".
Proof. vm_compute. auto. Qed.

(** The first write of the local agent for example.com:443: the IV and then
    the cipher text, as AES-256-CFB under SHA-256("pw") gives it. *)
Example sample_wire_known :
  sample_wire
  = bytes_of_hex "262d343b424950575e656c737a81888fb64f339ad07df5105c378ffda4cf64".
Proof. vm_compute. reflexivity. Qed.

(* ===================================================================== *)
(** ** The buffer pool: capacity and order                                *)
(* ===================================================================== *)

Lemma pool_step_capacity bp op :
  length (chan_queue (pool bp)) <= chan_cap (pool bp) ->
  length (chan_queue (pool (pool_step bp op))) <= chan_cap (pool (pool_step bp op)) /\
  chan_cap (pool (pool_step bp op)) = chan_cap (pool bp).
Proof.
  intros Hle. destruct op as [|size|b]; simpl.
  - unfold BytePool_Get, chan_try_recv.
    destruct (chan_queue (pool bp)) as [|v q] eqn:Hq; simpl in *; [rewrite Hq|]; simpl; lia.
  - unfold BytePool_GetAtLeast. destruct (bp_bufSize bp <? size); simpl; [lia|].
    unfold BytePool_Get, chan_try_recv.
    destruct (chan_queue (pool bp)) as [|v q] eqn:Hq; simpl in *; [rewrite Hq|]; simpl; lia.
  - unfold BytePool_Put, chan_try_send.
    destruct (negb (length b =? bp_bufSize bp)); simpl; [lia|].
    destruct (Nat.ltb_spec (length (chan_queue (pool bp))) (chan_cap (pool bp))); simpl.
    + rewrite length_app. simpl. lia.
    + lia.
Qed.

(** X1.  The pool never holds more buffers than its capacity: after any
    sequence of [Get], [GetAtLeast] and [Put] on a new pool of capacity
    [cap], at most [cap] buffers are queued (a [Put] on a full pool drops
    the buffer). *)
Theorem BytePool_capacity (size cap : nat) (ops : list pool_op) :
  length (chan_queue (pool (pool_run (NewBytePool size cap) ops))) <= cap /\
  chan_cap (pool (pool_run (NewBytePool size cap) ops)) = cap.
Proof.
  assert (H : forall bp,
            length (chan_queue (pool bp)) <= chan_cap (pool bp) ->
            length (chan_queue (pool (pool_run bp ops))) <= chan_cap (pool bp) /\
            chan_cap (pool (pool_run bp ops)) = chan_cap (pool bp)).
  { induction ops as [|op ops IH]; intros bp Hle; simpl; [auto|].
    destruct (pool_step_capacity bp op Hle) as [Hle' Hcap].
    destruct (IH (pool_step bp op) Hle') as [H1 H2]. rewrite <- Hcap. auto. }
  apply (H (NewBytePool size cap)). simpl. lia.
Qed.

Lemma pool_puts_queue (bs : list (list byte)) : forall bp,
  Forall (fun b => length b = bp_bufSize bp) bs ->
  bp_bufSize (pool_puts bp bs) = bp_bufSize bp /\
  chan_cap (pool (pool_puts bp bs)) = chan_cap (pool bp) /\
  chan_queue (pool (pool_puts bp bs))
    = chan_queue (pool bp)
        ++ take (chan_cap (pool bp) - length (chan_queue (pool bp))) bs.
Proof.
  induction bs as [|b bs IH]; intros bp Hall.
  - simpl. rewrite take_nil, app_nil_r. auto.
  - inversion Hall as [|? ? Hb Hrest]; subst. unfold pool_puts in *. cbn [fold_left].
    unfold BytePool_Put at 2 4 6, chan_try_send. rewrite Hb, Nat.eqb_refl. cbn [negb].
    destruct (Nat.ltb_spec (length (chan_queue (pool bp))) (chan_cap (pool bp))) as [Hlt|Hge].
    + destruct (IH (mkBytePool (bp_bufSize bp)
                      (mkChan (chan_cap (pool bp)) (chan_queue (pool bp) ++ [b]))))
        as (H1 & H2 & H3); [done|].
      cbn [bp_bufSize pool chan_cap chan_queue] in *. rewrite H1, H2, H3.
      split_and!; [done|done|]. rewrite length_app, <- app_assoc. cbn [length app].
      f_equal.
      replace (chan_cap (pool bp) - length (chan_queue (pool bp)))
        with (S (chan_cap (pool bp) - (length (chan_queue (pool bp)) + 1))) by lia.
      reflexivity.
    + destruct (IH bp Hrest) as (H1 & H2 & H3). rewrite H1, H2, H3.
      split_and!; [done|done|].
      replace (chan_cap (pool bp) - length (chan_queue (pool bp))) with 0 by lia.
      by rewrite !take_0.
Qed.

Lemma pool_gets_queue (k : nat) : forall bp,
  pool_gets bp k =
    (take k (chan_queue (pool bp))
       ++ replicate (k - length (chan_queue (pool bp))) (make (bp_bufSize bp)),
     mkBytePool (bp_bufSize bp)
       (mkChan (chan_cap (pool bp)) (drop k (chan_queue (pool bp))))).
Proof.
  induction k as [|k IH]; intros bp.
  - simpl. by destruct bp as [sz [cap q]].
  - cbn [pool_gets]. unfold BytePool_Get, chan_try_recv.
    destruct bp as [sz [cap [|v q]]]; cbn [pool chan_queue chan_cap bp_bufSize].
    + rewrite IH. cbn [pool chan_queue chan_cap bp_bufSize length].
      rewrite take_nil, drop_nil, Nat.sub_0_r. reflexivity.
    + rewrite IH. cbn [pool chan_queue chan_cap bp_bufSize length]. reflexivity.
Qed.

(** X2.  The pool is a queue: when buffers of the pool's size are [Put] into
    an empty pool and as many are then taken with [Get], the first
    [capacity] of them come back, in the order they were put and with the
    contents they had; those beyond the capacity were dropped, and new
    zeroed buffers are handed out in their place.  The pool is empty
    again. *)
Theorem BytePool_put_get_order (bp : BytePool) (bs : list (list byte)) :
  chan_queue (pool bp) = [] ->
  Forall (fun b => length b = bp_bufSize bp) bs ->
  pool_gets (pool_puts bp bs) (length bs)
  = (take (chan_cap (pool bp)) bs
       ++ replicate (length bs - chan_cap (pool bp)) (make (bp_bufSize bp)),
     bp).
Proof.
  intros Hempty Hall.
  destruct (pool_puts_queue bs bp Hall) as (H1 & H2 & H3).
  rewrite Hempty in H3. cbn [length app] in H3. rewrite Nat.sub_0_r in H3.
  rewrite pool_gets_queue, H1, H2, H3.
  rewrite length_take.
  f_equal.
  - f_equal.
    + apply take_ge. rewrite length_take. lia.
    + f_equal. lia.
  - rewrite drop_ge by (rewrite length_take; lia).
    destruct bp as [sz [cap q]]. simpl in *. by subst.
Qed.

Lemma BytePool_put_get_order_witness :
  pool_gets (pool_puts (NewBytePool 2 2)
               [bytes_of [1; 2]; bytes_of [3; 4]; bytes_of [5; 6]]) 3
  = ([bytes_of [1; 2]; bytes_of [3; 4]; make 2], NewBytePool 2 2).
Proof.
  apply (BytePool_put_get_order (NewBytePool 2 2)
           [bytes_of [1; 2]; bytes_of [3; 4]; bytes_of [5; 6]]).
  - reflexivity.
  - repeat constructor.
Defined.

(* ===================================================================== *)
(** ** Read and Write: what they leave alone, and that they return        *)
(* ===================================================================== *)

Lemma XORKeyStream_loop_length fuel : forall x (dst src : list byte) x' o,
  crypto_cipher.XORKeyStream_loop fuel x dst src = Some (x', o) ->
  length o = length dst.
Proof.
  induction fuel as [|fuel IH]; intros x dst src x' o.
  - destruct src; simpl; [|done]. by intros [= <- <-].
  - destruct (decide (src = [])) as [->|Hne]; [simpl; by intros [= <- <-]|].
    rewrite XORKeyStream_loop_unfold by done.
    destruct (cfb_refill x) as [x1|]; [|done]. cbn [mbind option_bind]. cbv zeta.
    match goal with
    | |- context [length dst <? ?n] => destruct (Nat.ltb_spec (length dst) n) as [|Hn]; [done|]
    end.
    match goal with
    | |- context [crypto_cipher.XORKeyStream_loop fuel ?a ?b ?c] =>
        destruct (crypto_cipher.XORKeyStream_loop fuel a b c) as [[x2 rest]|] eqn:Hrec;
          [|done]
    end.
    cbn [mbind option_bind]. intros [= <- <-].
    apply IH in Hrec. rewrite length_app, Hrec, length_take, length_drop, length_app, length_drop.
    lia.
Qed.

Lemma XORKeyStream_length x (dst src : list byte) x' o :
  crypto_cipher.XORKeyStream x dst src = Some (x', o) -> length o = length dst.
Proof.
  unfold crypto_cipher.XORKeyStream.
  destruct (length dst <? length src); [done|]. apply XORKeyStream_loop_length.
Qed.

(** [Read] on a connection whose decrypt stream is set, in any state. *)
Lemma Conn_Read_ready_frame (w : World) (c : Conn) (b : list byte) (d : cfb)
    w' c' b' n err :
  dec (cipher c) = Some d ->
  Conn_Read w c b = Some (w', c', b', n, err) ->
  enc (cipher c') = enc (cipher c) /\ key (cipher c') = key (cipher c) /\
  net.writes (conn c') = net.writes (conn c) /\
  net.outcomes (conn c') = net.outcomes (conn c) /\
  randReader w' = randReader w /\
  length b' = length b /\ n <= length b /\ drop n b' = drop n b.
Proof.
  intros Hdec. unfold Conn_Read. rewrite Hdec. cbn [mbind option_bind].
  destruct (BytePool_GetAtLeast (bytePool w) (length b)) as [buf bp].
  unfold slice_to. destruct (Nat.leb_spec (length b) (length buf)) as [Hle|]; [|done].
  cbn [mbind option_bind]. unfold Read, net_Conn_Reader, net.Read.
  rewrite length_take, Nat.min_l by lia.
  destruct (net_recv_spec (conn c) (length b)) as (Hw & Ho & Hd).
  destruct (net.recv (conn c) (length b)) as [[t data] e]. cbn [fst snd] in *.
  cbn [mbind option_bind].
  destruct (Nat.ltb_spec 0 (length data)) as [Hpos|Hzero].
  - unfold Cipher_decrypt. rewrite Hdec. cbn [mbind option_bind].
    destruct (crypto_cipher.XORKeyStream d _ _) as [[d' o]|] eqn:Hx; [|done].
    cbn [mbind option_bind]. intros [= <- <- <- <- <-].
    apply XORKeyStream_length in Hx. rewrite length_take, Nat.min_l in Hx by lia.
    cbn [cipher conn enc key randReader]. split_and!; auto.
    + rewrite length_app, length_drop. lia.
    + by rewrite drop_app_length'.
  - cbn [mbind option_bind]. intros [= <- <- <- <- <-].
    cbn [cipher conn enc key randReader]. split_and!; auto with lia.
Qed.

(** The first half of [Read] on a connection whose decrypt stream is not
    set: either it fails, or [Read] goes on as on a connection whose stream
    is set. *)
Lemma Conn_Read_iv_phase (w : World) (c : Conn) (b : list byte) r :
  dec (cipher c) = None ->
  Conn_Read w c b = Some r ->
  exists t,
    net.writes t = net.writes (conn c) /\ net.outcomes t = net.outcomes (conn c) /\
    ((exists e, r = (w, mkEncConn t (cipher c), b, 0, Some e)) \/
     (exists iv blk d,
        aes.NewCipher (key (cipher c)) = inl blk /\
        crypto_cipher.NewCFBDecrypter blk iv = Some d /\
        Conn_Read w (mkEncConn t (mkCipher (enc (cipher c)) (Some d) (key (cipher c)))) b
          = Some r)).
Proof.
  intros Hdec. unfold Conn_Read at 1. rewrite Hdec.
  destruct (io.ReadFull (conn c) (make aes.BlockSize)) as [[[[t iv] k] e]|] eqn:Hread;
    [|done].
  destruct (ReadAtLeast_net _ _ _ _ _ _ _ Hread) as (Hw & Ho & _).
  cbn [mbind option_bind cipher conn]. intros Hcall.
  exists t. split; [done|]. split; [done|].
  destruct e as [e|].
  { cbn [mbind option_bind] in Hcall. injection Hcall as <-. left. eauto. }
  destruct (Cipher_initDecrypt (cipher c) iv) as [[ci e']|] eqn:Hinit; [|done].
  cbn [mbind option_bind] in Hcall.
  destruct (Cipher_initDecrypt_cases _ _ _ _ Hinit)
    as [(e & -> & ->)|(-> & blk & d & Hblk & Hd & ->)].
  { injection Hcall as <-. left. eauto. }
  right. exists iv, blk, d. split; [done|]. split; [done|].
  unfold Conn_Read. cbn [cipher dec mbind option_bind]. exact Hcall.
Qed.

(** X3.  [Read] leaves the sending half of a connection alone, in every
    state: the encrypt stream, the key, what has been written to the
    transport, the fate of the writes to come and the random source are as
    before.  It also keeps to the contract of a reader: [n <= len(b)], and
    the bytes of [b] from [n] on are unchanged. *)
Theorem Conn_Read_frame (w : World) (c : Conn) (b : list byte) w' c' b' n err :
  Conn_Read w c b = Some (w', c', b', n, err) ->
  enc (cipher c') = enc (cipher c) /\ key (cipher c') = key (cipher c) /\
  net.writes (conn c') = net.writes (conn c) /\
  net.outcomes (conn c') = net.outcomes (conn c) /\
  randReader w' = randReader w /\
  length b' = length b /\ n <= length b /\ drop n b' = drop n b.
Proof.
  intros Hcall. destruct (dec (cipher c)) as [d|] eqn:Hdec.
  - by eapply Conn_Read_ready_frame.
  - destruct (Conn_Read_iv_phase w c b _ Hdec Hcall)
      as (t & Hw & Ho & [(e & Hr)|(iv & blk & d & _ & _ & Hcall1)]).
    + injection Hr as -> -> -> -> ->. cbn [cipher conn]. split_and!; auto with lia.
    + apply (Conn_Read_ready_frame _ _ _ d) in Hcall1; [|done].
      cbn [cipher conn enc key] in Hcall1.
      destruct Hcall1 as (H1 & H2 & H3 & H4 & H5). rewrite H3, H4, Hw, Ho. auto.
Qed.

Lemma Cipher_initEncrypt_cases (rnd rnd' : rand.Source) (c ci : Cipher) iv err :
  Cipher_initEncrypt rnd c = Some (rnd', ci, iv, err) ->
  dec ci = dec c /\ key ci = key c /\
  ((exists e, err = Some e /\ ci = c) \/ (err = None /\ exists e, enc ci = Some e)).
Proof.
  unfold Cipher_initEncrypt.
  destruct (aes.NewCipher (key c)) as [blk|e]; [|intros [= <- <- <- <-]; eauto 10].
  destruct (io.ReadFull rnd (make aes.BlockSize)) as [[[[r1 iv1] k] e]|]; [|done].
  cbn [mbind option_bind]. destruct e as [e|]; [intros [= <- <- <- <-]; eauto 10|].
  destruct (crypto_cipher.NewCFBEncrypter blk iv1) as [e|]; [|done].
  cbn [mbind option_bind]. intros [= <- <- <- <-]. cbn [dec key enc]. eauto 10.
Qed.

(** X4.  [Write] leaves the receiving half of a connection alone, in every
    state: the decrypt stream, the key and what the transport has still to
    deliver are as before, and the transport has been written to at most
    once. *)
Theorem Conn_Write_frame (w : World) (c : Conn) (b : list byte) w' c' n err :
  Conn_Write w c b = Some (w', c', n, err) ->
  dec (cipher c') = dec (cipher c) /\ key (cipher c') = key (cipher c) /\
  net.inbound (conn c') = net.inbound (conn c) /\
  (net.writes (conn c') = net.writes (conn c) \/
   exists p, net.writes (conn c') = net.writes (conn c) ++ [p]).
Proof.
  rewrite Conn_Write_unfold.
  set (init := match enc (cipher c) with Some _ => _ | None => _ end).
  assert (Hinit : forall rnd ci iv e, init = Some (rnd, ci, iv, e) ->
            dec ci = dec (cipher c) /\ key ci = key (cipher c)).
  { unfold init. intros rnd ci iv e. destruct (enc (cipher c)).
    - by intros [= <- <- <- <-].
    - intros H. by destruct (Cipher_initEncrypt_cases _ _ _ _ _ _ H) as (? & ? & _). }
  destruct init as [[[[rnd ci] iv] e]|]; [|done].
  destruct (Hinit _ _ _ _ eq_refl) as [Hd Hk]. cbn [mbind option_bind].
  destruct e as [e|]; [intros [= <- <- <- <-]; cbn [cipher conn]; auto|].
  unfold Conn_Write_send. cbn [bytePool randReader conn cipher].
  destruct (BytePool_GetAtLeast (bytePool w) (length iv + length b)) as [buf bp].
  destruct (slice_to buf (length iv + length b)) as [encBytes|]; [|done].
  cbn [mbind option_bind]. unfold Cipher_encrypt.
  destruct (enc ci) as [e|]; [|done]. cbn [mbind option_bind].
  destruct (crypto_cipher.XORKeyStream e _ b) as [[e' o]|]; [|done].
  cbn [mbind option_bind].
  match goal with
  | |- context [net.Write (conn c) ?p] =>
      destruct (net_Write_spec (conn c) p) as (Hw & Hi & _);
        destruct (net.Write (conn c) p) as [[t k] werr]
  end.
  cbn [fst snd] in *. intros [= <- <- <- <-]. cbn [cipher conn dec key].
  split_and!; eauto.
Qed.

Lemma Conn_Write_returns (w : World) (c : Conn) (b : list byte) :
  Conn_ok (w, c) ->
  exists w' c' n err, Conn_Write w c b = Some (w', c', n, err) /\ Conn_ok (w', c').
Proof.
  intros Hok. pose proof Hok as [Hpool (Hkey & Hencok & _)]. cbn [fst snd] in *.
  destruct (enc (cipher c)) as [e|] eqn:Henc.
  - destruct (Conn_Write_later w c b e Hpool Henc (Hencok e eq_refl))
      as (e' & ct & w1 & t1 & n1 & err1 & _ & _ & _ & Heq & _).
    do 4 eexists. split; [exact Heq|]. eapply Conn_Write_ok; eauto.
  - destruct (Conn_Write_first w c b Hpool Hkey Henc)
      as (blk & e & e' & ct & w1 & t1 & n1 & err1 & _ & _ & _ & _ & _ & _ & Heq & _).
    do 4 eexists. split; [exact Heq|]. eapply Conn_Write_ok; eauto.
Qed.

Lemma Cipher_initDecrypt_returns (c : Cipher) (iv : list byte) :
  aes.valid_key_size (length (key c)) = true ->
  exists ci err, Cipher_initDecrypt c iv = Some (ci, err).
Proof.
  intros Hkey. destruct (decide (length iv = aes.BlockSize)) as [Hiv|Hiv].
  - destruct (Cipher_initDecrypt_spec c iv Hkey Hiv) as (blk & d & H). eauto.
    destruct H as (_ & _ & _ & _ & _ & _ & _ & _ & H). eauto.
  - unfold Cipher_initDecrypt.
    destruct (aes_NewCipher_valid (key c) Hkey) as (blk & -> & _).
    destruct (Nat.eqb_spec (length iv) aes.BlockSize); [done|]. simpl. eauto.
Qed.

Lemma Conn_Read_returns (w : World) (c : Conn) (b : list byte) :
  Conn_ok (w, c) ->
  exists w' c' b' n err, Conn_Read w c b = Some (w', c', b', n, err) /\ Conn_ok (w', c').
Proof.
  intros Hok. pose proof Hok as [Hpool (Hkey & Hencok & Hdecok)]. cbn [fst snd] in *.
  assert (Hsome : exists r, Conn_Read w c b = Some r).
  { destruct (dec (cipher c)) as [d|] eqn:Hdec.
    - destruct (Conn_Read_ready w c b d Hpool Hdec (Hdecok d eq_refl))
        as (t' & data & err & d' & pt & w' & _ & _ & Heq & _). eauto.
    - unfold Conn_Read. rewrite Hdec.
      destruct (ReadAtLeast_net_returns (conn c) (make aes.BlockSize) aes.BlockSize)
        as (t & iv & k & e & Hread).
      unfold io.ReadFull. rewrite length_make, Hread. cbn [mbind option_bind cipher conn].
      destruct e as [e|]; [cbn [mbind option_bind]; eauto|].
      destruct (Cipher_initDecrypt_returns (cipher c) iv Hkey) as (ci & e' & Hinit).
      rewrite Hinit. cbn [mbind option_bind].
      destruct (Cipher_initDecrypt_cases _ _ _ _ Hinit)
        as [(e & -> & ->)|(-> & blk & d & Hblk & Hd & ->)]; [eauto|].
      destruct (aes_NewCipher_valid (key (cipher c)) Hkey) as (blk' & Hblk' & Hbs & Hblkok).
      rewrite Hblk in Hblk'. injection Hblk' as <-.
      assert (Hdok : cfb_ok d).
      { destruct (decide (length iv = BlockSize blk)) as [E|E].
        - destruct (newCFB_ok blk iv true Hblkok E) as (d0 & Hd0 & Hok0 & _).
          unfold crypto_cipher.NewCFBDecrypter in Hd. congruence.
        - unfold crypto_cipher.NewCFBDecrypter in Hd. by rewrite newCFB_bad_iv in Hd. }
      destruct (Conn_Read_ready w
                  (mkEncConn t (mkCipher (enc (cipher c)) (Some d) (key (cipher c)))) b d
                  Hpool eq_refl Hdok)
        as (t' & data & err & d' & pt & w' & _ & _ & Heq & _).
      unfold Conn_Read in Heq. cbn [cipher dec mbind option_bind] in Heq. eauto. }
  destruct Hsome as ([[[[w' c'] b'] n] err] & Heq).
  exists w', c', b', n, err. split; [done|]. eapply Conn_Read_ok; eauto.
Qed.

Lemma Conn_Read_frame_witness :
  exists w' c' b' n err,
    Conn_Read sample_world sample_server (make 8) = Some (w', c', b', n, err) /\
    enc (cipher c') = None /\ net.writes (conn c') = [] /\ drop n b' = drop n (make 8).
Proof.
  destruct (Conn_Read_returns sample_world sample_server (make 8)
              (Conn_ok_init _ _ _ _)) as (w' & c' & b' & n & err & Hcall & _).
  destruct (Conn_Read_frame _ _ _ _ _ _ _ _ Hcall) as (H1 & _ & H3 & _ & _ & _ & _ & H8).
  exists w', c', b', n, err. split_and!; auto.
Defined.

Lemma Conn_Write_frame_witness :
  exists w' c' n err,
    Conn_Write sample_world sample_server sample_record = Some (w', c', n, err) /\
    dec (cipher c') = None /\
    net.inbound (conn c') = net.inbound (conn sample_server).
Proof.
  destruct (Conn_Write_returns sample_world sample_server sample_record
              (Conn_ok_init _ _ _ _)) as (w' & c' & n & err & Hcall & _).
  destruct (Conn_Write_frame _ _ _ _ _ _ _ Hcall) as (H1 & _ & H3 & _).
  exists w', c', n, err. split_and!; auto.
Defined.

(** X5.  No sequence of [Read] and [Write] calls on a connection set up
    with [NewConn] and [NewCipher] fails to return: no call runs into a nil
    stream, a slice out of range, an IV of the wrong length or a read loop
    without end, whatever the transport delivers and however its writes
    go. *)
Theorem Conn_calls_return (rnd : rand.Source) (t : net.Conn) (method password : string)
    (ops : list conn_op) :
  exists wc,
    conn_run (mkWorld bytePool_init rnd, NewConn t (NewCipher method password)) ops
      = Some wc /\
    Conn_ok wc.
Proof.
  assert (H : forall wc0, Conn_ok wc0 -> exists wc, conn_run wc0 ops = Some wc /\ Conn_ok wc).
  { induction ops as [|op ops IH]; intros [w c] Hok; simpl; [eauto|].
    destruct op as [b|b]; unfold conn_step; cbn [fst snd].
    - destruct (Conn_Read_returns w c b Hok) as (w' & c' & b' & n & err & -> & Hok').
      cbn [mbind option_bind]. by apply IH.
    - destruct (Conn_Write_returns w c b Hok) as (w' & c' & n & err & -> & Hok').
      cbn [mbind option_bind]. by apply IH. }
  apply H, Conn_ok_init.
Qed.

(* ===================================================================== *)
(** ** The front end and the segments of the transport                    *)
(* ===================================================================== *)

Lemma arrivals_app (a c : list (list byte)) : arrivals (a ++ c) = arrivals a ++ arrivals c.
Proof. apply omap_app. Qed.

Lemma inbound_bytes_arrivals (segs : list (list byte)) :
  inbound_bytes (arrivals segs) = concat segs.
Proof.
  induction segs as [|[|b bs] segs IH]; simpl; [done|done|].
  by rewrite IH.
Qed.

Lemma net_recv_segment (c : net.Conn) (d : list byte) (evs : list net.read_event) k :
  d <> [] -> length d <= k ->
  net.inbound c = arrivals [d] ++ evs ->
  net.recv c k = (net.mkConn evs (net.writes c) (net.outcomes c), d, None).
Proof.
  intros Hd Hk Hin. destruct d as [|b bs]; [done|]. destruct k; [simpl in Hk; lia|].
  unfold net.recv. rewrite Hin. simpl arrivals. cbn [app].
  destruct (Nat.leb_spec (length (b :: bs)) (S k)); [done|lia].
Qed.

Lemma net_Read_segment (c : net.Conn) (d p : list byte) (evs : list net.read_event) :
  d <> [] -> length d <= length p ->
  net.inbound c = arrivals [d] ++ evs ->
  Read c p = Some (net.mkConn evs (net.writes c) (net.outcomes c),
                   d ++ drop (length d) p, length d, None).
Proof.
  intros Hd Hk Hin. unfold Read, net_Conn_Reader, net.Read.
  rewrite (net_recv_segment c d evs) by done. by rewrite copy_short.
Qed.

(** [io.ReadAtLeast] takes whole segments off the transport until it has
    [min] bytes: if the segments [init] hold fewer than [min] bytes and
    [init] with the segment [l] at least [min], it takes just these. *)
Lemma ReadAtLeast_loop_segments (l : list byte) (evs : list net.read_event) min :
  forall (init : list (list byte)) fuel (c : net.Conn) (buf : list byte) n,
  net.inbound c = arrivals (init ++ [l]) ++ evs ->
  n + length (concat init) < min ->
  min <= n + length (concat init) + length l ->
  n + length (concat init) + length l <= length buf ->
  length (concat init) < fuel ->
  io.ReadAtLeast_loop fuel c buf min n =
    Some (net.mkConn evs (net.writes c) (net.outcomes c),
          take n buf ++ concat init ++ l
            ++ drop (n + length (concat init) + length l) buf,
          n + length (concat init) + length l, None).
Proof.
  induction init as [|d init IH]; intros fuel c buf n Hin Hlt Hmin Hbuf Hfuel.
  - simpl in *. destruct fuel as [|fuel]; [lia|]. cbn [io.ReadAtLeast_loop].
    destruct (Nat.ltb_spec n min); [|lia].
    rewrite (net_Read_segment c l _ evs); [| |rewrite length_drop; lia|done].
    2:{ intros ->. simpl in *. lia. }
    cbn [mbind option_bind]. rewrite ReadAtLeast_loop_done by lia.
    rewrite drop_drop, !Nat.add_0_r. done.
  - destruct d as [|b bs]; [apply IH; auto|].
    set (d := b :: bs) in *. rewrite concat_cons, length_app in *.
    destruct fuel as [|fuel]; [lia|]. cbn [io.ReadAtLeast_loop].
    destruct (Nat.ltb_spec n min); [|lia].
    rewrite (net_Read_segment c d _ (arrivals (init ++ [l]) ++ evs));
      [|done|rewrite length_drop; lia|done].
    cbn [mbind option_bind]. rewrite drop_drop.
    assert (Hd : 1 <= length d) by (unfold d; simpl; lia).
    rewrite IH; cbn [net.inbound net.writes net.outcomes];
      [|done|lia|lia|rewrite !length_app, length_take, length_drop; lia|lia].
    replace (n + (length d + length (concat init)))
      with (n + length d + length (concat init)) by lia.
    do 4 f_equal.
    rewrite (app_assoc (take n buf)).
    rewrite take_app_length' by (rewrite length_app, length_take; lia).
    rewrite <- !app_assoc. do 4 f_equal.
    rewrite (app_assoc (take n buf)).
    rewrite drop_app_ge by (rewrite length_app, length_take; lia).
    rewrite length_app, length_take, drop_drop. f_equal. lia.
Qed.

Lemma ReadAtLeast_segments (c : net.Conn) (init : list (list byte)) (l : list byte)
    (evs : list net.read_event) (buf : list byte) min :
  net.inbound c = arrivals (init ++ [l]) ++ evs ->
  length (concat init) < min ->
  min <= length (concat init) + length l ->
  length (concat init) + length l <= length buf ->
  io.ReadAtLeast c buf min =
    Some (net.mkConn evs (net.writes c) (net.outcomes c),
          concat init ++ l ++ drop (length (concat init) + length l) buf,
          length (concat init) + length l, None).
Proof.
  intros Hin Hlt Hmin Hbuf. unfold io.ReadAtLeast.
  destruct (Nat.ltb_spec (length buf) min); [lia|].
  rewrite (ReadAtLeast_loop_segments l evs min init) by (done || lia).
  cbn [mbind option_bind take app plus].
  by destruct (Nat.leb_spec min (length (concat init) + length l)); [|lia].
Qed.

(** A transport that gives out before [min] bytes have come: closed by the
    peer ([ending = []], reads report [EOF]) or failing, as on a timeout
    ([ending = Fail e :: evs]). *)
Lemma ReadAtLeast_loop_short (ending ending' : list net.read_event) (e : error) min :
  (forall ws os k, 1 <= k ->
     net.recv (net.mkConn ending ws os) k = (net.mkConn ending' ws os, [], Some e)) ->
  forall (segs : list (list byte)) fuel (c : net.Conn) (buf : list byte) n,
  net.inbound c = arrivals segs ++ ending ->
  n + length (concat segs) < min -> min <= length buf ->
  length (concat segs) < fuel ->
  io.ReadAtLeast_loop fuel c buf min n =
    Some (net.mkConn ending' (net.writes c) (net.outcomes c),
          take n buf ++ concat segs ++ drop (n + length (concat segs)) buf,
          n + length (concat segs), Some e).
Proof.
  intros Hend. induction segs as [|d segs IH]; intros fuel c buf n Hin Hlt Hbuf Hfuel.
  - simpl in *. destruct fuel as [|fuel]; [lia|]. cbn [io.ReadAtLeast_loop].
    destruct (Nat.ltb_spec n min); [|lia].
    unfold Read, net_Conn_Reader, net.Read.
    destruct c as [inb ws os]. simpl in Hin. subst inb.
    rewrite Hend by (rewrite length_drop; lia). cbn [mbind option_bind].
    unfold copy. cbn [length net.writes net.outcomes]. rewrite take_nil, drop_0.
    by rewrite !Nat.add_0_r.
  - destruct d as [|b bs]; [apply IH; auto|].
    set (d := b :: bs) in *. rewrite concat_cons, length_app in *.
    destruct fuel as [|fuel]; [lia|]. cbn [io.ReadAtLeast_loop].
    destruct (Nat.ltb_spec n min); [|lia].
    rewrite (net_Read_segment c d _ (arrivals segs ++ ending));
      [|done|rewrite length_drop; lia|done].
    cbn [mbind option_bind]. rewrite drop_drop.
    assert (Hd : 1 <= length d) by (unfold d; simpl; lia).
    rewrite IH; cbn [net.inbound net.writes net.outcomes];
      [|done|lia|rewrite !length_app, length_take, length_drop; lia|lia].
    replace (n + (length d + length (concat segs)))
      with (n + length d + length (concat segs)) by lia.
    do 4 f_equal.
    rewrite (app_assoc (take n buf)).
    rewrite take_app_length' by (rewrite length_app, length_take; lia).
    rewrite <- !app_assoc. do 3 f_equal.
    rewrite (app_assoc (take n buf)).
    rewrite drop_app_ge by (rewrite length_app, length_take; lia).
    rewrite length_app, length_take, drop_drop. f_equal. lia.
Qed.

Lemma ReadAtLeast_short (ending ending' : list net.read_event) (e : error)
    (c : net.Conn) (segs : list (list byte)) (buf : list byte) min :
  (forall ws os k, 1 <= k ->
     net.recv (net.mkConn ending ws os) k = (net.mkConn ending' ws os, [], Some e)) ->
  net.inbound c = arrivals segs ++ ending ->
  length (concat segs) < min -> min <= length buf ->
  io.ReadAtLeast c buf min =
    Some (net.mkConn ending' (net.writes c) (net.outcomes c),
          concat segs ++ drop (length (concat segs)) buf,
          length (concat segs),
          Some (match e with
                | EOF => if 0 <? length (concat segs) then ErrUnexpectedEOF else EOF
                | _ => e
                end)).
Proof.
  intros Hend Hin Hlt Hbuf. unfold io.ReadAtLeast.
  destruct (Nat.ltb_spec (length buf) min); [lia|].
  rewrite (ReadAtLeast_loop_short ending ending' e min Hend segs) by (done || lia).
  cbn [mbind option_bind take app plus].
  destruct (Nat.leb_spec min (length (concat segs))); [lia|].
  destruct e; try done. by destruct (0 <? length (concat segs)).
Qed.

Lemma net_recv_closed ws os k :
  1 <= k -> net.recv (net.mkConn [] ws os) k = (net.mkConn [] ws os, [], Some EOF).
Proof. destruct k; [lia|done]. Qed.

Lemma net_recv_fail e evs ws os k :
  1 <= k ->
  net.recv (net.mkConn (net.Fail e :: evs) ws os) k = (net.mkConn evs ws os, [], Some e).
Proof. destruct k; [lia|done]. Qed.

(** X6.  A client that goes away early.  If the peer closes the connection
    before the two bytes the handshake waits for, or the five that
    [readRawAddr] waits for, have come (in whatever pieces), the function
    returns [io.EOF] when nothing came at all and [io.ErrUnexpectedEOF]
    otherwise; if a read fails instead (a timeout, a reset), it returns
    that error.  Nothing is written to the client in either case. *)
Theorem front_end_short_input (segs : list (list byte)) (ws : list (list byte))
    (os : list net.write_event) :
  let eof := if 0 <? length (concat segs) then ErrUnexpectedEOF else EOF in
  (length (concat segs) < 2 ->
     handsake (net.mkConn (arrivals segs) ws os)
       = Some (net.mkConn [] ws os, Some eof) /\
     forall msg evs,
       handsake (net.mkConn (arrivals segs ++ net.Fail (NetError msg) :: evs) ws os)
         = Some (net.mkConn evs ws os, Some (NetError msg))) /\
  (length (concat segs) < 5 ->
     readRawAddr (net.mkConn (arrivals segs) ws os)
       = Some (net.mkConn [] ws os, [], Some eof) /\
     forall msg evs,
       readRawAddr (net.mkConn (arrivals segs ++ net.Fail (NetError msg) :: evs) ws os)
         = Some (net.mkConn evs ws os, [], Some (NetError msg))).
Proof.
  cbv zeta. split; intros Hlt; (split; [|intros msg evs]).
  - unfold handsake.
    rewrite (ReadAtLeast_short [] [] EOF _ segs);
      [done|apply net_recv_closed|by rewrite app_nil_r|done|rewrite length_make; lia].
  - unfold handsake.
    rewrite (ReadAtLeast_short (net.Fail (NetError msg) :: evs) evs (NetError msg) _ segs);
      [done|intros; by apply net_recv_fail|done|done|rewrite length_make; lia].
  - unfold readRawAddr.
    rewrite (ReadAtLeast_short [] [] EOF _ segs);
      [done|apply net_recv_closed|by rewrite app_nil_r|done|rewrite length_make; lia].
  - unfold readRawAddr.
    rewrite (ReadAtLeast_short (net.Fail (NetError msg) :: evs) evs (NetError msg) _ segs);
      [done|intros; by apply net_recv_fail|done|done|rewrite length_make; lia].
Qed.

Lemma front_end_short_input_witness :
  handsake (net.mkConn (arrivals [bytes_of [5]]) [] [])
    = Some (net.mkConn [] [] [], Some ErrUnexpectedEOF) /\
  readRawAddr (net.mkConn (arrivals [bytes_of [5; 1]; bytes_of [0; 3]]) [] [])
    = Some (net.mkConn [] [] [], [], Some ErrUnexpectedEOF).
Proof.
  split.
  - apply (front_end_short_input [bytes_of [5]] [] []). simpl. lia.
  - apply (front_end_short_input [bytes_of [5; 1]; bytes_of [0; 3]] [] []). simpl. lia.
Defined.

Lemma int_bounded (b : byte) : int b <= 255.
Proof. apply Byte.to_nat_bounded. Qed.

Lemma raw_addr_length (addr : list byte) : raw_addr addr -> 4 <= length addr <= 259.
Proof.
  intros [(ip & port & -> & Hi & Hp)|[(ip & port & -> & Hi & Hp)
         |(l & name & port & -> & Hn & Hp)]].
  - cbn [length]. rewrite length_app, Hi, Hp. unfold net.IPv4len. lia.
  - cbn [length]. rewrite length_app, Hi, Hp. unfold net.IPv6len. lia.
  - cbn [length]. rewrite length_app, Hn, Hp. pose proof (int_bounded l).
    lia.
Qed.

(** A message in two segments, cut after [k] bytes.  [io.ReadAtLeast] takes
    the whole of it if the first segment is shorter than [min] (or the cut
    is no cut), and the first segment alone otherwise. *)
Lemma ReadAtLeast_cut_whole (msg buf : list byte) (k min : nat)
    (evs : list net.read_event) ws os :
  1 <= min -> k < min \/ length msg <= k -> min <= length msg ->
  length msg <= length buf ->
  io.ReadAtLeast (net.mkConn (arrivals [take k msg; drop k msg] ++ evs) ws os) buf min
    = Some (net.mkConn evs ws os, msg ++ drop (length msg) buf, length msg, None).
Proof.
  intros H1 Hk Hmin Hbuf.
  destruct (decide (length msg <= k)) as [Hge|Hlt].
  - rewrite take_ge, drop_ge by lia.
    rewrite (ReadAtLeast_segments _ [] msg evs); cbn [concat length app plus]; try lia.
    + done.
    + cbn [net.inbound]. change [msg; []] with ([msg] ++ [[]]).
      by rewrite arrivals_app, <- app_assoc.
  - rewrite (ReadAtLeast_segments _ [take k msg] (drop k msg) evs);
      cbn [concat length app plus net.inbound net.writes net.outcomes];
      rewrite ?app_nil_r, ?length_take, ?length_drop; try lia; [|done].
    rewrite (app_assoc (take k msg)), take_drop.
    by replace (k `min` length msg + (length msg - k)) with (length msg) by lia.
Qed.

Lemma ReadAtLeast_cut_first (msg buf : list byte) (k min : nat)
    (evs : list net.read_event) ws os :
  1 <= min -> min <= k -> k < length msg -> length msg <= length buf ->
  io.ReadAtLeast (net.mkConn (arrivals [take k msg; drop k msg] ++ evs) ws os) buf min
    = Some (net.mkConn (arrivals [drop k msg] ++ evs) ws os,
            take k msg ++ drop k buf, k, None).
Proof.
  intros Hmin Hk Hlt Hbuf.
  rewrite (ReadAtLeast_segments _ [] (take k msg) (arrivals [drop k msg] ++ evs));
    cbn [concat length app plus net.inbound net.writes net.outcomes];
    rewrite ?length_take; try lia.
  - by rewrite Nat.min_l by lia.
  - change [take k msg; drop k msg] with ([take k msg] ++ [drop k msg]).
    by rewrite arrivals_app, <- app_assoc.
Qed.

(** X7.  The greeting in two segments.  Let a well-formed greeting (version
    5, the count of methods, that many methods) arrive cut after [k] bytes.
    The handshake takes it whole, and answers 05 00, only if the second
    byte was not in the first segment, or there was no cut; if the first
    segment has two bytes or more but not all, the handshake fails with the
    header error, writes nothing and leaves the rest unread. *)
Theorem handsake_segments (nm : byte) (methods : list byte) (k : nat)
    (evs : list net.read_event) ws os :
  length methods = int nm ->
  let msg := socksVer5 :: nm :: methods in
  handsake (net.mkConn (arrivals [take k msg; drop k msg] ++ evs) ws os) =
    if (2 <=? k) && (k <? length msg)
    then Some (net.mkConn (arrivals [drop k msg] ++ evs) ws os, Some ErrParseHeader)
    else let '(c, _, err) := net.Write (net.mkConn evs ws os) [socksVer5; Byte.x00] in
         Some (c, err).
Proof.
  intros Hlen msg. pose proof (int_bounded nm) as Hnm.
  assert (HL : length msg = int nm + 2) by (unfold msg; cbn [length]; lia).
  assert (Hat0 : forall t, at_ (msg ++ t) 0 = socksVer5) by done.
  assert (Hat1 : forall t, at_ (msg ++ t) 1 = nm) by done.
  unfold handsake.
  destruct (Nat.leb_spec 2 k) as [H2|H2]; [destruct (Nat.ltb_spec k (length msg)) as [Hk|Hk]|];
    cbn [andb].
  - rewrite ReadAtLeast_cut_first by (rewrite ?length_make; lia).
    cbn [mbind option_bind].
    destruct k as [|[|k]]; [lia|lia|]. unfold msg. cbn [take app at_ nth].
    destruct (byte_eqb_spec socksVer5 socksVer5); [|done]. cbn [negb].
    destruct (Nat.eqb_spec (S (S k)) (int nm + 2)); [lia|done].
  - rewrite ReadAtLeast_cut_whole by (rewrite ?length_make; lia).
    cbn [mbind option_bind]. rewrite Hat0, Hat1.
    destruct (byte_eqb_spec socksVer5 socksVer5); [|done]. cbn [negb].
    by destruct (Nat.eqb_spec (length msg) (int nm + 2)); [|lia].
  - rewrite ReadAtLeast_cut_whole by (rewrite ?length_make; lia).
    cbn [mbind option_bind]. rewrite Hat0, Hat1.
    destruct (byte_eqb_spec socksVer5 socksVer5); [|done]. cbn [negb].
    by destruct (Nat.eqb_spec (length msg) (int nm + 2)); [|lia].
Qed.

Lemma handsake_segments_witness :
  handsake (net.mkConn (arrivals [bytes_of [5; 2; 0]; bytes_of [1]]) [] [])
    = Some (net.mkConn (arrivals [bytes_of [1]]) [] [], Some ErrParseHeader) /\
  handsake (net.mkConn (arrivals [bytes_of [5]; bytes_of [2; 0; 1]]) [] [])
    = Some (net.mkConn [] [[Byte.x05; Byte.x00]] [], None).
Proof.
  split.
  - exact (handsake_segments Byte.x02 (bytes_of [0; 1]) 3 [] [] [] eq_refl).
  - exact (handsake_segments Byte.x02 (bytes_of [0; 1]) 1 [] [] [] eq_refl).
Defined.

(** What [readRawAddr] makes of a request for a well-formed address of
    which [io.ReadAtLeast] has read the first [n] bytes. *)
Lemma readRawAddr_of_read (conn conn' : net.Conn) (rsv : byte) (addr rest : list byte) n :
  raw_addr addr ->
  5 <= n -> n <= 3 + length addr ->
  io.ReadAtLeast conn (make 262) 5
    = Some (conn', take n (socksVer5 :: cmdConnect :: rsv :: addr) ++ rest, n, None) ->
  readRawAddr conn =
    if n =? 3 + length addr then Some (conn', addr, None)
    else Some (conn', [], Some ErrParseHeader).
Proof.
  intros Haddr H5 Hn Hread. rewrite (readRawAddr_unfold _ _ _ _ Hread).
  destruct n as [|[|[|[|[|n]]]]]; try lia.
  destruct Haddr as [(ip & port & -> & Hi & Hp)|[(ip & port & -> & Hi & Hp)
         |(l & name & port & -> & Hl & Hp)]].
  - cbn [take app at_ nth length] in *. rewrite length_app, Hi, Hp in *.
    unfold net.IPv4len in *.
    repeat match goal with
           | |- context [Byte.eqb ?a ?b] => destruct (byte_eqb_spec a b); try done
           end.
    cbn [negb].
    destruct (Nat.eqb_spec (S (S (S (S (S n))))) 10) as [E|E];
      destruct (Nat.eqb_spec (S (S (S (S (S n))))) (3 + S (4 + 2))); try lia; [|done].
    injection E as ->.
    rewrite (take_ge (ip ++ port)) by (rewrite length_app; lia).
    cbn [negb take drop]. by rewrite take_app_length' by (rewrite length_app; lia).
  - cbn [take app at_ nth length] in *. rewrite length_app, Hi, Hp in *.
    unfold net.IPv6len in *.
    repeat match goal with
           | |- context [Byte.eqb ?a ?b] => destruct (byte_eqb_spec a b); try done
           end.
    cbn [negb].
    destruct (Nat.eqb_spec (S (S (S (S (S n))))) 22) as [E|E];
      destruct (Nat.eqb_spec (S (S (S (S (S n))))) (3 + S (16 + 2))); try lia; [|done].
    injection E as ->.
    rewrite (take_ge (ip ++ port)) by (rewrite length_app; lia).
    cbn [negb take drop]. by rewrite take_app_length' by (rewrite length_app; lia).
  - cbn [take app at_ nth length] in *. rewrite length_app, Hl, Hp in *.
    repeat match goal with
           | |- context [Byte.eqb ?a ?b] => destruct (byte_eqb_spec a b); try done
           end.
    cbn [negb].
    destruct (Nat.eqb_spec (S (S (S (S (S n))))) (7 + int l)) as [E|E];
      destruct (Nat.eqb_spec (S (S (S (S (S n))))) (3 + S (S (int l + 2)))); try lia;
      [|done].
    assert (n = int l + 2) as -> by lia.
    rewrite (take_ge (name ++ port)) by (rewrite length_app; lia).
    cbn [negb take drop plus]. by rewrite take_app_length' by (rewrite length_app; lia).
Qed.

(** X8.  The request in two segments.  Let a request for a well-formed
    address (version 5, CONNECT, any reserved byte, the address record)
    arrive cut after [k] bytes.  [readRawAddr] returns the address record
    only if fewer than five bytes were in the first segment, or there was
    no cut; if the first segment has five bytes or more but not all, it
    fails with the header error and leaves the rest unread. *)
Theorem readRawAddr_segments (rsv : byte) (addr : list byte) (k : nat)
    (evs : list net.read_event) ws os :
  raw_addr addr ->
  let msg := socksVer5 :: cmdConnect :: rsv :: addr in
  readRawAddr (net.mkConn (arrivals [take k msg; drop k msg] ++ evs) ws os) =
    if (5 <=? k) && (k <? length msg)
    then Some (net.mkConn (arrivals [drop k msg] ++ evs) ws os, [], Some ErrParseHeader)
    else Some (net.mkConn evs ws os, addr, None).
Proof.
  intros Haddr msg. pose proof (raw_addr_length addr Haddr) as Hlen.
  assert (HL : length msg = 3 + length addr) by done.
  destruct (Nat.leb_spec 5 k) as [H5|H5]; [destruct (Nat.ltb_spec k (length msg)) as [Hk|Hk]|];
    cbn [andb].
  - rewrite (readRawAddr_of_read _ (net.mkConn (arrivals [drop k msg] ++ evs) ws os)
               rsv addr (drop k (make 262)) k); try done; try lia.
    + by destruct (Nat.eqb_spec k (3 + length addr)); [lia|].
    + fold msg. apply ReadAtLeast_cut_first; rewrite ?length_make; lia.
  - rewrite (readRawAddr_of_read _ (net.mkConn evs ws os)
               rsv addr (drop (length msg) (make 262)) (length msg)); try done; try lia.
    + by rewrite HL, Nat.eqb_refl.
    + fold msg. rewrite (take_ge msg (length msg)) by lia.
      apply ReadAtLeast_cut_whole; rewrite ?length_make; lia.
  - rewrite (readRawAddr_of_read _ (net.mkConn evs ws os)
               rsv addr (drop (length msg) (make 262)) (length msg)); try done; try lia.
    + by rewrite HL, Nat.eqb_refl.
    + fold msg. rewrite (take_ge msg (length msg)) by lia.
      apply ReadAtLeast_cut_whole; rewrite ?length_make; lia.
Qed.

Lemma readRawAddr_segments_witness :
  readRawAddr (net.mkConn (arrivals [bytes_of [5; 1; 0; 1; 127; 0]; bytes_of [0; 1; 31; 144]])
                 [] [])
    = Some (net.mkConn (arrivals [bytes_of [0; 1; 31; 144]]) [] [], [],
            Some ErrParseHeader) /\
  readRawAddr (net.mkConn (arrivals [bytes_of [5; 1; 0; 1]; bytes_of [127; 0; 0; 1; 31; 144]])
                 [] [])
    = Some (net.mkConn [] [] [], bytes_of [1; 127; 0; 0; 1; 31; 144], None).
Proof.
  assert (H : raw_addr (bytes_of [1; 127; 0; 0; 1; 31; 144])).
  { left. by exists (bytes_of [127; 0; 0; 1]), (bytes_of [31; 144]). }
  split.
  - exact (readRawAddr_segments Byte.x00 _ 6 [] [] [] H).
  - exact (readRawAddr_segments Byte.x00 _ 4 [] [] [] H).
Defined.

(** X9.  [readRawAddr] never writes to the client, whatever it reads (no
    reply tells the client that its request was refused), and what it
    returns is either an error with no address, or a well-formed address
    record: type 1 with 4 address bytes, type 4 with 16, or type 3 with a
    length byte and that many bytes of name, and 2 bytes of port. *)
Theorem readRawAddr_result (conn conn' : net.Conn) (addr : list byte) (err : option error) :
  readRawAddr conn = Some (conn', addr, err) ->
  net.writes conn' = net.writes conn /\
  match err with
  | Some _ => addr = []
  | None => raw_addr addr
  end.
Proof.
  unfold readRawAddr.
  destruct (io.ReadAtLeast conn (make 262) 5) as [[[[c1 buf] n] e]|] eqn:Hread; [|done].
  destruct (ReadAtLeast_net _ _ _ _ _ _ _ Hread) as (Hw & _ & Hlen & Hn & Hmin).
  rewrite length_make in Hlen, Hn. cbn [mbind option_bind].
  destruct e as [e|]; [by intros [= <- <- <-]|]. specialize (Hmin eq_refl).
  destruct (byte_eqb_spec (at_ buf 0) socksVer5); cbn [negb]; [|by intros [= <- <- <-]].
  destruct (byte_eqb_spec (at_ buf 1) cmdConnect); cbn [negb]; [|by intros [= <- <- <-]].
  assert (Hcut : forall m, 4 <= m -> m <= 262 ->
            drop 3 (take m buf) = at_ buf 3 :: take (m - 4) (drop 4 buf)).
  { intros m H4 Hm.
    rewrite skipn_firstn_comm, (drop_at buf 3) by lia.
    by replace (m - 3) with (S (m - 4)) by lia. }
  destruct (byte_eqb_spec (at_ buf 3) typeIPv4) as [E4|_];
    [|destruct (byte_eqb_spec (at_ buf 3) typeIPv6) as [E6|_];
      [|destruct (byte_eqb_spec (at_ buf 3) typeDomain) as [E3|_]]].
  - destruct (Nat.eqb_spec n (4 + net.IPv4len + 2)); cbn [negb]; intros [= <- <- <-];
      [|done].
    split; [done|]. left.
    exists (take 4 (drop 4 buf)), (take 2 (drop 4 (drop 4 buf))).
    rewrite Hcut, E4 by (unfold net.IPv4len; lia).
    rewrite take_take_drop, !length_take, !length_drop. unfold net.IPv4len.
    split_and!; [done|lia|lia].
  - destruct (Nat.eqb_spec n (4 + net.IPv6len + 2)); cbn [negb]; intros [= <- <- <-];
      [|done].
    split; [done|]. right. left.
    exists (take 16 (drop 4 buf)), (take 2 (drop 16 (drop 4 buf))).
    rewrite Hcut, E6 by (unfold net.IPv6len; lia).
    rewrite take_take_drop, !length_take, !length_drop. unfold net.IPv6len.
    split_and!; [done|lia|lia].
  - destruct (Nat.eqb_spec n (4 + 1 + 2 + int (at_ buf 4))) as [En|]; cbn [negb];
      intros [= <- <- <-]; [|done].
    split; [done|]. right. right.
    exists (at_ buf 4), (take (int (at_ buf 4)) (drop 5 buf)),
           (take 2 (drop (int (at_ buf 4)) (drop 5 buf))).
    rewrite Hcut, E3 by lia. rewrite (drop_at buf 4) by lia.
    match goal with
    | |- context [take ?m (at_ buf 4 :: _)] =>
        replace m with (S (int (at_ buf 4) + 2)) by lia
    end.
    cbn [take]. rewrite take_take_drop, !length_take, !length_drop.
    split_and!; [done|lia|lia].
  - by intros [= <- <- <-].
Qed.

Lemma readRawAddr_result_witness :
  raw_addr (bytes_of [1; 127; 0; 0; 1; 31; 144]).
Proof.
  exact (proj2 (readRawAddr_result
                  (client_sends (bytes_of [5; 1; 0; 1; 127; 0; 0; 1; 31; 144]))
                  (net.mkConn [] [] []) (bytes_of [1; 127; 0; 0; 1; 31; 144]) None
                  eq_refl)).
Defined.

(* ===================================================================== *)
(** ** The tunnel: what is written at one end is read at the other        *)
(* ===================================================================== *)

Lemma tunnel_sent_Write (w : World) (c : Conn) (b wire P : list byte) w' c' n err :
  Conn_ok (w, c) -> tunnel_sent c wire P ->
  Conn_Write w c b = Some (w', c', n, err) ->
  exists p,
    net.writes (conn c') = net.writes (conn c) ++ [p] /\
    tunnel_sent c' (wire ++ p) (P ++ b) /\
    key (cipher c') = key (cipher c) /\ dec (cipher c') = dec (cipher c).
Proof.
  intros [Hpool (Hkey & Hencok & _)] Hsent Hcall. cbn [fst snd] in *.
  unfold tunnel_sent in Hsent. destruct (enc (cipher c)) as [e|] eqn:Henc.
  - destruct Hsent as (blk & iv & e0 & ct0 & Hblk & Hiv & He0 & Hsteps & ->).
    destruct (Conn_Write_later w c b e Hpool Henc (Hencok e eq_refl))
      as (e' & ct & w1 & t1 & n1 & err1 & Hx & _ & _ & Heq & Hw & _).
    rewrite Heq in Hcall. injection Hcall as <- <- <- <-.
    rewrite XORKeyStream_steps in Hx by (rewrite ?length_make; auto).
    exists ct. cbn [conn cipher key dec]. split_and!; try done.
    unfold tunnel_sent. cbn [cipher enc key].
    exists blk, iv, e0, (ct0 ++ ct). split_and!; try done.
    + rewrite cfb_steps_app, Hsteps. cbn [mbind option_bind]. by rewrite Hx.
    + by rewrite app_assoc.
  - destruct Hsent as [-> ->].
    destruct (Conn_Write_first w c b Hpool Hkey Henc)
      as (blk & e & e' & ct & w1 & t1 & n1 & err1 & Hiv & Hblk & He & Hx & _ & _ & Heq
          & Hw & _).
    rewrite Heq in Hcall. injection Hcall as <- <- <- <-.
    destruct (aes_NewCipher_valid _ Hkey) as (blk' & Hblk' & Hbs & Hblkok).
    rewrite Hblk in Hblk'. injection Hblk' as <-.
    destruct (newCFB_ok blk _ false Hblkok (eq_trans Hiv (eq_sym Hbs)))
      as (e1 & He1 & Hok1 & _).
    unfold crypto_cipher.NewCFBEncrypter in He. rewrite He in He1. injection He1 as <-.
    rewrite XORKeyStream_steps in Hx by (rewrite ?length_make; auto).
    eexists. cbn [conn cipher key dec]. split_and!; try done.
    unfold tunnel_sent. cbn [cipher enc key app].
    eexists blk, _, e, ct. split_and!; try done.
Qed.

Lemma conn_run_writes (bs : list (list byte)) : forall w c wire P w' c',
  Conn_ok (w, c) -> tunnel_sent c wire P ->
  conn_run (w, c) (CallWrite <$> bs) = Some (w', c') ->
  exists sent,
    net.writes (conn c') = net.writes (conn c) ++ sent /\
    length sent = length bs /\
    tunnel_sent c' (wire ++ concat sent) (P ++ concat bs) /\
    key (cipher c') = key (cipher c) /\ dec (cipher c') = dec (cipher c) /\
    Conn_ok (w', c').
Proof.
  induction bs as [|b bs IH]; intros w c wire P w' c' Hok Hsent Hrun.
  - injection Hrun as <- <-. exists []. by rewrite !app_nil_r.
  - cbn [fmap list_fmap conn_run conn_step fst snd] in Hrun.
    destruct (Conn_Write w c b) as [[[[w1 c1] n] err]|] eqn:Hcall; [|done].
    cbn [mbind option_bind] in Hrun.
    destruct (tunnel_sent_Write _ _ _ _ _ _ _ _ _ Hok Hsent Hcall)
      as (p & Hw & Hsent1 & Hkey1 & Hdec1).
    pose proof (Conn_Write_ok _ _ _ _ _ _ _ Hok Hcall) as Hok1.
    destruct (IH _ _ _ _ _ _ Hok1 Hsent1 Hrun)
      as (sent & Hw2 & Hlen & Hsent2 & Hkey2 & Hdec2 & Hok2).
    exists (p :: sent). cbn [concat length].
    rewrite Hw2, Hw, <- !app_assoc in *. split_and!; try done; try congruence.
Qed.

Lemma tunnel_sent_plaintext (c s : Conn) (wire P : list byte) :
  tunnel_sent c wire P ->
  aes.valid_key_size (length (key (cipher c))) = true ->
  key (cipher s) = key (cipher c) -> dec (cipher s) = None ->
  inbound_bytes (net.inbound (conn s)) = wire ->
  plaintext_ahead s = P.
Proof.
  intros Hsent Hkey Hk Hdec Hin. unfold plaintext_ahead. rewrite Hdec, Hk, Hin.
  destruct (aes_NewCipher_valid _ Hkey) as (blk & Hblk & Hbs & Hblkok). rewrite Hblk.
  unfold tunnel_sent in Hsent. destruct (enc (cipher c)) as [e|].
  - destruct Hsent as (blk' & iv & e0 & ct & Hblk' & Hiv & He0 & Hsteps & ->).
    rewrite Hblk in Hblk'. injection Hblk' as <-.
    rewrite take_app_length', drop_app_length' by done.
    destruct (newCFB_ok blk iv false Hblkok (eq_trans Hiv (eq_sym Hbs)))
      as (e1 & He1 & Hok1 & Hb1 & Hn1 & Ho1 & Hu1 & Hd1).
    destruct (newCFB_ok blk iv true Hblkok (eq_trans Hiv (eq_sym Hbs)))
      as (d0 & Hd0 & Hokd & Hb2 & Hn2 & Ho2 & Hu2 & Hd2).
    unfold crypto_cipher.NewCFBEncrypter in He0. rewrite He0 in He1. injection He1 as <-.
    unfold crypto_cipher.NewCFBDecrypter. rewrite Hd0.
    assert (Hsync : cfb_synced e0 d0).
    { unfold cfb_synced. by rewrite Hb1, Hb2, Hn1, Hn2, Ho1, Ho2, Hu1, Hu2, Hd1, Hd2. }
    destruct (cfb_steps_roundtrip P e0 d0 e ct Hsync Hsteps) as (d' & Hdsteps & _).
    by apply (stream_out_steps d0 ct d').
  - destruct Hsent as [-> ->]. unfold crypto_cipher.NewCFBDecrypter.
    rewrite newCFB_bad_iv; [done|]. rewrite Hbs. by cbn.
Qed.

Lemma Conn_ReadFull (wc : World * Conn) (buf : list byte) :
  Conn_ok wc -> length buf <= length (plaintext_ahead wc.2) ->
  exists wc',
    io.ReadFull wc buf
      = Some (wc', take (length buf) (plaintext_ahead wc.2), length buf, None) /\
    plaintext_ahead wc'.2 = drop (length buf) (plaintext_ahead wc.2) /\ Conn_ok wc'.
Proof.
  apply (ReadFull_view (fun wc => plaintext_ahead wc.2) Conn_ok Conn_Read_view).
Qed.

(** X10.  Round trip through the tunnel.  Let any buffers [bs] be written,
    one [Write] each, to a fresh encrypted connection.  Each call hands one
    buffer to the transport; and if the bytes so handed over arrive, in
    whatever pieces, on a fresh encrypted connection with the same method
    and password, [io.ReadFull] reads from it the bytes of [bs], in order
    and without error. *)
Theorem tunnel_round_trip (rnd : rand.Source) (t : net.Conn) (method password : string)
    (bs : list (list byte)) (w : World) (c : Conn) (w2 : World)
    (evs : list net.read_event) ws os :
  conn_run (mkWorld bytePool_init rnd, NewConn t (NewCipher method password))
           (CallWrite <$> bs) = Some (w, c) ->
  pool_ok (bytePool w2) ->
  inbound_bytes evs = concat (drop (length (net.writes t)) (net.writes (conn c))) ->
  length (net.writes (conn c)) = length (net.writes t) + length bs /\
  exists wc',
    io.ReadFull (w2, NewConn (net.mkConn evs ws os) (NewCipher method password))
                (make (length (concat bs)))
      = Some (wc', concat bs, length (concat bs), None).
Proof.
  intros Hrun Hpool Hin.
  destruct (conn_run_writes bs _ _ [] [] _ _ (Conn_ok_init rnd t method password)
              (conj eq_refl eq_refl) Hrun)
    as (sent & Hw & Hlen & Hsent & Hkey & Hdec & Hok).
  cbn [NewConn conn cipher app] in *.
  rewrite Hw, drop_app_length in Hin. split; [by rewrite Hw, length_app, Hlen|].
  set (s := NewConn (net.mkConn evs ws os) (NewCipher method password)).
  assert (Hahead : plaintext_ahead s = concat bs).
  { apply (tunnel_sent_plaintext c s (concat sent)); try done.
    rewrite Hkey. apply toKey_valid_key_size. }
  destruct (Conn_ReadFull (w2, s) (make (length (concat bs)))) as (wc' & Hread & _).
  - split; [done|apply NewCipher_ok].
  - cbn [snd]. by rewrite Hahead, length_make.
  - exists wc'. cbn [snd] in Hread. rewrite Hahead, length_make, take_ge in Hread by done.
    exact Hread.
Qed.

Lemma conn_run_returns (ops : list conn_op) : forall wc,
  Conn_ok wc -> exists wc', conn_run wc ops = Some wc' /\ Conn_ok wc'.
Proof.
  induction ops as [|op ops IH]; intros [w c] Hok; simpl; [eauto|].
  destruct op as [b|b]; unfold conn_step; cbn [fst snd].
  - destruct (Conn_Read_returns w c b Hok) as (w' & c' & b' & n & err & -> & Hok').
    cbn [mbind option_bind]. by apply IH.
  - destruct (Conn_Write_returns w c b Hok) as (w' & c' & n & err & -> & Hok').
    cbn [mbind option_bind]. by apply IH.
Qed.

Lemma tunnel_round_trip_witness :
  exists w c wc',
    conn_run (sample_world, NewConn (client_sends []) (NewCipher "aes-256-cfb" "pw"))
             (CallWrite <$> [sample_record; sample_payload]) = Some (w, c) /\
    io.ReadFull (sample_world,
                 NewConn (net.mkConn
                            (arrivals [take 21 (concat (net.writes (conn c)));
                                       drop 21 (concat (net.writes (conn c)))]) [] [])
                         (NewCipher "aes-256-cfb" "pw"))
                (make (length (sample_record ++ sample_payload)))
      = Some (wc', sample_record ++ sample_payload,
              length (sample_record ++ sample_payload), None).
Proof.
  destruct (conn_run_returns (CallWrite <$> [sample_record; sample_payload])
              (sample_world, NewConn (client_sends []) (NewCipher "aes-256-cfb" "pw"))
              (Conn_ok_init _ _ _ _)) as ([w c] & Hrun & _).
  destruct (tunnel_round_trip _ _ _ _ _ w c sample_world
              (arrivals [take 21 (concat (net.writes (conn c)));
                         drop 21 (concat (net.writes (conn c)))]) [] [] Hrun)
    as (_ & wc' & Hread).
  - apply NewBytePool_ok.
  - rewrite inbound_bytes_arrivals. cbn [concat client_sends net.writes length drop].
    by rewrite app_nil_r, take_drop.
  - exists w, c, wc'. split; [exact Hrun|].
    cbn [concat] in Hread. rewrite app_nil_r in Hread. exact Hread.
Defined.
